(** * The dense Merkle Patricia trie of [core/trie/trie.go]

    A shallow embedding of the trie engine (bit-path arithmetic, descent,
    [Put], [deleteLast], [propagateValues], [Root]) together with the
    properties its specification states about it. *)

From Stdlib Require Import ZArith Lia Bool List.
From stdpp Require Import base tactics option list gmap.

Local Open Scope Z_scope.

(** ** Go's [uint]: 64-bit unsigned arithmetic with wrap-around *)

Module U64.

Definition modulus : Z := 2 ^ 64.

Definition wrap (x : Z) : Z := x mod modulus.

Definition add (a b : Z) : Z := wrap (a + b).

Definition sub (a b : Z) : Z := wrap (a - b).

End U64.

(** ** The bit sets of [github.com/bits-and-blooms/bitset]

    A [BitSet] is a length and a slice of 64-bit words.  The words are read
    here as one little-endian integer [set]: bit [i] of the bit set is bit
    [i] of [set].  A trie key built by [FromWithLength] from the four words
    of a field element covers lengths up to 256. *)

Module bitset.

Record BitSet : Type := mk { length : Z; set : Z }.

Definition Len (b : BitSet) : Z := length b.

(** [Test i] is false past the length, otherwise it reads bit [i]. *)
Definition Test (b : BitSet) (i : Z) : bool :=
  if i <? length b then Z.testbit (set b) i else false.

Definition Clone (b : BitSet) : BitSet := b.

(** [DeleteAt i] removes bit [i]; the bits above it move down by one. *)
Definition DeleteAt (b : BitSet) (i : Z) : BitSet :=
  {| length := U64.sub (length b) 1;
     set := Z.lor (Z.land (set b) (Z.ones i))
                  (Z.shiftl (Z.shiftr (set b) (i + 1)) i) |}.

(** [Shrink lastbitindex] makes [lastbitindex] the largest index and clears
    the bits above it. *)
Definition Shrink (b : BitSet) (lastbitindex : Z) : BitSet :=
  let len := U64.add lastbitindex 1 in
  {| length := len; set := Z.land (set b) (Z.ones len) |}.

Definition Equal (b c : BitSet) : bool :=
  (length b =? length c) && (set b =? set c).

(** Pointer receivers: a nil bit set equals only nil. *)
Definition EqualPtr (b c : option BitSet) : bool :=
  match b, c with
  | Some b, Some c => Equal b c
  | None, None => true
  | _, _ => false
  end.

Definition FromWithLength (len : Z) (words : Z) : BitSet :=
  {| length := len; set := words |}.

(** Bit [i] counted from the most significant end: position 0 is the
    root-ward bit of a key. *)
Definition msb (b : BitSet) (i : Z) : bool := Test b (length b - 1 - i).

(** What a [uint] length and a word slice can hold. *)
Definition wf (b : BitSet) : Prop :=
  0 <= length b < U64.modulus - 1 /\ 0 <= set b.

(** No bit set at or above the length. *)
Definition canonical (b : BitSet) : Prop :=
  0 <= length b < U64.modulus - 1 /\ 0 <= set b < 2 ^ length b.

#[global] Instance BitSet_eq_dec : EqDecision BitSet.
Proof. solve_decision. Defined.

#[global] Instance BitSet_countable : Countable BitSet.
Proof.
  apply (inj_countable' (fun b => (length b, set b))
                        (fun p => {| length := fst p; set := snd p |})).
  intros []; reflexivity.
Defined.

End bitset.

Import bitset(BitSet).

(** ** Bit-path arithmetic of the trie *)

(** The first loop of [FindCommonKey]: advance [divergentBit] while it is
    at most the shorter length and the two keys agree on that bit counted
    from the top.  The loop body runs at most [Len shorterKey + 1] times,
    which is the fuel [FindCommonKey] passes. *)
Fixpoint findDivergentBit (fuel : nat) (longerKey shorterKey : BitSet)
    (divergentBit : Z) : Z :=
  match fuel with
  | O => divergentBit
  | S fuel' =>
      if (divergentBit <=? bitset.Len shorterKey) &&
         Bool.eqb
           (bitset.Test longerKey (U64.sub (bitset.Len longerKey) divergentBit))
           (bitset.Test shorterKey (U64.sub (bitset.Len shorterKey) divergentBit))
      then findDivergentBit fuel' longerKey shorterKey (U64.add divergentBit 1)
      else divergentBit
  end.

Definition FindCommonKey (longerKey shorterKey : BitSet) : BitSet * bool :=
  let divergentBit :=
    findDivergentBit (Z.to_nat (bitset.Len shorterKey + 1)) longerKey shorterKey 0 in
  let commonKey :=
    Nat.iter
      (Z.to_nat (U64.add (U64.sub (bitset.Len shorterKey) divergentBit) 1))
      (fun b => bitset.DeleteAt b 0)
      (bitset.Clone shorterKey) in
  (commonKey, divergentBit =? U64.add (bitset.Len shorterKey) 1).

Definition Path (key : BitSet) (parentKey : option BitSet) : BitSet :=
  let path := bitset.Clone key in
  match parentKey with
  | Some parentKey =>
      let path :=
        bitset.Shrink path
          (U64.sub (U64.sub (bitset.Len path) (bitset.Len parentKey)) 1) in
      bitset.DeleteAt path (U64.sub (bitset.Len path) 1)
  | None => path
  end.


(** ** Field elements, nodes and the node store *)

(** A [felt.Felt], by its regular (non-Montgomery) integer value. *)
Definition Felt : Type := Z.

Definition IsZero (v : Felt) : bool := v =? 0.

Module node.

(** The trie [Node]: a value and the storage keys of the two children;
    [None] is a nil pointer. *)
Record Node : Type := mk { value : Felt; left : option BitSet; right : option BitSet }.

Definition set_value (v : Felt) (n : Node) : Node :=
  {| value := v; left := left n; right := right n |}.

Definition set_left (k : option BitSet) (n : Node) : Node :=
  {| value := value n; left := k; right := right n |}.

Definition set_right (k : option BitSet) (n : Node) : Node :=
  {| value := value n; left := left n; right := k |}.

(** Both child keys present or both absent. *)
Definition balanced (n : Node) : Prop :=
  left n = None <-> right n = None.

End node.

Import node(Node).

(** The [storageNode] of a spine: a storage key and the node read at it. *)
Module storageNode.

Record t : Type := mk { key : BitSet; node : Node }.

End storageNode.

Abbreviation storageNode := storageNode.t.

Inductive error : Type :=
| ErrKeyNotFound
| ErrStorage (code : Z).

(** How a call ends: a value with a nil error, an error, the
    [panic("should not happen")] of [propagateValues] (or an index or nil
    dereference the Go runtime would raise), or a descent that has not
    ended within the fuel. *)
Inductive result (A : Type) : Type :=
| Ok (a : A)
| Err (e : error)
| Panic
| OutOfFuel.

Arguments Ok {A} a.
Arguments Err {A} e.
Arguments Panic {A}.
Arguments OutOfFuel {A}.

(** The [Storage] interface.  Each method may change the store and may
    fail; [Get] returns either an error or a node. *)
Class Storage (St : Type) : Type := {
  storage_Put : BitSet -> Node -> St -> option error * St;
  storage_Get : BitSet -> St -> (error + Node) * St;
  storage_Delete : BitSet -> St -> option error * St
}.

Module trie.

Record Trie (St : Type) : Type := mk { height : Z; rootKey : option BitSet; storage : St }.

Arguments mk {St} height rootKey storage.
Arguments height {St} t.
Arguments rootKey {St} t.
Arguments storage {St} t.

Definition set_rootKey {St} (k : option BitSet) (t : Trie St) : Trie St :=
  {| height := height t; rootKey := k; storage := storage t |}.

Definition set_storage {St} (s : St) (t : Trie St) : Trie St :=
  {| height := height t; rootKey := rootKey t; storage := s |}.

End trie.

Import trie(Trie).

(** ** The monad of trie methods: the receiver [*Trie] is threaded as
    state, and a call ends in a [result]. *)

Definition M (St A : Type) : Type := Trie St -> result A * Trie St.

Definition ret {St A} (a : A) : M St A := fun t => (Ok a, t).

Definition fail {St A} (e : error) : M St A := fun t => (Err e, t).

Definition panic {St A} : M St A := fun t => (Panic, t).

Definition out_of_fuel {St A} : M St A := fun t => (OutOfFuel, t).

Definition bind {St A B} (m : M St A) (f : A -> M St B) : M St B :=
  fun t =>
    match m t with
    | (Ok a, t') => f a t'
    | (Err e, t') => (Err e, t')
    | (Panic, t') => (Panic, t')
    | (OutOfFuel, t') => (OutOfFuel, t')
    end.

Notation "'let!' x ':=' m 'in' k" := (bind m (fun x => k))
  (at level 10, x name, m at level 100, k at level 200).

Notation "m ;;; k" := (bind m (fun _ => k))
  (at level 100, k at level 200, right associativity).

Section TrieEngine.

Context {St : Type} `{Storage St}.

(** [crypto.Pedersen] and the method [Node.Hash] are opaque to the engine. *)
Variable Pedersen : Felt -> Felt -> Felt.
Variable Hash : Node -> BitSet -> Felt.

Definition storagePut (key : BitSet) (value : Node) : M St unit :=
  fun t =>
    match storage_Put key value (trie.storage t) with
    | (None, s) => (Ok tt, trie.set_storage s t)
    | (Some e, s) => (Err e, trie.set_storage s t)
    end.

(** A nil key is dereferenced by the store. *)
Definition storageGet (key : option BitSet) : M St Node :=
  fun t =>
    match key with
    | None => (Panic, t)
    | Some key =>
        match storage_Get key (trie.storage t) with
        | (inr n, s) => (Ok n, trie.set_storage s t)
        | (inl e, s) => (Err e, trie.set_storage s t)
        end
    end.

Definition storageDelete (key : BitSet) : M St unit :=
  fun t =>
    match storage_Delete key (trie.storage t) with
    | (None, s) => (Ok tt, trie.set_storage s t)
    | (Some e, s) => (Err e, trie.set_storage s t)
    end.

Definition setRootKey (k : option BitSet) : M St unit :=
  fun t => (Ok tt, trie.set_rootKey k t).

Definition FeltToBitSet (t : Trie St) (k : Felt) : BitSet :=
  bitset.FromWithLength (trie.height t) k.

(** The loop of [nodesFromRoot]; each turn reads one node, so [fuel]
    bounds the depth of the descent. *)
Fixpoint nodesFromRootLoop (fuel : nat) (key : BitSet) (cur : option BitSet)
    (nodes : list storageNode) : M St (list storageNode) :=
  match cur with
  | None => ret nodes
  | Some cur =>
      match fuel with
      | O => out_of_fuel
      | S fuel' =>
          let! node := storageGet (Some cur) in
          let nodes := nodes ++ [storageNode.mk cur node] in
          let subset := snd (FindCommonKey key cur) in
          if (bitset.Len key <=? bitset.Len cur) || negb subset then ret nodes
          else if bitset.Test key
                    (U64.sub (U64.sub (bitset.Len key) (bitset.Len cur)) 1)
          then nodesFromRootLoop fuel' key (node.right node) nodes
          else nodesFromRootLoop fuel' key (node.left node) nodes
      end
  end.

Definition nodesFromRoot (fuel : nat) (key : BitSet) : M St (list storageNode) :=
  fun t => nodesFromRootLoop fuel key (trie.rootKey t) [] t.

Definition Get (key : Felt) : M St Felt :=
  fun t =>
    (let! value := storageGet (Some (FeltToBitSet t key)) in
     ret (node.value value)) t.

(** One turn of the loop of [propagateValues]. *)
Definition propagateNode (cur : storageNode) : M St unit :=
  match node.left (storageNode.node cur), node.right (storageNode.node cur) with
  | Some _, None | None, Some _ => panic
  | None, None => storagePut (storageNode.key cur) (storageNode.node cur)
  | Some l, Some r =>
      let! left := storageGet (Some l) in
      let! right := storageGet (Some r) in
      let leftPath := Path l (Some (storageNode.key cur)) in
      let rightPath := Path r (Some (storageNode.key cur)) in
      let value := Pedersen (Hash left leftPath) (Hash right rightPath) in
      storagePut (storageNode.key cur) (node.set_value value (storageNode.node cur))
  end.

(** The loop runs from the last index down to 0: [revNodes] is the spine
    deepest node first. *)
Fixpoint propagateLoop (revNodes : list storageNode) : M St unit :=
  match revNodes with
  | [] => ret tt
  | cur :: rest => propagateNode cur ;;; propagateLoop rest
  end.

Definition propagateValues (affectedNodes : list storageNode) : M St unit :=
  propagateLoop (rev affectedNodes).

(** [deleteLast] reads its slice from the end: [last], then [parent], then
    [grandParent]. *)
Definition deleteLast (affectedNodes : list storageNode) : M St unit :=
  match rev affectedNodes with
  | [] => panic
  | last :: revInit =>
      storageDelete (storageNode.key last) ;;;
      match revInit with
      | [] => setRootKey None
      | parent :: revRest =>
          storageDelete (storageNode.key parent) ;;;
          let siblingKey :=
            if bitset.EqualPtr (node.left (storageNode.node parent))
                 (Some (storageNode.key last))
            then node.right (storageNode.node parent)
            else node.left (storageNode.node parent) in
          match revRest with
          | [] => setRootKey siblingKey
          | grandParent :: revTop =>
              let grandParent :=
                if bitset.EqualPtr (node.left (storageNode.node grandParent))
                     (Some (storageNode.key parent))
                then storageNode.mk (storageNode.key grandParent)
                       (node.set_left siblingKey (storageNode.node grandParent))
                else storageNode.mk (storageNode.key grandParent)
                       (node.set_right siblingKey (storageNode.node grandParent)) in
              let! sibling := storageGet siblingKey in
              match siblingKey with
              | None => panic
              | Some siblingKey =>
                  propagateValues
                    (rev revTop ++ [grandParent; storageNode.mk siblingKey sibling])
              end
          end
      end
  end.

Definition Put (fuel : nat) (key value : Felt) : M St unit :=
  fun t =>
    let nodeKey := FeltToBitSet t key in
    let node := node.mk value None None in
    match trie.rootKey t with
    | None =>
        if IsZero value then (Ok tt, t)
        else
          (propagateValues [storageNode.mk nodeKey node] ;;;
           setRootKey (Some nodeKey)) t
    | Some _ =>
        (let! nodes := nodesFromRoot fuel nodeKey in
         match rev nodes with
         | [] => panic
         | sibling :: revInit =>
             if bitset.Equal nodeKey (storageNode.key sibling) then
               let nodes := rev revInit ++ [storageNode.mk (storageNode.key sibling) node] in
               if IsZero value then deleteLast nodes else propagateValues nodes
             else if IsZero value then ret tt
             else
               let commonKey := fst (FindCommonKey nodeKey (storageNode.key sibling)) in
               let newParent :=
                 if bitset.Test nodeKey
                      (U64.sub (U64.sub (bitset.Len nodeKey) (bitset.Len commonKey)) 1)
                 then node.mk 0 (Some (storageNode.key sibling)) (Some nodeKey)
                 else node.mk 0 (Some nodeKey) (Some (storageNode.key sibling)) in
               match revInit with
               | [] =>
                   propagateValues
                     [storageNode.mk commonKey newParent; storageNode.mk nodeKey node] ;;;
                   setRootKey (Some commonKey)
               | siblingParent :: revTop =>
                   let siblingParent :=
                     if bitset.EqualPtr (node.left (storageNode.node siblingParent))
                          (Some (storageNode.key sibling))
                     then storageNode.mk (storageNode.key siblingParent)
                            (node.set_left (Some commonKey) (storageNode.node siblingParent))
                     else storageNode.mk (storageNode.key siblingParent)
                            (node.set_right (Some commonKey) (storageNode.node siblingParent)) in
                   propagateValues
                     (rev revTop ++
                      [siblingParent; storageNode.mk commonKey newParent;
                       storageNode.mk nodeKey node])
               end
         end) t
    end.

Definition Root : M St Felt :=
  fun t =>
    match trie.rootKey t with
    | None => (Ok 0, t)
    | Some rootKey =>
        (let! root := storageGet (Some rootKey) in
         ret (Hash root (Path rootKey None))) t
    end.

End TrieEngine.

(** ** Stores *)

Module memstore.

(** One call on the store. *)
Inductive event : Type :=
| EvGet (key : BitSet)
| EvPut (key : BitSet) (value : Node)
| EvDelete (key : BitSet).

Definition is_read (e : event) : bool :=
  match e with EvGet _ => true | _ => false end.

(** The store's content and the calls made on it, oldest first. *)
Record t : Type := mk { mem : gmap BitSet Node; log : list event }.

Definition empty : t := {| mem := ∅; log := [] |}.

Definition Put (key : BitSet) (value : Node) (s : t) : option error * t :=
  (None, {| mem := <[key := value]> (mem s); log := log s ++ [EvPut key value] |}).

Definition Get (key : BitSet) (s : t) : (error + Node) * t :=
  (match mem s !! key with
   | Some n => inr n
   | None => inl ErrKeyNotFound
   end,
   {| mem := mem s; log := log s ++ [EvGet key] |}).

Definition Delete (key : BitSet) (s : t) : option error * t :=
  (None, {| mem := delete key (mem s); log := log s ++ [EvDelete key] |}).

End memstore.

(** Modelled from the spec: the node store behind the [Storage] interface,
    whose implementation is not part of the sources.  [Get] returns the node
    on a hit and fails with not-found otherwise, [Put] is an upsert,
    [Delete] removes and tolerates a missing key.  The store also records
    the calls it receives. *)
#[global] Instance memstore_Storage : Storage memstore.t := {
  storage_Put := memstore.Put;
  storage_Get := memstore.Get;
  storage_Delete := memstore.Delete
}.

Module faultstore.

(** A store that serves [budget] calls and fails every call after them. *)
Record t : Type := mk { inner : memstore.t; budget : nat }.

Definition Put (key : BitSet) (value : Node) (s : t) : option error * t :=
  match budget s with
  | O => (Some (ErrStorage 1), s)
  | S b =>
      let '(r, i) := memstore.Put key value (inner s) in
      (r, {| inner := i; budget := b |})
  end.

Definition Get (key : BitSet) (s : t) : (error + Node) * t :=
  match budget s with
  | O => (inl (ErrStorage 1), s)
  | S b =>
      let '(r, i) := memstore.Get key (inner s) in
      (r, {| inner := i; budget := b |})
  end.

Definition Delete (key : BitSet) (s : t) : option error * t :=
  match budget s with
  | O => (Some (ErrStorage 1), s)
  | S b =>
      let '(r, i) := memstore.Delete key (inner s) in
      (r, {| inner := i; budget := b |})
  end.

End faultstore.

#[global] Instance faultstore_Storage : Storage faultstore.t := {
  storage_Put := faultstore.Put;
  storage_Get := faultstore.Get;
  storage_Delete := faultstore.Delete
}.

(** A fresh trie over an empty store, as [RunOnTempTrie] builds it. *)
Definition NewTrie {St} (storage : St) (height : Z) (rootKey : option BitSet) : Trie St :=
  trie.mk height rootKey storage.

(** A run of [Put] calls, stopping at the first that does not return nil. *)
Fixpoint PutAll {St} `{Storage St} (Pedersen : Felt -> Felt -> Felt)
    (Hash : Node -> BitSet -> Felt) (fuel : nat) (ops : list (Felt * Felt))
    : M St unit :=
  match ops with
  | [] => ret tt
  | (k, v) :: ops' => Put Pedersen Hash fuel k v ;;; PutAll Pedersen Hash fuel ops'
  end.

(** The prime of the field of felts. *)
Definition felt_modulus : Z := 2 ^ 251 + 17 * 2 ^ 192 + 1.

(** Modelled from the spec: the method [Node.Hash], whose source file is
    not part of the sources.  A node hashed under an empty relative path is
    its value; otherwise the value is hashed with the path and the path's
    length is added in the field. *)
Definition hash_of (Pedersen : Felt -> Felt -> Felt) (n : Node) (path : BitSet) : Felt :=
  if bitset.Len path =? 0 then node.value n
  else (Pedersen (node.value n) (bitset.set path) + bitset.Len path) mod felt_modulus.

(** A stand-in for the Pedersen hash, to run the engine on examples. *)
Definition examplePedersen (a b : Felt) : Felt :=
  (3 * a + 5 * b + 1) mod felt_modulus.

Definition exampleHash : Node -> BitSet -> Felt := hash_of examplePedersen.

(** * Proofs *)

(** ** Facts on [uint] arithmetic and bit sets *)

Section WordFacts.

Import bitset.

Lemma u64_wrap_small x : 0 <= x < U64.modulus -> U64.wrap x = x.
Proof. intros H. unfold U64.wrap. apply Z.mod_small. exact H. Qed.

Lemma u64_add_small a b : 0 <= a + b < U64.modulus -> U64.add a b = a + b.
Proof. apply u64_wrap_small. Qed.

Lemma u64_sub_small a b : 0 <= a - b < U64.modulus -> U64.sub a b = a - b.
Proof. apply u64_wrap_small. Qed.

Lemma u64_sub_add_cancel a b :
  0 <= b <= a + 1 -> a + 1 < U64.modulus -> U64.add (U64.sub a b) 1 = a + 1 - b.
Proof.
  intros Hb Ha. unfold U64.add, U64.sub, U64.wrap.
  rewrite Zplus_mod_idemp_l. rewrite Z.mod_small; unfold U64.modulus in *; lia.
Qed.


Lemma bitset_Equal_eq b c : Equal b c = true <-> b = c.
Proof.
  unfold Equal. destruct b as [lb sb], c as [lc sc]; simpl.
  rewrite andb_true_iff, !Z.eqb_eq. split.
  - intros [-> ->]. reflexivity.
  - intros H. injection H as -> ->. split; reflexivity.
Qed.

Lemma bitset_Equal_refl b : Equal b b = true.
Proof. apply bitset_Equal_eq. reflexivity. Qed.

Lemma bitset_Equal_neq b c : b <> c -> Equal b c = false.
Proof.
  intros H. destruct (Equal b c) eqn:E; [|reflexivity].
  apply bitset_Equal_eq in E. contradiction.
Qed.

Lemma canonical_wf b : canonical b -> wf b.
Proof. unfold canonical, wf. lia. Qed.


End WordFacts.

(** ** Facts on bit-path arithmetic *)

Section BitPathFacts.

Import bitset.

Lemma DeleteAt_0 b :
  DeleteAt b 0 = {| length := U64.sub (length b) 1; set := Z.shiftr (set b) 1 |}.
Proof.
  unfold DeleteAt. f_equal. simpl.
  rewrite Z.land_0_r, Z.shiftl_0_r. reflexivity.
Qed.

Lemma iter_DeleteAt_0 (n : nat) b :
  Z.of_nat n <= length b < U64.modulus ->
  Nat.iter n (fun b => DeleteAt b 0) b =
  {| length := length b - Z.of_nat n; set := Z.shiftr (set b) (Z.of_nat n) |}.
Proof.
  induction n as [|n IH]; intros Hn.
  - simpl. rewrite Z.sub_0_r, Z.shiftr_0_r. destruct b; reflexivity.
  - rewrite Nat.iter_succ, IH by lia. rewrite DeleteAt_0. simpl.
    rewrite u64_sub_small by lia.
    rewrite Z.shiftr_shiftr by lia. f_equal; [lia | f_equal; lia].
Qed.

Lemma msb_testbit b i :
  0 <= i -> msb b i = Z.testbit (set b) (length b - 1 - i).
Proof.
  intros Hi. unfold msb, Test.
  destruct (Z.ltb_spec (length b - 1 - i) (length b)); [reflexivity | lia].
Qed.

Lemma Test_at_Len b : Test b (length b) = false.
Proof. unfold Test. rewrite Z.ltb_irrefl. reflexivity. Qed.

(** The loop stops at one more than the number of leading bits on which the
    two keys agree, and at most one past the shorter length. *)
Lemma findDivergentBit_spec longerKey shorterKey (fuel : nat) d :
  0 <= Len shorterKey <= Len longerKey ->
  Len longerKey < U64.modulus - 1 ->
  1 <= d <= Len shorterKey + 1 ->
  Len shorterKey + 1 - d <= Z.of_nat fuel ->
  (forall j, 0 <= j < d - 1 -> msb longerKey j = msb shorterKey j) ->
  let r := findDivergentBit fuel longerKey shorterKey d in
  d <= r <= Len shorterKey + 1 /\
  (forall j, 0 <= j < r - 1 -> msb longerKey j = msb shorterKey j) /\
  (r <= Len shorterKey -> msb longerKey (r - 1) <> msb shorterKey (r - 1)).
Proof.
  unfold Len. intros HS HL. revert d.
  induction fuel as [|fuel IH]; intros d Hd Hfuel Hpre; cbn zeta; simpl findDivergentBit.
  - split; [lia|]. split; [exact Hpre | lia].
  - unfold Len.
    destruct (Z.leb_spec d (length shorterKey)) as [Hle|Hgt]; simpl.
    + rewrite !u64_sub_small by (unfold U64.modulus in *; lia).
      replace (Test longerKey (length longerKey - d)) with (msb longerKey (d - 1))
        by (unfold msb; f_equal; lia).
      replace (Test shorterKey (length shorterKey - d)) with (msb shorterKey (d - 1))
        by (unfold msb; f_equal; lia).
      destruct (Bool.eqb (msb longerKey (d - 1)) (msb shorterKey (d - 1))) eqn:E.
      * apply eqb_prop in E.
        rewrite u64_add_small by (unfold U64.modulus in *; lia).
        destruct (IH (d + 1)) as (H1 & H2 & H3); [lia | lia | | ].
        { intros j Hj. destruct (Z.eq_dec j (d - 1)) as [->|]; [exact E|].
          apply Hpre. lia. }
        split; [lia|]. split; assumption.
      * split; [lia|]. split; [exact Hpre|].
        intros _ Heq. rewrite Heq, eqb_reflx in E. discriminate.
    + split; [lia|]. split; [exact Hpre | lia].
Qed.

(** The number of leading bits two keys share, as the loop computes it. *)
Definition commonLen (longerKey shorterKey : BitSet) : Z :=
  findDivergentBit (Z.to_nat (Len shorterKey + 1)) longerKey shorterKey 0 - 1.

Lemma commonLen_spec longerKey shorterKey :
  0 <= Len shorterKey <= Len longerKey ->
  Len longerKey < U64.modulus - 1 ->
  let c := commonLen longerKey shorterKey in
  0 <= c <= Len shorterKey /\
  (forall j, 0 <= j < c -> msb longerKey j = msb shorterKey j) /\
  (c < Len shorterKey -> msb longerKey c <> msb shorterKey c).
Proof.
  intros HS HL. unfold commonLen.
  replace (Z.to_nat (Len shorterKey + 1)) with (S (Z.to_nat (Len shorterKey))) by lia.
  cbn [findDivergentBit]. unfold Len in *.
  rewrite !u64_sub_small by (unfold U64.modulus in *; lia).
  rewrite !Z.sub_0_r, !Test_at_Len.
  destruct (Z.leb_spec 0 (length shorterKey)); [|lia]. simpl.
  rewrite u64_add_small by (unfold U64.modulus; lia). simpl.
  destruct (findDivergentBit_spec longerKey shorterKey
              (Z.to_nat (length shorterKey)) 1) as (H1 & H2 & H3);
    unfold Len; try lia.
  change (0 + 1) with 1. unfold Len in *.
  split; [lia|]. split.
  - intros j Hj. apply H2. lia.
  - intros Hc. apply H3. lia.
Qed.

Lemma FindCommonKey_value longerKey shorterKey :
  0 <= Len shorterKey <= Len longerKey ->
  Len longerKey < U64.modulus - 1 ->
  FindCommonKey longerKey shorterKey =
  ({| length := commonLen longerKey shorterKey;
      set := Z.shiftr (set shorterKey)
               (Len shorterKey - commonLen longerKey shorterKey) |},
   commonLen longerKey shorterKey =? Len shorterKey).
Proof.
  intros HS HL.
  destruct (commonLen_spec longerKey shorterKey HS HL) as (Hc & _).
  unfold FindCommonKey. fold (commonLen longerKey shorterKey + 1 - 1).
  unfold commonLen in *. unfold Len, Clone in *.
  set (d := findDivergentBit _ _ _ _) in *.
  rewrite u64_sub_add_cancel by (unfold U64.modulus in *; lia).
  rewrite (u64_add_small (length shorterKey) 1) by (unfold U64.modulus in *; lia).
  rewrite iter_DeleteAt_0 by (unfold U64.modulus in *; lia).
  rewrite Z2Nat.id by lia. f_equal.
  - f_equal; [lia | f_equal; lia].
  - destruct (Z.eqb_spec d (length shorterKey + 1)),
             (Z.eqb_spec (d - 1) (length shorterKey)); try reflexivity; lia.
Qed.

Lemma drop_top_bit x n :
  0 <= n ->
  Z.lor (Z.land (Z.land x (Z.ones (n + 1))) (Z.ones n))
        (Z.shiftl (Z.shiftr (Z.land x (Z.ones (n + 1))) (n + 1)) n) =
  x mod 2 ^ n.
Proof.
  intros Hn. apply Z.bits_inj'. intros i Hi.
  rewrite Z.lor_spec, !Z.land_spec, Z.shiftl_spec by lia.
  rewrite Z.testbit_mod_pow2 by lia.
  rewrite !Z.testbit_ones_nonneg by lia.
  destruct (Z.ltb_spec i n) as [Hlt|Hge].
  - rewrite (Z.testbit_neg_r _ (i - n)) by lia.
    destruct (Z.ltb_spec i (n + 1)); [|lia].
    rewrite orb_false_r, !andb_true_r. reflexivity.
  - rewrite Z.shiftr_spec, Z.land_spec by lia.
    rewrite Z.testbit_ones_nonneg by lia.
    destruct (Z.ltb_spec (i - n + (n + 1)) (n + 1)); [lia|].
    rewrite !andb_false_r. reflexivity.
Qed.

Lemma Path_value key parentKey :
  0 <= Len parentKey < Len key -> Len key < U64.modulus ->
  Path key (Some parentKey) =
  {| length := Len key - Len parentKey - 1;
     set := (set key) mod 2 ^ (Len key - Len parentKey - 1) |}.
Proof.
  unfold Path, Clone, Shrink, DeleteAt, Len. cbn [length set]. intros Hp Hk.
  rewrite (u64_sub_small (length key)) by lia.
  rewrite (u64_sub_small (length key - length parentKey) 1) by lia.
  rewrite u64_add_small by lia.
  rewrite (u64_sub_small _ 1) by lia.
  replace (length key - length parentKey - 1 + 1 - 1)
    with (length key - length parentKey - 1) by lia.
  f_equal. apply drop_top_bit. lia.
Qed.

End BitPathFacts.

(** ** Bit-path theorems *)

(** C5: for two bit-paths with [Len longerKey >= Len shorterKey],
    [FindCommonKey longerKey shorterKey] returns the longest common
    MSB-first prefix: its length is the number of leading bits on which the
    two paths agree (they agree below it and, if the shorter path goes on,
    differ right at it), its bits are those leading bits, and the flag is
    true exactly when the whole shorter path is a prefix of the longer one.
    On equal inputs the result is the shorter path itself and [true]. *)
Theorem FindCommonKey_longest_common_prefix (longerKey shorterKey : BitSet) :
  0 <= bitset.Len shorterKey <= bitset.Len longerKey ->
  bitset.Len longerKey < U64.modulus - 1 ->
  let commonKey := fst (FindCommonKey longerKey shorterKey) in
  let subset := snd (FindCommonKey longerKey shorterKey) in
  0 <= bitset.Len commonKey <= bitset.Len shorterKey /\
  (forall i, 0 <= i < bitset.Len commonKey ->
     bitset.msb longerKey i = bitset.msb shorterKey i) /\
  (bitset.Len commonKey < bitset.Len shorterKey ->
     bitset.msb longerKey (bitset.Len commonKey) <>
     bitset.msb shorterKey (bitset.Len commonKey)) /\
  (forall i, 0 <= i < bitset.Len commonKey ->
     bitset.msb commonKey i = bitset.msb shorterKey i) /\
  (subset = true <->
     forall i, 0 <= i < bitset.Len shorterKey ->
       bitset.msb longerKey i = bitset.msb shorterKey i) /\
  (longerKey = shorterKey -> commonKey = shorterKey /\ subset = true).
Proof.
  intros HS HL commonKey subset. subst commonKey subset.
  rewrite FindCommonKey_value by assumption. cbn [fst snd].
  destruct (commonLen_spec longerKey shorterKey HS HL) as (Hc & Hagree & Hdiff).
  set (c := commonLen longerKey shorterKey) in *.
  unfold bitset.Len in *. cbn [bitset.length].
  split; [exact Hc|]. split; [exact Hagree|]. split; [exact Hdiff|].
  assert (Hsub : (c =? bitset.length shorterKey) = true <->
                 forall i, 0 <= i < bitset.length shorterKey ->
                   bitset.msb longerKey i = bitset.msb shorterKey i).
  { rewrite Z.eqb_eq. split.
    - intros <-. exact Hagree.
    - intros Hall. destruct (Z.eq_dec c (bitset.length shorterKey)) as [|Hne];
        [assumption|].
      exfalso. apply Hdiff; [lia|]. apply Hall. lia. }
  split; [|split; [exact Hsub|]].
  - intros i Hi. rewrite !msb_testbit by lia. cbn [bitset.length bitset.set].
    rewrite Z.shiftr_spec by lia. f_equal. lia.
  - intros ->.
    assert (Hall : (c =? bitset.length shorterKey) = true)
      by (apply Hsub; reflexivity).
    split; [|exact Hall].
    apply Z.eqb_eq in Hall. rewrite Hall, Z.sub_diag, Z.shiftr_0_r.
    destruct shorterKey; reflexivity.
Qed.

Lemma FindCommonKey_longest_common_prefix_witness :
  let longerKey := bitset.mk 4 11 in
  let shorterKey := bitset.mk 3 4 in
  fst (FindCommonKey longerKey shorterKey) = bitset.mk 2 2 /\
  snd (FindCommonKey longerKey shorterKey) = false /\
  bitset.Len (fst (FindCommonKey longerKey shorterKey)) < bitset.Len shorterKey /\
  bitset.msb longerKey (bitset.Len (fst (FindCommonKey longerKey shorterKey))) <>
  bitset.msb shorterKey (bitset.Len (fst (FindCommonKey longerKey shorterKey))).
Proof.
  intros longerKey shorterKey.
  assert (H1 : 0 <= bitset.Len shorterKey <= bitset.Len longerKey)
    by (unfold bitset.Len; simpl; lia).
  assert (H2 : bitset.Len longerKey < U64.modulus - 1)
    by (unfold bitset.Len, U64.modulus; simpl; lia).
  pose proof (FindCommonKey_longest_common_prefix longerKey shorterKey H1 H2)
    as (_ & _ & Hdiff & _).
  split; [reflexivity|]. split; [reflexivity|].
  split; [vm_compute; reflexivity|].
  apply Hdiff. vm_compute. reflexivity.
Defined.

(** C6: for a key of bit-length [l] and a parent key of bit-length [p < l],
    [Path key parentKey] holds the bits of [key] at MSB-first positions
    [p+1 .. l-1], a path of length [l - p - 1]; with a nil parent (the
    root) it is the whole key. *)
Theorem Path_relative_suffix (key : BitSet) :
  (forall parentKey : BitSet,
     0 <= bitset.Len parentKey < bitset.Len key ->
     bitset.Len key < U64.modulus ->
     bitset.Len (Path key (Some parentKey)) =
       bitset.Len key - bitset.Len parentKey - 1 /\
     forall i, 0 <= i < bitset.Len key - bitset.Len parentKey - 1 ->
       bitset.msb (Path key (Some parentKey)) i =
       bitset.msb key (bitset.Len parentKey + 1 + i)) /\
  Path key None = key.
Proof.
  split; [|reflexivity].
  intros parentKey Hp Hk. rewrite Path_value by assumption.
  unfold bitset.Len in *. cbn [bitset.length]. split; [reflexivity|].
  intros i Hi. rewrite !msb_testbit by lia. cbn [bitset.length bitset.set].
  rewrite Z.mod_pow2_bits_low by lia. f_equal. lia.
Qed.

Lemma Path_relative_suffix_witness :
  Path (bitset.mk 4 11) (Some (bitset.mk 2 2)) = bitset.mk 1 1 /\
  bitset.Len (Path (bitset.mk 4 11) (Some (bitset.mk 2 2))) = 4 - 2 - 1.
Proof.
  split; [reflexivity|].
  apply (proj1 (Path_relative_suffix (bitset.mk 4 11)) (bitset.mk 2 2)).
  - unfold bitset.Len; simpl; lia.
  - unfold bitset.Len, U64.modulus; simpl; lia.
Defined.

(** ** The engine over an arbitrary store: errors and panics *)

Section EngineFacts.

Context {St : Type} `{Storage St}.
Variable Pedersen : Felt -> Felt -> Felt.
Variable Hash : Node -> BitSet -> Felt.

(** A method that never assigns [rootKey]. *)
Definition keeps_root {A} (m : M St A) : Prop :=
  forall t, trie.rootKey (snd (m t)) = trie.rootKey t.

(** A method that leaves [rootKey] alone whenever it returns an error. *)
Definition root_on_err {A} (m : M St A) : Prop :=
  forall t e, fst (m t) = Err e -> trie.rootKey (snd (m t)) = trie.rootKey t.

Lemma keeps_root_ret {A} (a : A) : keeps_root (ret (St:=St) a).
Proof. intros t. reflexivity. Qed.

Lemma keeps_root_bind {A B} (m : M St A) (f : A -> M St B) :
  keeps_root m -> (forall a, keeps_root (f a)) -> keeps_root (bind m f).
Proof.
  intros Hm Hf t. unfold bind. specialize (Hm t).
  destruct (m t) as [[a|e| |] t1]; simpl in *; try exact Hm.
  rewrite Hf. exact Hm.
Qed.

Lemma keeps_root_storagePut k n : keeps_root (storagePut k n).
Proof.
  intros t. unfold storagePut.
  destruct (storage_Put k n (trie.storage t)) as [[e|] s]; reflexivity.
Qed.

Lemma keeps_root_storageGet k : keeps_root (storageGet k).
Proof.
  intros t. unfold storageGet. destruct k as [k|]; [|reflexivity].
  destruct (storage_Get k (trie.storage t)) as [[e|n] s]; reflexivity.
Qed.

Lemma keeps_root_storageDelete k : keeps_root (storageDelete k).
Proof.
  intros t. unfold storageDelete.
  destruct (storage_Delete k (trie.storage t)) as [[e|] s]; reflexivity.
Qed.

Lemma keeps_root_propagateNode cur : keeps_root (propagateNode Pedersen Hash cur).
Proof.
  unfold propagateNode.
  destruct (node.left (storageNode.node cur)), (node.right (storageNode.node cur));
    try (intros t; reflexivity); [|apply keeps_root_storagePut].
  apply keeps_root_bind; [apply keeps_root_storageGet|]. intros l.
  apply keeps_root_bind; [apply keeps_root_storageGet|]. intros r.
  apply keeps_root_storagePut.
Qed.

Lemma keeps_root_propagateLoop revNodes :
  keeps_root (propagateLoop Pedersen Hash revNodes).
Proof.
  induction revNodes as [|cur rest IH]; simpl.
  - apply keeps_root_ret.
  - apply keeps_root_bind; [apply keeps_root_propagateNode|]. intros _. exact IH.
Qed.

Lemma keeps_root_propagateValues nodes :
  keeps_root (propagateValues Pedersen Hash nodes).
Proof. apply keeps_root_propagateLoop. Qed.

Lemma keeps_root_nodesFromRootLoop fuel key cur nodes :
  keeps_root (nodesFromRootLoop fuel key cur nodes).
Proof.
  revert cur nodes. induction fuel as [|fuel IH]; intros [cur|] nodes;
    simpl; try (intros t; reflexivity).
  apply keeps_root_bind; [apply keeps_root_storageGet|]. intros n.
  destruct (_ || _); [apply keeps_root_ret|].
  destruct (bitset.Test _ _); apply IH.
Qed.

Lemma keeps_root_nodesFromRoot fuel key : keeps_root (nodesFromRoot fuel key).
Proof. intros t. unfold nodesFromRoot. apply keeps_root_nodesFromRootLoop. Qed.

Lemma root_on_err_keeps {A} (m : M St A) : keeps_root m -> root_on_err m.
Proof. intros Hm t e _. apply Hm. Qed.

Lemma root_on_err_bind {A B} (m : M St A) (f : A -> M St B) :
  keeps_root m -> (forall a, root_on_err (f a)) -> root_on_err (bind m f).
Proof.
  intros Hm Hf t e. unfold bind. specialize (Hm t).
  destruct (m t) as [[a|e'| |] t1] eqn:E; simpl in *; try (intros _; exact Hm).
  intros He. rewrite (Hf a t1 e He). exact Hm.
Qed.

Lemma root_on_err_setRootKey k : root_on_err (setRootKey (St:=St) k).
Proof. intros t e He. discriminate He. Qed.

Lemma root_on_err_panic {A} : root_on_err (panic (St:=St) (A:=A)).
Proof. intros t e He. discriminate He. Qed.

Lemma root_on_err_deleteLast nodes :
  root_on_err (deleteLast Pedersen Hash nodes).
Proof.
  unfold deleteLast. destruct (rev nodes) as [|last [|parent [|grandParent revTop]]].
  - apply root_on_err_panic.
  - apply root_on_err_bind; [apply keeps_root_storageDelete|]. intros _.
    apply root_on_err_setRootKey.
  - apply root_on_err_bind; [apply keeps_root_storageDelete|]. intros _.
    apply root_on_err_bind; [apply keeps_root_storageDelete|]. intros _.
    apply root_on_err_setRootKey.
  - apply root_on_err_bind; [apply keeps_root_storageDelete|]. intros _.
    apply root_on_err_bind; [apply keeps_root_storageDelete|]. intros _.
    apply root_on_err_bind; [apply keeps_root_storageGet|]. intros sibling.
    destruct (if bitset.EqualPtr _ _ then _ else _) as [siblingKey|].
    + apply root_on_err_keeps, keeps_root_propagateValues.
    + apply root_on_err_panic.
Qed.

Lemma root_on_err_Put fuel key value :
  root_on_err (Put Pedersen Hash fuel key value).
Proof.
  intros t e. remember (trie.rootKey t) as r0 eqn:Hr0.
  unfold Put. destruct (trie.rootKey t) as [rootKey|] eqn:Hroot.
  - replace r0 with (trie.rootKey t) by congruence.
    refine (root_on_err_bind _ _ _ _ t e); [apply keeps_root_nodesFromRoot|].
    intros nodes.
    destruct (rev nodes) as [|sibling revInit]; [apply root_on_err_panic|].
    destruct (bitset.Equal _ _).
    + destruct (IsZero value);
        [apply root_on_err_deleteLast
        |apply root_on_err_keeps, keeps_root_propagateValues].
    + destruct (IsZero value); [apply root_on_err_keeps, keeps_root_ret|].
      destruct revInit as [|siblingParent revTop].
      * apply root_on_err_bind; [apply keeps_root_propagateValues|]. intros _.
        apply root_on_err_setRootKey.
      * apply root_on_err_keeps, keeps_root_propagateValues.
  - destruct (IsZero value); [intros He; discriminate He|].
    replace r0 with (trie.rootKey t) by congruence.
    refine (root_on_err_bind _ _ _ _ t e); [apply keeps_root_propagateValues|].
    intros _. apply root_on_err_setRootKey.
Qed.

End EngineFacts.

(** C9: whenever [Put] returns an error, whichever storage call it comes
    from (descent, propagation or deletion), the trie's [rootKey] is the one
    it had at entry. *)
Theorem Put_error_keeps_rootKey {St : Type} `{Storage St}
    (Pedersen : Felt -> Felt -> Felt) (Hash : Node -> BitSet -> Felt)
    (fuel : nat) (key value : Felt) (t : Trie St) (e : error) :
  fst (Put Pedersen Hash fuel key value t) = Err e ->
  trie.rootKey (snd (Put Pedersen Hash fuel key value t)) = trie.rootKey t.
Proof. apply root_on_err_Put. Qed.

(** Two leaves under a parent, then a zero write whose second delete
    fails: the leaf is gone from the store, [rootKey] is untouched. *)
Lemma Put_error_keeps_rootKey_witness :
  let t0 := NewTrie (faultstore.mk memstore.empty 100) 3 None in
  let t1 := snd (PutAll examplePedersen exampleHash 4 [(5, 7); (4, 9)] t0) in
  let t2 := trie.set_storage (faultstore.mk (faultstore.inner (trie.storage t1)) 3) t1 in
  fst (Put examplePedersen exampleHash 4 4 0 t2) = Err (ErrStorage 1) /\
  trie.rootKey (snd (Put examplePedersen exampleHash 4 4 0 t2)) = trie.rootKey t2.
Proof.
  intros t0 t1 t2.
  assert (He : fst (Put examplePedersen exampleHash 4 4 0 t2) = Err (ErrStorage 1))
    by (vm_compute; reflexivity).
  split; [exact He|].
  exact (Put_error_keeps_rootKey examplePedersen exampleHash 4 4 0 t2 _ He).
Defined.

(** ** The panic branch of [propagateValues] *)

Lemma balanced_leaf v : node.balanced (node.mk v None None).
Proof. unfold node.balanced. simpl. tauto. Qed.

Lemma balanced_both v l r : node.balanced (node.mk v (Some l) (Some r)).
Proof. unfold node.balanced. simpl. split; discriminate. Qed.


(** ** [Put] after its descent *)

Section PutSteps.

Context {St : Type} `{Storage St}.
Variable Pedersen : Felt -> Felt -> Felt.
Variable Hash : Node -> BitSet -> Felt.

(** What [Put] does with the spine [nodes] its descent returned. *)
Definition PutOn (nodeKey : BitSet) (value : Felt) (nodes : list storageNode)
    : M St unit :=
  let node := node.mk value None None in
  match rev nodes with
  | [] => panic
  | sibling :: revInit =>
      if bitset.Equal nodeKey (storageNode.key sibling) then
        let nodes := rev revInit ++ [storageNode.mk (storageNode.key sibling) node] in
        if IsZero value then deleteLast Pedersen Hash nodes
        else propagateValues Pedersen Hash nodes
      else if IsZero value then ret tt
      else
        let commonKey := fst (FindCommonKey nodeKey (storageNode.key sibling)) in
        let newParent :=
          if bitset.Test nodeKey
               (U64.sub (U64.sub (bitset.Len nodeKey) (bitset.Len commonKey)) 1)
          then node.mk 0 (Some (storageNode.key sibling)) (Some nodeKey)
          else node.mk 0 (Some nodeKey) (Some (storageNode.key sibling)) in
        match revInit with
        | [] =>
            propagateValues Pedersen Hash
              [storageNode.mk commonKey newParent; storageNode.mk nodeKey node] ;;;
            setRootKey (Some commonKey)
        | siblingParent :: revTop =>
            let siblingParent :=
              if bitset.EqualPtr (node.left (storageNode.node siblingParent))
                   (Some (storageNode.key sibling))
              then storageNode.mk (storageNode.key siblingParent)
                     (node.set_left (Some commonKey) (storageNode.node siblingParent))
              else storageNode.mk (storageNode.key siblingParent)
                     (node.set_right (Some commonKey) (storageNode.node siblingParent)) in
            propagateValues Pedersen Hash
              (rev revTop ++
               [siblingParent; storageNode.mk commonKey newParent;
                storageNode.mk nodeKey node])
        end
  end.

Lemma Put_nonempty fuel key value (t : Trie St) r :
  trie.rootKey t = Some r ->
  Put Pedersen Hash fuel key value t =
  bind (nodesFromRootLoop fuel (FeltToBitSet t key) (Some r) [])
       (PutOn (FeltToBitSet t key) value) t.
Proof.
  intros Hr. unfold Put. rewrite Hr. unfold bind, nodesFromRoot. rewrite Hr.
  reflexivity.
Qed.

Lemma Put_empty fuel key value (t : Trie St) :
  trie.rootKey t = None ->
  Put Pedersen Hash fuel key value t =
  if IsZero value then (Ok tt, t)
  else (propagateValues Pedersen Hash
          [storageNode.mk (FeltToBitSet t key) (node.mk value None None)] ;;;
        setRootKey (Some (FeltToBitSet t key))) t.
Proof. intros Hr. unfold Put. rewrite Hr. reflexivity. Qed.

End PutSteps.

(** ** Running the engine on the in-memory store *)

Section MemRun.

Variable Pedersen : Felt -> Felt -> Felt.
Variable Hash : Node -> BitSet -> Felt.

(** A trie over the in-memory store, by its four components. *)
Definition mkT (h : Z) (r : option BitSet) (m : gmap BitSet Node)
    (l : list memstore.event) : Trie memstore.t :=
  trie.mk h r (memstore.mk m l).

Lemma mkT_eta (t : Trie memstore.t) :
  t = mkT (trie.height t) (trie.rootKey t)
        (memstore.mem (trie.storage t)) (memstore.log (trie.storage t)).
Proof. destruct t as [h r [m l]]. reflexivity. Qed.

Lemma run_storageGet h r m l k :
  storageGet (Some k) (mkT h r m l) =
  (match m !! k with Some n => Ok n | None => Err ErrKeyNotFound end,
   mkT h r m (l ++ [memstore.EvGet k])).
Proof.
  unfold storageGet, mkT. simpl. unfold memstore.Get. simpl.
  destruct (m !! k); reflexivity.
Qed.

Lemma run_storagePut h r m l k n :
  storagePut k n (mkT h r m l) =
  (Ok tt, mkT h r (<[k := n]> m) (l ++ [memstore.EvPut k n])).
Proof. reflexivity. Qed.

Lemma run_storageDelete h r m l k :
  storageDelete k (mkT h r m l) =
  (Ok tt, mkT h r (delete k m) (l ++ [memstore.EvDelete k])).
Proof. reflexivity. Qed.

Lemma run_bind_Ok {A B} (m : M memstore.t A) (f : A -> M memstore.t B) t a t1 :
  m t = (Ok a, t1) -> bind m f t = f a t1.
Proof. intros E. unfold bind. rewrite E. reflexivity. Qed.

Lemma run_bind_Err {A B} (m : M memstore.t A) (f : A -> M memstore.t B) t e t1 :
  m t = (Err e, t1) -> bind m f t = (Err e, t1).
Proof. intros E. unfold bind. rewrite E. reflexivity. Qed.

Lemma run_propagateLeaf h r m l k v :
  propagateNode Pedersen Hash (storageNode.mk k (node.mk v None None)) (mkT h r m l) =
  (Ok tt, mkT h r (<[k := node.mk v None None]> m)
            (l ++ [memstore.EvPut k (node.mk v None None)])).
Proof. reflexivity. Qed.

(** Writing a leaf into an empty trie. *)
Lemma run_Put_empty h m l key value :
  value <> 0 ->
  Put Pedersen Hash 0 key value (mkT h None m l) =
  (Ok tt, mkT h (Some (bitset.mk h key))
            (<[bitset.mk h key := node.mk value None None]> m)
            (l ++ [memstore.EvPut (bitset.mk h key) (node.mk value None None)])).
Proof.
  intros Hv. unfold Put. cbn [trie.rootKey mkT].
  unfold IsZero. destruct (Z.eqb_spec value 0) as [|_]; [contradiction|].
  reflexivity.
Qed.

Lemma Put_fuel_empty fuel key value (t : Trie memstore.t) :
  trie.rootKey t = None ->
  Put Pedersen Hash fuel key value t = Put Pedersen Hash 0 key value t.
Proof. intros Hr. unfold Put. rewrite Hr. reflexivity. Qed.

End MemRun.

(** The heights covered: a key is built from the four 64-bit words of a
    field element, so a bit set of length up to 256 has all its bits. *)
Definition height_ok (h : Z) : Prop := 0 <= h <= 256.

Lemma height_ok_uint h : height_ok h -> 0 <= h /\ h < U64.modulus - 1.
Proof. unfold height_ok, U64.modulus. lia. Qed.

(** C2: from an empty trie of a height that a key covers, [Put k v] with
    a non-zero [v] followed by [Put k 0] leaves the trie empty again: both
    calls return nil, [rootKey] is nil, [Root] returns the zero felt and the
    store holds no node. *)
Theorem Put_then_zero_empties (Pedersen : Felt -> Felt -> Felt)
    (Hash : Node -> BitSet -> Felt) (height : Z) (fuel : nat) (key value : Felt) :
  height_ok height -> value <> 0 ->
  let t0 := NewTrie memstore.empty height None in
  let r1 := Put Pedersen Hash (S fuel) key value t0 in
  let r2 := Put Pedersen Hash (S fuel) key 0 (snd r1) in
  fst r1 = Ok tt /\ fst r2 = Ok tt /\
  trie.rootKey (snd r2) = None /\
  fst (Root Hash (snd r2)) = Ok 0 /\
  memstore.mem (trie.storage (snd r2)) = ∅.
Proof.
  intros _ Hv t0 r1 r2. subst r2 r1 t0.
  change (NewTrie memstore.empty height None) with (mkT height None ∅ []).
  rewrite Put_fuel_empty by reflexivity.
  rewrite run_Put_empty by exact Hv. cbn [fst snd].
  split; [reflexivity|].
  set (nk := bitset.mk height key). set (leaf := node.mk value None None).
  assert (E : Put Pedersen Hash (S fuel) key 0
                (mkT height (Some nk) (<[nk := leaf]> ∅) ([] ++ [memstore.EvPut nk leaf])) =
              (Ok tt, mkT height None ∅
                        (([] ++ [memstore.EvPut nk leaf]) ++
                         [memstore.EvGet nk] ++ [memstore.EvDelete nk]))).
  { rewrite (Put_nonempty _ _ _ _ _ _ nk) by reflexivity.
    change (FeltToBitSet _ key) with nk.
    erewrite run_bind_Ok; cycle 1.
    { cbn [nodesFromRootLoop]. erewrite run_bind_Ok; cycle 1.
      { rewrite run_storageGet, lookup_insert_eq. reflexivity. }
      rewrite Z.leb_refl. reflexivity. }
    unfold PutOn. cbn [rev app storageNode.key]. rewrite bitset_Equal_refl.
    unfold IsZero. cbn [Z.eqb]. unfold deleteLast. cbn [rev app storageNode.key].
    erewrite run_bind_Ok; cycle 1.
    { apply run_storageDelete. }
    unfold setRootKey, trie.set_rootKey, mkT. cbn.
    rewrite delete_insert_eq, delete_empty. reflexivity. }
  rewrite E. cbn [fst snd]. repeat split; reflexivity.
Qed.

Lemma Put_then_zero_empties_witness :
  let t0 := NewTrie memstore.empty 3 None in
  let r1 := Put examplePedersen exampleHash 1 5 7 t0 in
  let r2 := Put examplePedersen exampleHash 1 5 0 (snd r1) in
  trie.rootKey (snd r1) = Some (bitset.mk 3 5) /\
  (fst r1 = Ok tt /\ fst r2 = Ok tt /\
   trie.rootKey (snd r2) = None /\
   fst (Root exampleHash (snd r2)) = Ok 0 /\
   memstore.mem (trie.storage (snd r2)) = ∅).
Proof.
  split; [reflexivity|].
  apply (Put_then_zero_empties examplePedersen exampleHash 3 0 5 7);
    [unfold height_ok; lia | lia].
Defined.

(** ** The order of the store calls of one [Put] *)

(** The calls a method makes on the store when run from [t]. *)
Definition callEvents {A} (m : M memstore.t A) (t : Trie memstore.t)
    : list memstore.event :=
  drop (length (memstore.log (trie.storage t)))
       (memstore.log (trie.storage (snd (m t)))).

(** No read comes after a write or a delete. *)
Fixpoint reads_before_writes (evs : list memstore.event) : bool :=
  match evs with
  | [] => true
  | e :: evs' =>
      if memstore.is_read e then reads_before_writes evs'
      else forallb (fun e' => negb (memstore.is_read e')) evs'
  end.

(** The first call, if there is one, is a write or a delete. *)
Definition write_first (evs : list memstore.event) : Prop :=
  match evs with
  | [] => True
  | e :: _ => memstore.is_read e = false
  end.

Section CallOrder.

Variable Pedersen : Felt -> Felt -> Felt.
Variable Hash : Node -> BitSet -> Felt.

(** Running [m] appends calls satisfying [P] to the log. *)
Definition emitting {A} (P : list memstore.event -> Prop) (m : M memstore.t A) : Prop :=
  forall t, exists evs,
    memstore.log (trie.storage (snd (m t))) = memstore.log (trie.storage t) ++ evs /\
    P evs.

Definition mono {A} (m : M memstore.t A) : Prop := emitting (fun _ => True) m.

Lemma emitting_mono {A} P (m : M memstore.t A) : emitting P m -> mono m.
Proof. intros Hm t. destruct (Hm t) as (evs & E & _). exists evs. split; done. Qed.

Lemma callEvents_eq {A} (m : M memstore.t A) t evs :
  memstore.log (trie.storage (snd (m t))) = memstore.log (trie.storage t) ++ evs ->
  callEvents m t = evs.
Proof. intros E. unfold callEvents. rewrite E. apply drop_app_length. Qed.

Lemma emitting_ret {A} (P : list memstore.event -> Prop) (a : A) :
  P [] -> emitting P (ret a).
Proof. intros HP t. exists []. simpl. rewrite app_nil_r. split; done. Qed.

Lemma emitting_bind {A B} (P1 P2 Q : list memstore.event -> Prop)
    (m : M memstore.t A) (f : A -> M memstore.t B) :
  emitting P1 m -> (forall a, emitting P2 (f a)) ->
  (forall e1, P1 e1 -> Q e1) ->
  (forall e1 e2, P1 e1 -> P2 e2 -> Q (e1 ++ e2)) ->
  emitting Q (bind m f).
Proof.
  intros Hm Hf Q1 Q2 t. unfold bind. destruct (Hm t) as (e1 & E1 & H1).
  destruct (m t) as [[a|e| |] t1]; simpl in *;
    try (exists e1; split; [exact E1 | apply Q1, H1]).
  destruct (Hf a t1) as (e2 & E2 & H2). exists (e1 ++ e2). split.
  - rewrite E2, E1, app_assoc. reflexivity.
  - apply Q2; assumption.
Qed.

Lemma mono_bind {A B} (m : M memstore.t A) (f : A -> M memstore.t B) :
  mono m -> (forall a, mono (f a)) -> mono (bind m f).
Proof. intros Hm Hf. eapply emitting_bind; eauto. Qed.

Lemma emitting_storageGet k :
  emitting (fun evs => forallb memstore.is_read evs = true) (storageGet k).
Proof.
  intros t. destruct k as [k|].
  - rewrite (mkT_eta t), run_storageGet. exists [memstore.EvGet k].
    split; reflexivity.
  - exists []. simpl. rewrite app_nil_r. split; reflexivity.
Qed.

Lemma emitting_storagePut k n : emitting (fun evs => evs = [memstore.EvPut k n]) (storagePut k n).
Proof. intros t. exists [memstore.EvPut k n]. split; reflexivity. Qed.

Lemma emitting_storageDelete k : emitting (fun evs => evs = [memstore.EvDelete k]) (storageDelete k).
Proof. intros t. exists [memstore.EvDelete k]. split; reflexivity. Qed.

Lemma mono_setRootKey k : mono (setRootKey (St:=memstore.t) k).
Proof. intros t. exists []. simpl. rewrite app_nil_r. split; done. Qed.

Lemma mono_panic {A} : mono (panic (St:=memstore.t) (A:=A)).
Proof. intros t. exists []. simpl. rewrite app_nil_r. split; done. Qed.

Lemma mono_propagateNode cur : mono (propagateNode Pedersen Hash cur).
Proof.
  unfold propagateNode.
  destruct (node.left (storageNode.node cur)), (node.right (storageNode.node cur));
    try apply mono_panic; [|eapply emitting_mono, emitting_storagePut].
  apply mono_bind; [eapply emitting_mono, emitting_storageGet|]. intros l.
  apply mono_bind; [eapply emitting_mono, emitting_storageGet|]. intros r.
  eapply emitting_mono, emitting_storagePut.
Qed.

Lemma mono_propagateLoop revNodes : mono (propagateLoop Pedersen Hash revNodes).
Proof.
  induction revNodes as [|cur rest IH]; simpl.
  - apply emitting_ret. done.
  - apply mono_bind; [apply mono_propagateNode | intros _; exact IH].
Qed.

(** A call list that starts with a write or a delete. *)
Definition begins_with_write (evs : list memstore.event) : Prop :=
  exists e rest, evs = e :: rest /\ memstore.is_read e = false.

Lemma begins_with_write_first evs : begins_with_write evs -> write_first evs.
Proof. intros (e & rest & -> & He). exact He. Qed.

Lemma begins_with_write_app evs rest :
  begins_with_write evs -> begins_with_write (evs ++ rest).
Proof. intros (e & r & -> & He). exists e, (r ++ rest). split; done. Qed.

Lemma emitting_weaken {A} (P Q : list memstore.event -> Prop) (m : M memstore.t A) :
  emitting P m -> (forall evs, P evs -> Q evs) -> emitting Q m.
Proof.
  intros Hm HPQ t. destruct (Hm t) as (evs & E & HP). exists evs.
  split; [exact E | apply HPQ, HP].
Qed.

(** A spine that ends in a leaf is propagated by writing first. *)
Lemma write_first_propagateValues nodes k v :
  emitting begins_with_write
    (propagateValues Pedersen Hash (nodes ++ [storageNode.mk k (node.mk v None None)])).
Proof.
  unfold propagateValues. rewrite rev_unit. cbn [propagateLoop].
  eapply emitting_bind with (P1 := fun evs => evs = [_]) (P2 := fun _ => True).
  - apply (emitting_storagePut k (node.mk v None None)).
  - intros _. apply mono_propagateLoop.
  - intros e1 ->. eexists _, _. split; reflexivity.
  - intros e1 e2 -> _. eexists _, _. split; reflexivity.
Qed.

Lemma write_first_deleteLast nodes last :
  emitting begins_with_write (deleteLast Pedersen Hash (nodes ++ [last])).
Proof.
  unfold deleteLast. rewrite rev_unit.
  eapply emitting_bind with (P1 := fun evs => evs = [_]) (P2 := fun _ => True).
  - apply emitting_storageDelete.
  - intros _. destruct (rev nodes) as [|parent [|grandParent revTop]].
    + apply mono_setRootKey.
    + apply mono_bind; [eapply emitting_mono, emitting_storageDelete|].
      intros _. apply mono_setRootKey.
    + apply mono_bind; [eapply emitting_mono, emitting_storageDelete|]. intros _.
      apply mono_bind; [eapply emitting_mono, emitting_storageGet|]. intros sibling.
      destruct (if bitset.EqualPtr _ _ then _ else _);
        [apply mono_propagateLoop | apply mono_panic].
  - intros e1 ->. eexists _, _. split; reflexivity.
  - intros e1 e2 -> _. eexists _, _. split; reflexivity.
Qed.

Lemma write_first_PutOn nodeKey value nodes :
  emitting write_first (PutOn Pedersen Hash nodeKey value nodes).
Proof.
  unfold PutOn. destruct (rev nodes) as [|sibling revInit].
  { intros t. exists []. simpl. rewrite app_nil_r. split; [reflexivity | exact I]. }
  destruct (bitset.Equal _ _).
  - destruct (IsZero value); eapply emitting_weaken;
      try apply begins_with_write_first;
      [apply write_first_deleteLast | apply write_first_propagateValues].
  - destruct (IsZero value); [apply emitting_ret; exact I|].
    destruct revInit as [|siblingParent revTop].
    + eapply emitting_bind with (P2 := fun _ => True).
      * apply (write_first_propagateValues [_]).
      * intros _. apply mono_setRootKey.
      * intros e1 H1. apply begins_with_write_first, H1.
      * intros e1 e2 H1 _. apply begins_with_write_first, begins_with_write_app, H1.
    + eapply emitting_weaken; [|apply begins_with_write_first].
      match goal with
      | |- emitting _ (propagateValues _ _ (?l ++ [?a; ?b; ?c])) =>
          replace (l ++ [a; b; c]) with ((l ++ [a; b]) ++ [c])
            by (rewrite <- app_assoc; reflexivity)
      end.
      apply write_first_propagateValues.
Qed.

End CallOrder.

Lemma reads_only_nodesFromRootLoop fuel key cur nodes :
  emitting (fun evs => forallb memstore.is_read evs = true)
           (nodesFromRootLoop fuel key cur nodes).
Proof.
  revert cur nodes. induction fuel as [|fuel IH]; intros [cur|] nodes;
    cbn [nodesFromRootLoop]; try (apply emitting_ret; reflexivity).
  - intros t. exists []. simpl. rewrite app_nil_r. split; reflexivity.
  - eapply emitting_bind with
      (P1 := fun evs => forallb memstore.is_read evs = true)
      (P2 := fun evs => forallb memstore.is_read evs = true).
    + apply emitting_storageGet.
    + intros n. destruct (_ || _); [apply emitting_ret; reflexivity|].
      destruct (bitset.Test _ _); apply IH.
    + intros e1 H1. exact H1.
    + intros e1 e2 H1 H2. rewrite forallb_app, H1, H2. reflexivity.
Qed.

(** C4, as the code has it: the store calls of one [Put] are those of the
    descent followed by the rest of the call; the descent only reads, so
    each of its reads comes before every write or delete of the call, and
    the rest is empty or starts with a write or a delete. *)
Theorem Put_descent_reads_first (Pedersen : Felt -> Felt -> Felt)
    (Hash : Node -> BitSet -> Felt) (fuel : nat) (key value : Felt)
    (t : Trie memstore.t) :
  let descent := callEvents (nodesFromRoot fuel (FeltToBitSet t key)) t in
  exists rest,
    callEvents (Put Pedersen Hash fuel key value) t = descent ++ rest /\
    forallb memstore.is_read descent = true /\
    write_first rest.
Proof.
  intros descent. subst descent.
  destruct (trie.rootKey t) as [r|] eqn:Hr.
  - assert (Hd : nodesFromRoot fuel (FeltToBitSet t key) t =
                 nodesFromRootLoop fuel (FeltToBitSet t key) (Some r) [] t)
      by (unfold nodesFromRoot; rewrite Hr; reflexivity).
    destruct (reads_only_nodesFromRootLoop fuel (FeltToBitSet t key) (Some r) [] t)
      as (e1 & E1 & H1).
    rewrite (callEvents_eq (nodesFromRoot fuel (FeltToBitSet t key)) t e1)
      by (rewrite Hd; exact E1).
    unfold callEvents at 1. rewrite (Put_nonempty _ _ _ _ _ _ r Hr). unfold bind.
    destruct (nodesFromRootLoop fuel (FeltToBitSet t key) (Some r) [] t)
      as [[nodes|e| |] t1]; simpl in E1;
      try (exists []; simpl; rewrite E1, drop_app_length, app_nil_r;
           split; [reflexivity | split; [exact H1 | exact I]]).
    destruct (write_first_PutOn Pedersen Hash (FeltToBitSet t key) value nodes t1)
      as (e2 & E2 & H2).
    exists e2. rewrite E2, E1, <- app_assoc, drop_app_length.
    split; [reflexivity | split; [exact H1 | exact H2]].
  - assert (Hd : callEvents (nodesFromRoot fuel (FeltToBitSet t key)) t = []).
    { apply callEvents_eq. unfold nodesFromRoot. rewrite Hr.
      destruct fuel; simpl; rewrite app_nil_r; reflexivity. }
    rewrite Hd. cbn [app forallb].
    unfold callEvents. rewrite (Put_empty _ _ _ _ _ _ Hr).
    destruct (IsZero value).
    + exists []. simpl. rewrite drop_all. split; [reflexivity | split; [reflexivity | exact I]].
    + pose proof (write_first_propagateValues Pedersen Hash []
                    (FeltToBitSet t key) value t) as (e2 & E2 & H2).
      exists e2. split; [|split; [reflexivity | apply begins_with_write_first, H2]].
      unfold bind. cbn [app] in E2.
      destruct (propagateValues _ _ _ t) as [[[]|e| |] t1]; simpl in *;
        rewrite E2, drop_app_length; reflexivity.
Qed.

(** C4 as stated fails: the second [Put] into a trie reads the root during
    its descent, writes the new leaf, and only then reads the two children
    of the new parent to hash them. *)
Lemma Put_reads_after_write_counterexample :
  let t1 := snd (Put examplePedersen exampleHash 4 5 7 (NewTrie memstore.empty 3 None)) in
  map memstore.is_read (callEvents (Put examplePedersen exampleHash 4 4 9) t1) =
    [true; false; true; true; false] /\
  reads_before_writes (callEvents (Put examplePedersen exampleHash 4 4 9) t1) = false.
Proof. split; vm_compute; reflexivity. Qed.

(** ** Keys as bit-paths: the prefix order *)

Section KeyPrefix.

Import bitset.

(** A key with no bit at or above its length. *)
Definition canon (b : BitSet) : Prop :=
  0 <= length b /\ 0 <= set b < 2 ^ length b.

(** [a] is the path made of the first [length a] bits of [b]. *)
Definition key_prefix (a b : BitSet) : Prop :=
  length a <= length b /\ Z.shiftr (set b) (length b - length a) = set a.

Definition key_prefixb (a b : BitSet) : bool :=
  (length a <=? length b) && (Z.shiftr (set b) (length b - length a) =? set a).

(** The path [k] followed by one more bit. *)
Definition ext (k : BitSet) (b : bool) : BitSet :=
  {| length := length k + 1; set := 2 * set k + Z.b2z b |}.

Lemma key_prefixb_spec a b : key_prefixb a b = true <-> key_prefix a b.
Proof.
  unfold key_prefixb, key_prefix. rewrite andb_true_iff, Z.leb_le, Z.eqb_eq.
  reflexivity.
Qed.

Lemma key_prefixb_false a b : key_prefixb a b = false <-> ~ key_prefix a b.
Proof.
  rewrite <- key_prefixb_spec. destruct (key_prefixb a b); split; congruence.
Qed.

Lemma key_prefix_refl a : key_prefix a a.
Proof. split; [lia|]. rewrite Z.sub_diag. apply Z.shiftr_0_r. Qed.

Lemma key_prefix_trans a b c : key_prefix a b -> key_prefix b c -> key_prefix a c.
Proof.
  intros [Hab Eab] [Hbc Ebc]. split; [lia|].
  rewrite <- Eab, <- Ebc, Z.shiftr_shiftr by lia. f_equal. lia.
Qed.

Lemma key_prefix_same_length a b :
  key_prefix a b -> length a = length b -> a = b.
Proof.
  intros [_ E] Hl. rewrite Hl, Z.sub_diag, Z.shiftr_0_r in E.
  destruct a, b; simpl in *; congruence.
Qed.

(** Two prefixes of one key are comparable. *)
Lemma key_prefix_comparable a b c :
  key_prefix a c -> key_prefix b c -> length a <= length b -> key_prefix a b.
Proof.
  intros [Hac Eac] [Hbc Ebc] Hab. split; [exact Hab|].
  rewrite <- Ebc, <- Eac, Z.shiftr_shiftr by lia. f_equal. lia.
Qed.

Lemma key_prefix_ext k b : key_prefix k (ext k b).
Proof.
  split; simpl; [lia|].
  replace (length k + 1 - length k) with 1 by lia.
  rewrite Z.shiftr_div_pow2 by lia. change (2 ^ 1) with 2.
  rewrite Z.add_comm, Z.mul_comm, Z.div_add by lia.
  destruct b; reflexivity.
Qed.

Lemma key_prefix_of_ext k b c : key_prefix (ext k b) c -> key_prefix k c.
Proof. apply key_prefix_trans, key_prefix_ext. Qed.

Lemma key_prefix_ext_length k b c : key_prefix (ext k b) c -> length k < length c.
Proof. intros [Hl _]. simpl in Hl. lia. Qed.

Lemma ext_bit_inj k b b' : ext k b = ext k b' -> b = b'.
Proof.
  unfold ext. intros [= E]. destruct b, b'; simpl in E; try reflexivity; lia.
Qed.

(** The two extensions of a path have no common extension. *)
Lemma ext_disjoint k b c :
  key_prefix (ext k b) c -> key_prefix (ext k (negb b)) c -> False.
Proof.
  intros H1 H2.
  assert (E : ext k b = ext k (negb b)).
  { apply key_prefix_same_length; [|reflexivity].
    eapply key_prefix_comparable; [exact H1 | exact H2 | simpl; lia]. }
  apply ext_bit_inj in E. destruct b; discriminate.
Qed.

Lemma shiftr_step x n :
  0 <= n -> Z.shiftr x n = 2 * Z.shiftr x (n + 1) + Z.b2z (Z.testbit x n).
Proof.
  intros Hn. rewrite <- (Z.shiftr_shiftr x n 1) by lia.
  rewrite Z.testbit_odd. rewrite (Z.shiftr_div_pow2 _ 1) by lia.
  change (2 ^ 1) with 2. generalize (Z.shiftr x n). intros y.
  rewrite (Z.div_mod y 2) at 1 by lia. rewrite Zmod_odd.
  destruct (Z.odd y); simpl; lia.
Qed.

(** The bit of [c] at MSB-first position [i]. *)
Definition bit_at (c : BitSet) (i : Z) : bool :=
  Z.testbit (set c) (length c - i - 1).

(** A proper prefix extends by the next bit of the key. *)
Lemma key_prefix_step k c :
  key_prefix k c -> length k < length c ->
  key_prefix (ext k (bit_at c (length k))) c.
Proof.
  intros [Hl E] Hlt. split; simpl; [lia|].
  unfold bit_at. rewrite <- E.
  replace (length c - (length k + 1)) with (length c - length k - 1) by lia.
  rewrite (shiftr_step (set c) (length c - length k - 1)) by lia.
  do 3 f_equal. lia.
Qed.

Lemma key_prefix_ext_bit k b c :
  key_prefix (ext k b) c -> bit_at c (length k) = b.
Proof.
  intros H1.
  pose proof (key_prefix_step k c (key_prefix_of_ext _ _ _ H1)
                (key_prefix_ext_length _ _ _ H1)) as H2.
  destruct (Bool.bool_dec (bit_at c (length k)) b) as [|Hne]; [assumption|].
  exfalso. apply (ext_disjoint k b c H1).
  replace (negb b) with (bit_at c (length k)); [exact H2|].
  destruct (bit_at c (length k)), b; simpl; congruence.
Qed.

Lemma canon_prefix a b : 0 <= length a -> key_prefix a b -> canon b -> canon a.
Proof.
  intros Ha [Hl E] [Hb Hs]. split; [exact Ha|]. rewrite <- E.
  rewrite Z.shiftr_div_pow2 by lia. split.
  - apply Z.div_pos; [lia | apply Z.pow_pos_nonneg; lia].
  - apply Z.div_lt_upper_bound; [apply Z.pow_pos_nonneg; lia|].
    rewrite <- Z.pow_add_r by lia.
    replace (length b - length a + length a) with (length b) by lia. lia.
Qed.

Lemma canon_ext k b : canon k -> canon (ext k b).
Proof.
  intros [Hl Hs]. split; simpl; [lia|].
  rewrite Z.pow_add_r by lia. change (2 ^ 1) with 2.
  destruct b; simpl; lia.
Qed.

Lemma testbit_above x n j :
  0 <= x < 2 ^ n -> 0 <= n <= j -> Z.testbit x j = false.
Proof.
  intros Hx Hj. destruct (Z.eq_dec x 0) as [->|Hne]; [apply Z.bits_0|].
  apply Z.bits_above_log2; [lia|].
  apply Z.lt_le_trans with n; [|lia]. apply Z.log2_lt_pow2; lia.
Qed.

(** Agreement on the leading bits, read bit by bit as [FindCommonKey]
    does, is the prefix order. *)
Lemma key_prefix_bits a b :
  canon a -> canon b -> length a <= length b ->
  (forall i, 0 <= i < length a -> msb b i = msb a i) <-> key_prefix a b.
Proof.
  intros [Ha Hsa] [Hb Hsb] Hl. split.
  - intros Hbits. split; [exact Hl|]. apply Z.bits_inj'. intros j Hj.
    rewrite Z.shiftr_spec by lia.
    destruct (Z.lt_ge_cases j (length a)) as [Hlt|Hge].
    + specialize (Hbits (length a - 1 - j)).
      rewrite !msb_testbit in Hbits by lia.
      replace (length a - 1 - (length a - 1 - j)) with j in Hbits by lia.
      rewrite <- Hbits by lia. f_equal. lia.
    + rewrite (testbit_above (set a) (length a) j) by lia.
      apply (testbit_above (set b) (length b)); lia.
  - intros [_ E] i Hi. rewrite !msb_testbit by lia. rewrite <- E.
    rewrite Z.shiftr_spec by lia. f_equal. lia.
Qed.

End KeyPrefix.

(** ** [FindCommonKey] and [Test] in terms of the prefix order *)

Section KeyCode.

Import bitset.

Lemma FindCommonKey_subset nk c :
  canon nk -> canon c -> length c <= length nk -> length nk < U64.modulus - 1 ->
  snd (FindCommonKey nk c) = key_prefixb c nk.
Proof.
  intros Hnk Hc Hl Hm.
  assert (HS : 0 <= Len c <= Len nk) by (unfold Len; destruct Hc; lia).
  rewrite FindCommonKey_value by assumption. cbn [snd].
  destruct (commonLen_spec nk c HS Hm) as (Hcl & Hagree & Hdiff).
  unfold Len in *.
  destruct (Z.eqb_spec (commonLen nk c) (length c)) as [E|Hne]; symmetry.
  - apply key_prefixb_spec, key_prefix_bits; try assumption.
    rewrite <- E. exact Hagree.
  - apply key_prefixb_false. intros Hp.
    pose proof (proj2 (key_prefix_bits c nk Hc Hnk Hl) Hp) as Hb.
    apply Hdiff; [lia|]. apply Hb. lia.
Qed.

Lemma FindCommonKey_common nk s :
  canon nk -> canon s -> length s <= length nk -> length nk < U64.modulus - 1 ->
  let cp := fst (FindCommonKey nk s) in
  canon cp /\ key_prefix cp nk /\ key_prefix cp s /\
  (length cp < length s -> bit_at nk (length cp) <> bit_at s (length cp)).
Proof.
  intros Hnk Hs Hl Hm cp. subst cp.
  assert (HS : 0 <= Len s <= Len nk) by (unfold Len; destruct Hs; lia).
  rewrite FindCommonKey_value by assumption. cbn [fst].
  destruct (commonLen_spec nk s HS Hm) as (Hcl & Hagree & Hdiff).
  unfold Len in *. set (c := commonLen nk s) in *.
  set (cp := {| length := c; set := Z.shiftr (set s) (length s - c) |}).
  assert (Hps : key_prefix cp s) by (split; simpl; [lia | reflexivity]).
  assert (Hcp : canon cp) by (apply (canon_prefix cp s); simpl; [lia | assumption..]).
  split; [exact Hcp|]. split; [|split; [exact Hps|]].
  - apply key_prefix_bits; try assumption; [simpl; lia|].
    intros i Hi. simpl in Hi. rewrite Hagree by lia.
    apply (proj2 (key_prefix_bits cp s Hcp Hs ltac:(simpl; lia)) Hps).
    exact Hi.
  - simpl. intros Hlt. specialize (Hdiff Hlt).
    rewrite !msb_testbit in Hdiff by lia. unfold bit_at.
    replace (length nk - c - 1) with (length nk - 1 - c) by lia.
    replace (length s - c - 1) with (length s - 1 - c) by lia. exact Hdiff.
Qed.

(** The branching test of the descent and of the insertion. *)
Lemma Test_branch nk k :
  0 <= length k < length nk -> length nk < U64.modulus ->
  Test nk (U64.sub (U64.sub (Len nk) (Len k)) 1) = bit_at nk (length k).
Proof.
  intros Hk Hm. unfold Len.
  rewrite (u64_sub_small (length nk)) by lia.
  rewrite u64_sub_small by lia.
  unfold Test, bit_at.
  destruct (Z.ltb_spec (length nk - length k - 1) (length nk)); [reflexivity | lia].
Qed.

(** The common prefix is the greatest one. *)
Lemma common_prefix_greatest cp a b x :
  key_prefix cp a -> key_prefix cp b ->
  (length cp < length a -> length cp < length b ->
   bit_at a (length cp) <> bit_at b (length cp)) ->
  key_prefix x a -> key_prefix x b -> key_prefix x cp.
Proof.
  intros Hca Hcb Hdiff Hxa Hxb.
  destruct (Z.le_gt_cases (length x) (length cp)) as [Hle|Hgt].
  { eapply key_prefix_comparable; eassumption. }
  exfalso.
  assert (Hla : length cp < length a) by (destruct Hxa; lia).
  assert (Hlb : length cp < length b) by (destruct Hxb; lia).
  apply (Hdiff Hla Hlb).
  pose proof (key_prefix_step cp a Hca Hla) as Ha.
  pose proof (key_prefix_step cp b Hcb Hlb) as Hb.
  assert (Hax : key_prefix (ext cp (bit_at a (length cp))) x)
    by (eapply key_prefix_comparable; [exact Ha | exact Hxa | simpl; lia]).
  assert (Hbx : key_prefix (ext cp (bit_at b (length cp))) x)
    by (eapply key_prefix_comparable; [exact Hb | exact Hxb | simpl; lia]).
  rewrite <- (key_prefix_ext_bit _ _ _ Hax), <- (key_prefix_ext_bit _ _ _ Hbx).
  reflexivity.
Qed.

End KeyCode.

(** ** The trie as a tree *)

(** The dense tree that a trie state stores: leaves carry a full key and
    its value, an inner node carries its key and two subtrees. *)
Inductive tree : Type :=
| Leaf (k : BitSet) (v : Felt)
| Bin (k : BitSet) (l r : tree).

Definition tkey (t : tree) : BitSet :=
  match t with Leaf k _ => k | Bin k _ _ => k end.

(** Well-formed at height [h]: leaves have length [h], and the children
    of a node at [k] lie under [k] followed by 0 and by 1. *)
Fixpoint wf (h : Z) (t : tree) : Prop :=
  match t with
  | Leaf k v => bitset.length k = h /\ canon k
  | Bin k l r =>
      canon k /\ key_prefix (ext k false) (tkey l) /\
      key_prefix (ext k true) (tkey r) /\ wf h l /\ wf h r
  end.

(** The path from the root of a tree to a subtree: each frame is an inner
    node with the subtree that is not on the path. *)
Inductive frame : Type :=
| FrL (k : BitSet) (r : tree)
| FrR (k : BitSet) (l : tree).

Definition fkey (f : frame) : BitSet :=
  match f with FrL k _ => k | FrR k _ => k end.

Definition fside (f : frame) : bool :=
  match f with FrL _ _ => false | FrR _ _ => true end.

Definition fsib (f : frame) : tree :=
  match f with FrL _ r => r | FrR _ l => l end.

Definition fill (f : frame) (u : tree) : tree :=
  match f with FrL k r => Bin k u r | FrR k l => Bin k l u end.

(** Frames are listed from the root down. *)
Fixpoint plug (C : list frame) (u : tree) : tree :=
  match C with
  | [] => u
  | f :: C' => fill f (plug C' u)
  end.

(** The descent of [nodesFromRoot], on the tree. *)
Fixpoint descend (nk : BitSet) (t : tree) : list frame * tree :=
  match t with
  | Leaf _ _ => ([], t)
  | Bin k l r =>
      if (bitset.length nk <=? bitset.length k) || negb (key_prefixb k nk)
      then ([], t)
      else if bit_at nk (bitset.length k)
      then let '(C, u) := descend nk r in (FrR k l :: C, u)
      else let '(C, u) := descend nk l in (FrL k r :: C, u)
  end.

Section TreeStore.

Variable Pedersen : Felt -> Felt -> Felt.
Variable Hash : Node -> BitSet -> Felt.

(** The node stored for a tree's root. *)
Fixpoint tnode (t : tree) : Node :=
  match t with
  | Leaf _ v => node.mk v None None
  | Bin k l r =>
      node.mk
        (Pedersen (Hash (tnode l) (Path (tkey l) (Some k)))
                  (Hash (tnode r) (Path (tkey r) (Some k))))
        (Some (tkey l)) (Some (tkey r))
  end.

(** The store content of a tree: one node per subtree, at its key. *)
Fixpoint store_of (t : tree) : gmap BitSet Node :=
  match t with
  | Leaf k _ => {[ k := tnode t ]}
  | Bin k l r => <[ k := tnode t ]> (store_of l ∪ store_of r)
  end.

(** The spine the descent returns for the path [C] down to [u]. *)
Fixpoint spine (C : list frame) (u : tree) : list storageNode :=
  match C with
  | [] => [storageNode.mk (tkey u) (tnode u)]
  | f :: C' => storageNode.mk (fkey f) (tnode (plug C u)) :: spine C' u
  end.

Lemma wf_tkey h t : 0 <= h -> wf h t -> canon (tkey t) /\ bitset.length (tkey t) <= h.
Proof.
  intros Hh. induction t as [k v|k l IHl r IHr]; simpl.
  - intros [E Hc]. split; [exact Hc | lia].
  - intros (Hc & Hl & _ & Hwl & _). split; [exact Hc|].
    destruct (IHl Hwl) as [_ Hle]. apply key_prefix_ext_length in Hl. lia.
Qed.

Lemma wf_Bin_length h k l r : 0 <= h -> wf h (Bin k l r) -> bitset.length k < h.
Proof.
  intros Hh (Hc & Hl & _ & Hwl & _).
  destruct (wf_tkey h l Hh Hwl) as [_ Hle]. apply key_prefix_ext_length in Hl. lia.
Qed.

(** Every key of a tree's store extends the key of its root. *)
Lemma store_of_under h t p n :
  wf h t -> store_of t !! p = Some n -> key_prefix (tkey t) p.
Proof.
  revert p n. induction t as [k v|k l IHl r IHr]; intros p n Hw Hp; simpl in *.
  - apply lookup_singleton_Some in Hp as [<- _]. apply key_prefix_refl.
  - destruct Hw as (Hc & Hl & Hr & Hwl & Hwr).
    apply lookup_insert_Some in Hp as [[<- _]|[Hne Hp]]; [apply key_prefix_refl|].
    apply lookup_union_Some_raw in Hp as [Hp|[_ Hp]].
    + eapply key_prefix_trans; [|eapply IHl; eassumption].
      eapply key_prefix_of_ext; exact Hl.
    + eapply key_prefix_trans; [|eapply IHr; eassumption].
      eapply key_prefix_of_ext; exact Hr.
Qed.

Lemma store_of_root t : store_of t !! tkey t = Some (tnode t).
Proof.
  destruct t as [k v|k l r]; simpl;
    [apply lookup_singleton_eq | apply lookup_insert_eq].
Qed.

(** A lookup below an inner node goes to the child on the side of the
    key's next bit. *)
Lemma store_of_route h k l r p :
  wf h (Bin k l r) -> p <> k ->
  store_of (Bin k l r) !! p =
  if key_prefixb (ext k false) p then store_of l !! p else store_of r !! p.
Proof.
  intros (Hc & Hl & Hr & Hwl & Hwr) Hne. simpl.
  rewrite lookup_insert_ne by congruence.
  destruct (key_prefixb (ext k false) p) eqn:E.
  - apply key_prefixb_spec in E.
    destruct (store_of l !! p) as [n|] eqn:El.
    + apply lookup_union_Some_raw. left. exact El.
    + apply lookup_union_None. split; [exact El|].
      destruct (store_of r !! p) as [n|] eqn:Er; [|reflexivity].
      exfalso. apply (ext_disjoint k false p E). simpl.
      eapply key_prefix_trans; [exact Hr|]. eapply store_of_under; eassumption.
  - apply key_prefixb_false in E.
    assert (El : store_of l !! p = None).
    { destruct (store_of l !! p) as [n|] eqn:El; [|reflexivity].
      exfalso. apply E. eapply key_prefix_trans; [exact Hl|].
      eapply store_of_under; eassumption. }
    rewrite lookup_union_r by exact El. reflexivity.
Qed.

End TreeStore.

(** ** The descent on a stored tree *)

Section Descent.

Variable Pedersen : Felt -> Felt -> Felt.
Variable Hash : Node -> BitSet -> Felt.

Local Abbreviation tnode := (tnode Pedersen Hash).
Local Abbreviation store_of := (store_of Pedersen Hash).
Local Abbreviation spine := (spine Pedersen Hash).

(** The map [m] holds the nodes of [t]. *)
Definition holds (m : gmap BitSet Node) (t : tree) : Prop :=
  forall p n, store_of t !! p = Some n -> m !! p = Some n.

Lemma holds_root m t : holds m t -> m !! tkey t = Some (tnode t).
Proof. intros Hm. apply Hm, store_of_root. Qed.

Lemma holds_Bin h m k l r :
  wf h (Bin k l r) -> holds m (Bin k l r) -> holds m l /\ holds m r.
Proof.
  intros Hw Hm.
  pose proof Hw as (Hc & Hl & Hr & Hwl & Hwr).
  split; intros p n Hp; apply Hm.
  - pose proof (store_of_under _ _ h l p n Hwl Hp) as Hu.
    assert (Hlp : key_prefix (ext k false) p) by (eapply key_prefix_trans; eassumption).
    rewrite (store_of_route _ _ h) by
      (try exact Hw; intros ->; apply key_prefix_ext_length in Hlp; lia).
    apply key_prefixb_spec in Hlp. rewrite Hlp. exact Hp.
  - pose proof (store_of_under _ _ h r p n Hwr Hp) as Hu.
    assert (Hrp : key_prefix (ext k true) p) by (eapply key_prefix_trans; eassumption).
    rewrite (store_of_route _ _ h) by
      (try exact Hw; intros ->; apply key_prefix_ext_length in Hrp; lia).
    destruct (key_prefixb (ext k false) p) eqn:E; [|exact Hp].
    exfalso. apply key_prefixb_spec in E. exact (ext_disjoint k false p E Hrp).
Qed.

Lemma descend_plug nk t : plug (fst (descend nk t)) (snd (descend nk t)) = t.
Proof.
  induction t as [k v|k l IHl r IHr]; simpl; [reflexivity|].
  destruct (_ || _); [reflexivity|].
  destruct (bit_at nk (bitset.length k)).
  - destruct (descend nk r) as [C u]. simpl in *. rewrite IHr. reflexivity.
  - destruct (descend nk l) as [C u]. simpl in *. rewrite IHl. reflexivity.
Qed.

(** Every frame of the descent lies on the way to the target key. *)
Lemma descend_exts nk t :
  Forall (fun f => key_prefix (ext (fkey f) (fside f)) nk) (fst (descend nk t)).
Proof.
  induction t as [k v|k l IHl r IHr]; simpl; [constructor|].
  destruct (Z.leb_spec (bitset.length nk) (bitset.length k)) as [|Hlt];
    [constructor|]. simpl.
  destruct (key_prefixb k nk) eqn:Ep; [|constructor]. simpl.
  apply key_prefixb_spec in Ep.
  pose proof (key_prefix_step k nk Ep Hlt) as Hstep.
  destruct (bit_at nk (bitset.length k)).
  - destruct (descend nk r) as [C u]. simpl in *. constructor; assumption.
  - destruct (descend nk l) as [C u]. simpl in *. constructor; assumption.
Qed.

(** Where the descent stops: at the target key, or at a key that is not
    a prefix of it. *)
Lemma descend_stop h nk t :
  0 <= h -> wf h t -> bitset.length nk = h ->
  let u := snd (descend nk t) in
  tkey u = nk \/ ~ key_prefix (tkey u) nk.
Proof.
  intros Hh. induction t as [k v|k l IHl r IHr]; intros Hw Hnk; simpl.
  - destruct Hw as [Hk _].
    destruct (key_prefixb k nk) eqn:Ep;
      [apply key_prefixb_spec in Ep; left | apply key_prefixb_false in Ep; right; exact Ep].
    apply key_prefix_same_length; [exact Ep | lia].
  - pose proof (wf_Bin_length h k l r Hh Hw) as Hlen.
    destruct Hw as (Hc & Hl & Hr & Hwl & Hwr).
    destruct (Z.leb_spec (bitset.length nk) (bitset.length k)) as [|Hlt]; [lia|].
    simpl. destruct (key_prefixb k nk) eqn:Ep; simpl.
    + destruct (bit_at nk (bitset.length k)).
      * destruct (descend nk r) as [C u]. simpl in *. apply IHr; assumption.
      * destruct (descend nk l) as [C u]. simpl in *. apply IHl; assumption.
    + right. apply key_prefixb_false. exact Ep.
Qed.

Lemma run_nodesFromRootLoop h t :
  0 <= h -> h < U64.modulus - 1 -> wf h t ->
  forall fuel nk acc hh r m l,
    canon nk -> bitset.length nk = h -> holds m t ->
    h - bitset.length (tkey t) < Z.of_nat fuel ->
    exists evs,
      nodesFromRootLoop fuel nk (Some (tkey t)) acc (mkT hh r m l) =
      (Ok (acc ++ spine (fst (descend nk t)) (snd (descend nk t))),
       mkT hh r m (l ++ evs)).
Proof.
  intros Hh Hmod. induction t as [k v|k lt IHl rt IHr];
    intros Hw fuel nk acc hh r m l Hnk Hlen Hm Hfuel.
  - destruct fuel as [|fuel]; [destruct Hw; simpl in *; lia|].
    cbn [nodesFromRootLoop]. eexists.
    erewrite run_bind_Ok; cycle 1.
    { rewrite run_storageGet, (holds_root m _ Hm). reflexivity. }
    destruct Hw as [Hk _]. unfold bitset.Len. cbn [tkey].
    destruct (Z.leb_spec (bitset.length nk) (bitset.length k)); [|lia].
    reflexivity.
  - pose proof (wf_Bin_length h k lt rt Hh Hw) as Hklen.
    destruct (holds_Bin h m k lt rt Hw Hm) as [Hml Hmr].
    pose proof Hw as (Hc & Hl & Hr & Hwl & Hwr).
    destruct fuel as [|fuel]; [simpl in *; destruct Hc; lia|].
    cbn [nodesFromRootLoop].
    assert (Hrun : forall B (f : Node -> M memstore.t B),
              bind (storageGet (Some k)) f (mkT hh r m l) =
              f (tnode (Bin k lt rt)) (mkT hh r m (l ++ [memstore.EvGet k]))).
    { intros B f. apply run_bind_Ok.
      pose proof (holds_root m _ Hm) as Hroot. cbn [tkey] in Hroot.
      rewrite run_storageGet, Hroot. reflexivity. }
    rewrite Hrun. clear Hrun.
    rewrite FindCommonKey_subset by (try assumption; simpl in *; lia).
    unfold bitset.Len. cbn [descend tkey].
    destruct (Z.leb_spec (bitset.length nk) (bitset.length k)) as [|Hlt]; [lia|].
    cbn [orb]. destruct (key_prefixb k nk) eqn:Ep; cbn [negb].
    2:{ eexists. reflexivity. }
    rewrite Test_branch by (destruct Hc; lia).
    destruct (bit_at nk (bitset.length k)).
    + change (node.right (tnode (Bin k lt rt))) with (Some (tkey rt)).
      destruct (IHr Hwr fuel nk (acc ++ [storageNode.mk k (tnode (Bin k lt rt))])
                  hh r m (l ++ [memstore.EvGet k]) Hnk Hlen Hmr) as (evs & E).
      { apply key_prefix_ext_length in Hr. simpl in *. lia. }
      exists ([memstore.EvGet k] ++ evs). rewrite E.
      pose proof (descend_plug nk rt) as Hplug.
      destruct (descend nk rt) as [C u]. cbn [fst snd spine plug fill fkey] in *.
      rewrite Hplug, <- !app_assoc. reflexivity.
    + change (node.left (tnode (Bin k lt rt))) with (Some (tkey lt)).
      destruct (IHl Hwl fuel nk (acc ++ [storageNode.mk k (tnode (Bin k lt rt))])
                  hh r m (l ++ [memstore.EvGet k]) Hnk Hlen Hml) as (evs & E).
      { apply key_prefix_ext_length in Hl. simpl in *. lia. }
      exists ([memstore.EvGet k] ++ evs). rewrite E.
      pose proof (descend_plug nk lt) as Hplug.
      destruct (descend nk lt) as [C u]. cbn [fst snd spine plug fill fkey] in *.
      rewrite Hplug, <- !app_assoc. reflexivity.
Qed.

End Descent.

(** ** Propagation rebuilds the stored tree along a spine *)

Section Propagation.

Variable Pedersen : Felt -> Felt -> Felt.
Variable Hash : Node -> BitSet -> Felt.

Local Abbreviation tnode := (tnode Pedersen Hash).
Local Abbreviation store_of := (store_of Pedersen Hash).
Local Abbreviation holds := (holds Pedersen Hash).

(** A spine node that has the links of [t]'s root, and its value when [t]
    is a leaf; the value of an inner node is recomputed anyway. *)
Definition stale (n : Node) (t : tree) : Prop :=
  node.left n = node.left (tnode t) /\
  node.right n = node.right (tnode t) /\
  match t with Leaf _ v => node.value n = v | Bin _ _ _ => True end.

Fixpoint stale_spine (C : list frame) (u : tree) (nodes : list storageNode) : Prop :=
  match C, nodes with
  | [], [x] => storageNode.key x = tkey u /\ stale (storageNode.node x) u
  | f :: C', x :: nodes' =>
      storageNode.key x = fkey f /\ stale (storageNode.node x) (plug C u) /\
      stale_spine C' u nodes'
  | _, _ => False
  end.

(** The keys of the spine. *)
Definition skeys (C : list frame) (u : tree) : list BitSet :=
  map fkey C ++ [tkey u].

(** The writes of a propagation along the spine. *)
Fixpoint write_spine (C : list frame) (u : tree) (m : gmap BitSet Node)
    : gmap BitSet Node :=
  match C with
  | [] => <[tkey u := tnode u]> m
  | f :: C' => <[fkey f := tnode (plug C u)]> (write_spine C' u m)
  end.

(** The children of [t]'s root are in [m]. *)
Definition children_in (m : gmap BitSet Node) (t : tree) : Prop :=
  match t with
  | Leaf _ _ => True
  | Bin _ l r => m !! tkey l = Some (tnode l) /\ m !! tkey r = Some (tnode r)
  end.

(** What the propagation reads off the spine is in [m]. *)
Fixpoint avail (m : gmap BitSet Node) (C : list frame) (u : tree) : Prop :=
  match C with
  | [] => children_in m u
  | f :: C' => m !! tkey (fsib f) = Some (tnode (fsib f)) /\ avail m C' u
  end.

Lemma tkey_plug_cons f C u : tkey (plug (f :: C) u) = fkey f.
Proof. destruct f; reflexivity. Qed.

Lemma propagateLoop_app (a b : list storageNode) (t : Trie memstore.t) :
  propagateLoop Pedersen Hash (a ++ b) t =
  bind (propagateLoop Pedersen Hash a) (fun _ => propagateLoop Pedersen Hash b) t.
Proof.
  revert t. induction a as [|x a IH]; intros t; [reflexivity|].
  cbn [app propagateLoop]. unfold bind.
  destruct (propagateNode Pedersen Hash x t) as [[[]|e| |] t1]; try reflexivity.
  rewrite IH. reflexivity.
Qed.

Lemma run_propagateNode hh r m l x t :
  storageNode.key x = tkey t -> stale (storageNode.node x) t -> children_in m t ->
  exists evs,
    propagateNode Pedersen Hash x (mkT hh r m l) =
    (Ok tt, mkT hh r (<[tkey t := tnode t]> m) (l ++ evs)).
Proof.
  destruct x as [kx [v lx rx]]. simpl. intros -> (Hl & Hr & Hv) Hch.
  simpl in Hl, Hr. subst lx rx. unfold propagateNode. cbn [storageNode.node storageNode.key].
  destruct t as [k v'|k lt rt]; cbn [tnode node.left node.right tkey] in *.
  - subst v'. eexists. apply run_storagePut.
  - destruct Hch as [Hlt Hrt].
    erewrite run_bind_Ok; cycle 1.
    { rewrite run_storageGet, Hlt. reflexivity. }
    erewrite run_bind_Ok; cycle 1.
    { rewrite run_storageGet, Hrt. reflexivity. }
    rewrite run_storagePut. eexists. rewrite <- !app_assoc. reflexivity.
Qed.

Lemma write_spine_top C u m :
  write_spine C u m !! tkey (plug C u) = Some (tnode (plug C u)).
Proof.
  destruct C as [|f C]; simpl; [apply lookup_insert_eq|].
  rewrite <- (tkey_plug_cons f C u). apply lookup_insert_eq.
Qed.

Lemma wf_plug_cons h f C u :
  wf h (plug (f :: C) u) ->
  canon (fkey f) /\
  key_prefix (ext (fkey f) (fside f)) (tkey (plug C u)) /\
  key_prefix (ext (fkey f) (negb (fside f))) (tkey (fsib f)) /\
  wf h (plug C u) /\ wf h (fsib f).
Proof.
  destruct f; simpl; intros (H1 & H2 & H3 & H4 & H5);
    (split; [|split; [|split; [|split]]]); assumption.
Qed.

(** The keys of the spine all extend its top key. *)
Lemma skeys_under h C u p :
  wf h (plug C u) -> p ∈ skeys C u -> key_prefix (tkey (plug C u)) p.
Proof.
  revert p. induction C as [|f C IH]; intros p Hw Hp.
  - apply list_elem_of_singleton in Hp. subst p. apply key_prefix_refl.
  - rewrite tkey_plug_cons. unfold skeys in Hp. cbn [map app] in Hp.
    apply elem_of_cons in Hp as [->|Hp]; [apply key_prefix_refl|].
    apply wf_plug_cons in Hw as (_ & Hside & _ & Hw & _).
    eapply key_prefix_trans; [|apply IH; assumption].
    eapply key_prefix_of_ext. exact Hside.
Qed.

Lemma write_spine_other h C u m p :
  wf h (plug C u) -> ~ key_prefix (tkey (plug C u)) p ->
  write_spine C u m !! p = m !! p.
Proof.
  revert p. induction C as [|f C IH]; intros p Hw Hp.
  - simpl in *. apply lookup_insert_ne. intros E. apply Hp. rewrite E.
    apply key_prefix_refl.
  - rewrite tkey_plug_cons in Hp. cbn [write_spine].
    rewrite lookup_insert_ne by (intros E; apply Hp; rewrite E; apply key_prefix_refl).
    apply wf_plug_cons in Hw as (_ & Hside & _ & Hw & _).
    apply IH; [exact Hw|]. intros Hq. apply Hp.
    eapply key_prefix_trans; [|exact Hq]. eapply key_prefix_of_ext. exact Hside.
Qed.

(** The sibling of a frame is off the part of the spine below it. *)
Lemma sibling_off_spine h f C u :
  wf h (plug (f :: C) u) -> ~ key_prefix (tkey (plug C u)) (tkey (fsib f)).
Proof.
  intros Hw Hp. apply wf_plug_cons in Hw as (_ & Hside & Hsib & _ & _).
  apply (ext_disjoint (fkey f) (fside f) (tkey (fsib f))); [|exact Hsib].
  eapply key_prefix_trans; eassumption.
Qed.

Lemma run_propagate_spine h C u :
  forall nodes hh r m l,
    wf h (plug C u) -> stale_spine C u nodes -> avail m C u ->
    exists evs,
      propagateValues Pedersen Hash nodes (mkT hh r m l) =
      (Ok tt, mkT hh r (write_spine C u m) (l ++ evs)).
Proof.
  unfold propagateValues.
  induction C as [|f C IH]; intros nodes hh r m l Hw Hst Hav.
  - destruct nodes as [|x [|y nodes]]; try contradiction.
    destruct Hst as [Hk Hs]. cbn [rev app propagateLoop].
    destruct (run_propagateNode hh r m l x u Hk Hs Hav) as (evs & E).
    exists evs. erewrite run_bind_Ok by exact E. reflexivity.
  - destruct nodes as [|x nodes]; [contradiction|].
    destruct Hst as (Hk & Hs & Hst). destruct Hav as [Hsib Hav].
    pose proof (wf_plug_cons h f C u Hw) as (_ & _ & _ & Hw' & _).
    destruct (IH nodes hh r m l Hw' Hst Hav) as (evs1 & E1).
    cbn [rev]. rewrite propagateLoop_app. erewrite run_bind_Ok by exact E1.
    cbn [propagateLoop].
    assert (Hch : children_in (write_spine C u m) (plug (f :: C) u)).
    { pose proof (sibling_off_spine h f C u Hw) as Hoff.
      pose proof (write_spine_top C u m) as Htop.
      pose proof (write_spine_other h C u m _ Hw' Hoff) as Hoth.
      rewrite Hsib in Hoth. destruct f; simpl in *; split; assumption. }
    rewrite <- (tkey_plug_cons f C u) in Hk.
    destruct (run_propagateNode hh r _ (l ++ evs1) x _ Hk Hs Hch) as (evs2 & E2).
    exists (evs1 ++ evs2). erewrite run_bind_Ok by exact E2.
    rewrite tkey_plug_cons, <- app_assoc. reflexivity.
Qed.

End Propagation.

Section Rebuild.

Variable Pedersen : Felt -> Felt -> Felt.
Variable Hash : Node -> BitSet -> Felt.

Local Abbreviation tnode := (tnode Pedersen Hash).
Local Abbreviation store_of := (store_of Pedersen Hash).
Local Abbreviation holds := (holds Pedersen Hash).
Local Abbreviation avail := (avail Pedersen Hash).
Local Abbreviation write_spine := (write_spine Pedersen Hash).

Lemma holds_plug_cons h m f C u :
  wf h (plug (f :: C) u) -> holds m (plug (f :: C) u) ->
  holds m (plug C u) /\ holds m (fsib f).
Proof.
  intros Hw Hm. destruct f as [k r|k l]; simpl in *;
    destruct (holds_Bin Pedersen Hash h m _ _ _ Hw Hm); split; assumption.
Qed.

Lemma holds_store_of t : holds (store_of t) t.
Proof. intros p n Hp. exact Hp. Qed.

(** Below the top of the spine, [m] agrees with [m0] off the spine. *)
Definition agree_under (m m0 : gmap BitSet Node) (C : list frame) (u : tree) : Prop :=
  forall p, key_prefix (tkey (plug C u)) p -> p ∉ skeys C u -> m !! p = m0 !! p.

Lemma agree_under_cons h m m0 f C u :
  wf h (plug (f :: C) u) -> agree_under m m0 (f :: C) u -> agree_under m m0 C u.
Proof.
  intros Hw Hag p Hp Hnot.
  pose proof (wf_plug_cons h f C u Hw) as (_ & Hside & _ & _ & _).
  assert (Hfp : key_prefix (ext (fkey f) (fside f)) p)
    by (eapply key_prefix_trans; eassumption).
  apply Hag.
  - rewrite tkey_plug_cons. eapply key_prefix_of_ext. exact Hfp.
  - unfold skeys in *. cbn [map app]. apply not_elem_of_cons. split; [|exact Hnot].
    intros ->. apply key_prefix_ext_length in Hfp. lia.
Qed.

Lemma sibling_not_on_spine h f C u :
  wf h (plug (f :: C) u) -> tkey (fsib f) ∉ skeys (f :: C) u.
Proof.
  intros Hw. pose proof (wf_plug_cons h f C u Hw) as (_ & Hside & Hsib & Hw' & _).
  unfold skeys. cbn [map app]. apply not_elem_of_cons. split.
  - intros E. rewrite E in Hsib. apply key_prefix_ext_length in Hsib. lia.
  - intros Hin. apply (sibling_off_spine h f C u Hw).
    apply (skeys_under h C u _ Hw' Hin).
Qed.

Lemma avail_from_agree h m m0 C u :
  wf h (plug C u) -> holds m0 (plug C u) -> agree_under m m0 C u -> avail m C u.
Proof.
  induction C as [|f C IH]; intros Hw Hm0 Hag.
  - simpl in *. destruct u as [k v|k l r]; [exact I|].
    destruct (holds_Bin Pedersen Hash h m0 k l r Hw Hm0) as [Hl Hr].
    destruct Hw as (Hc & Hpl & Hpr & Hwl & Hwr). simpl.
    split; (rewrite Hag; [apply holds_root; assumption | |]).
    + simpl. eapply key_prefix_of_ext. exact Hpl.
    + unfold skeys. simpl. intros Hin. apply list_elem_of_singleton in Hin.
      rewrite Hin in Hpl. apply key_prefix_ext_length in Hpl. lia.
    + simpl. eapply key_prefix_of_ext. exact Hpr.
    + unfold skeys. simpl. intros Hin. apply list_elem_of_singleton in Hin.
      rewrite Hin in Hpr. apply key_prefix_ext_length in Hpr. lia.
  - destruct (holds_plug_cons h m0 f C u Hw Hm0) as [Hm0' Hsibm].
    pose proof (wf_plug_cons h f C u Hw) as (_ & Hside & Hsib & Hw' & _).
    simpl. split.
    + rewrite Hag; [apply holds_root; exact Hsibm | |].
      * rewrite tkey_plug_cons. eapply key_prefix_of_ext. exact Hsib.
      * apply (sibling_not_on_spine h f C u Hw).
    + apply IH; [exact Hw' | exact Hm0' |]. eapply agree_under_cons; eassumption.
Qed.

Lemma write_spine_agree h m m0 C u :
  wf h (plug C u) -> holds m0 (plug C u) -> agree_under m m0 C u ->
  forall p, key_prefix (tkey (plug C u)) p -> write_spine C u m !! p = m0 !! p.
Proof.
  induction C as [|f C IH]; intros Hw Hm0 Hag p Hp.
  - simpl in *. destruct (decide (p = tkey u)) as [->|Hne].
    + rewrite lookup_insert_eq. symmetry. apply holds_root. exact Hm0.
    + rewrite lookup_insert_ne by congruence. apply Hag; [exact Hp|].
      unfold skeys. simpl. intros Hin. apply list_elem_of_singleton in Hin. contradiction.
  - destruct (holds_plug_cons h m0 f C u Hw Hm0) as [Hm0' Hsibm].
    pose proof (wf_plug_cons h f C u Hw) as (_ & Hside & Hsib & Hw' & _).
    simpl.
    destruct (decide (p = fkey f)) as [->|Hne].
    + rewrite lookup_insert_eq. symmetry.
      rewrite <- (tkey_plug_cons f C u) at 1. apply holds_root. exact Hm0.
    + rewrite lookup_insert_ne by congruence.
      destruct (key_prefixb (tkey (plug C u)) p) eqn:E.
      * apply key_prefixb_spec in E. apply IH; try assumption.
        eapply agree_under_cons; eassumption.
      * apply key_prefixb_false in E.
        rewrite (write_spine_other Pedersen Hash h C u m p Hw' E).
        apply Hag; [exact Hp|].
        unfold skeys. cbn [map app]. apply not_elem_of_cons. split; [exact Hne|].
        intros Hin. apply E. apply (skeys_under h C u _ Hw' Hin).
Qed.

(** Propagating a spine with the right links over a store that is right
    off the spine yields the store of the tree. *)
Lemma propagate_rebuild h C u nodes hh r m l :
  wf h (plug C u) -> stale_spine Pedersen Hash C u nodes ->
  (forall p, p ∉ skeys C u -> m !! p = store_of (plug C u) !! p) ->
  exists evs,
    propagateValues Pedersen Hash nodes (mkT hh r m l) =
    (Ok tt, mkT hh r (store_of (plug C u)) (l ++ evs)).
Proof.
  intros Hw Hst Hag.
  assert (Hag' : agree_under m (store_of (plug C u)) C u)
    by (intros p _ Hp; apply Hag, Hp).
  pose proof (holds_store_of (plug C u)) as Hm0.
  destruct (run_propagate_spine Pedersen Hash h C u nodes hh r m l Hw Hst
              (avail_from_agree h m _ C u Hw Hm0 Hag')) as (evs & E).
  exists evs. rewrite E. do 2 f_equal. unfold mkT. do 2 f_equal.
  apply map_eq. intros p.
  destruct (key_prefixb (tkey (plug C u)) p) eqn:Ep.
  - apply key_prefixb_spec in Ep.
    apply (write_spine_agree h m _ C u Hw Hm0 Hag' p Ep).
  - apply key_prefixb_false in Ep.
    rewrite (write_spine_other Pedersen Hash h C u m p Hw Ep).
    apply Hag. intros Hin. apply Ep. apply (skeys_under h C u _ Hw Hin).
Qed.

End Rebuild.

(** ** Replacing the subtree at the end of a path *)

Section Contexts.

Variable Pedersen : Felt -> Felt -> Felt.
Variable Hash : Node -> BitSet -> Felt.

Local Abbreviation tnode := (tnode Pedersen Hash).
Local Abbreviation store_of := (store_of Pedersen Hash).
Local Abbreviation spine := (spine Pedersen Hash).
Local Abbreviation stale := (stale Pedersen Hash).
Local Abbreviation stale_spine := (stale_spine Pedersen Hash).

(** The side of the hole of each frame, as a key. *)
Definition on_path (C : list frame) (p : BitSet) : Prop :=
  Forall (fun f => key_prefix (ext (fkey f) (fside f)) p) C.

Lemma plug_app C1 C2 u : plug (C1 ++ C2) u = plug C1 (plug C2 u).
Proof. induction C1 as [|f C1 IH]; simpl; [reflexivity | rewrite IH; reflexivity]. Qed.

Lemma on_path_weaken C p q : on_path C p -> key_prefix p q -> on_path C q.
Proof.
  intros HC Hpq. eapply Forall_impl; [exact HC|].
  intros f Hf. simpl in *. exact (key_prefix_trans _ p q Hf Hpq).
Qed.

(** The frames of a well-formed path lead to the subtree at its end. *)
Lemma wf_on_path h C u : wf h (plug C u) -> on_path C (tkey u).
Proof.
  induction C as [|f C IH]; intros Hw; [constructor|].
  apply wf_plug_cons in Hw as (_ & Hside & _ & Hw & _).
  constructor.
  - destruct C as [|g C]; [exact Hside|].
    eapply key_prefix_trans; [exact Hside|].
    rewrite tkey_plug_cons. specialize (IH Hw).
    apply Forall_cons_1 in IH as [Hg _]. eapply key_prefix_of_ext. exact Hg.
  - apply IH, Hw.
Qed.

Lemma wf_plug_hole h C u : wf h (plug C u) -> wf h u.
Proof.
  induction C as [|f C IH]; intros Hw; [exact Hw|].
  apply wf_plug_cons in Hw as (_ & _ & _ & Hw & _). apply IH, Hw.
Qed.

(** Another subtree fits at the end of the path when the path leads to
    its key. *)
Lemma wf_plug_swap h C u u' :
  wf h (plug C u) -> wf h u' -> on_path C (tkey u') -> wf h (plug C u').
Proof.
  induction C as [|f C IH]; intros Hw Hw' Hpath; [exact Hw'|].
  apply Forall_cons_1 in Hpath as [Hf Hpath].
  pose proof (wf_plug_cons h f C u Hw) as (Hc & Hside & Hsib & HwC & Hws).
  assert (Hside' : key_prefix (ext (fkey f) (fside f)) (tkey (plug C u'))).
  { destruct C as [|g C]; [exact Hf|]. rewrite tkey_plug_cons in *. exact Hside. }
  specialize (IH HwC Hw' Hpath).
  destruct f as [k r|k l]; simpl in *;
    (split; [|split; [|split; [|split]]]); assumption.
Qed.

Lemma on_path_not_frame C p : on_path C p -> p ∉ map fkey C.
Proof.
  induction 1 as [|f C Hf HC IH]; simpl; [apply not_elem_of_nil|].
  apply not_elem_of_cons. split; [|exact IH].
  intros ->. apply key_prefix_ext_length in Hf. lia.
Qed.

(** A key on the path is looked up in the subtree at its end. *)
Lemma store_of_plug_in h C u p :
  wf h (plug C u) -> on_path C p ->
  store_of (plug C u) !! p = store_of u !! p.
Proof.
  induction C as [|f C IH]; intros Hw Hpath; [reflexivity|].
  apply Forall_cons_1 in Hpath as [Hf Hpath].
  pose proof (wf_plug_cons h f C u Hw) as (_ & _ & _ & HwC & _).
  rewrite <- (IH HwC Hpath).
  assert (Hne : p <> fkey f)
    by (intros ->; apply key_prefix_ext_length in Hf; lia).
  destruct f as [k r|k l]; simpl in Hf, Hne; cbn [plug fill];
    rewrite (store_of_route Pedersen Hash h) by assumption.
  - apply key_prefixb_spec in Hf. rewrite Hf. reflexivity.
  - destruct (key_prefixb (ext k false) p) eqn:E; [|reflexivity].
    exfalso. apply key_prefixb_spec in E. exact (ext_disjoint k false p E Hf).
Qed.

(** Off the frames, a lookup depends on the subtree at the end only
    through the lookup in it. *)
Lemma store_of_plug_congr h C u u' p :
  wf h (plug C u) -> wf h (plug C u') -> p ∉ map fkey C ->
  store_of u !! p = store_of u' !! p ->
  store_of (plug C u) !! p = store_of (plug C u') !! p.
Proof.
  induction C as [|f C IH]; intros Hw Hw' Hnot Hloc; [exact Hloc|].
  cbn [map] in Hnot. apply not_elem_of_cons in Hnot as [Hne Hnot].
  pose proof (wf_plug_cons h f C u Hw) as (_ & _ & _ & HwC & _).
  pose proof (wf_plug_cons h f C u' Hw') as (_ & _ & _ & HwC' & _).
  specialize (IH HwC HwC' Hnot Hloc).
  destruct f as [k r|k l]; simpl in Hne; cbn [plug fill] in *;
    rewrite !(store_of_route Pedersen Hash h) by assumption;
    destruct (key_prefixb (ext k false) p); congruence.
Qed.

(** The frame nodes of the spine. *)
Fixpoint cspine (C : list frame) (u : tree) : list storageNode :=
  match C with
  | [] => []
  | f :: C' => storageNode.mk (fkey f) (tnode (plug C u)) :: cspine C' u
  end.

Lemma spine_cspine C u :
  spine C u = cspine C u ++ [storageNode.mk (tkey u) (tnode u)].
Proof. induction C as [|f C IH]; simpl; [reflexivity | rewrite IH; reflexivity]. Qed.

Lemma cspine_app C1 C2 u :
  cspine (C1 ++ C2) u = cspine C1 (plug C2 u) ++ cspine C2 u.
Proof.
  induction C1 as [|f C1 IH]; [reflexivity|].
  cbn [app cspine]. rewrite IH. cbn [plug]. rewrite plug_app. reflexivity.
Qed.

Lemma tkey_plug_same C u u' : tkey u = tkey u' -> tkey (plug C u) = tkey (plug C u').
Proof. intros E. destruct C as [|f C]; [exact E|]. rewrite !tkey_plug_cons. reflexivity. Qed.

Lemma stale_fill f c c' n :
  tkey c = tkey c' -> stale n (fill f c) -> stale n (fill f c').
Proof.
  intros E (Hl & Hr & _). destruct f as [k r|k l]; simpl in *;
    (split; [|split]); try exact I; simpl; congruence.
Qed.

Lemma stale_tnode t : stale (tnode t) t.
Proof. destruct t; simpl; (split; [|split]); reflexivity. Qed.

(** The frame nodes of the old spine, followed by a node for a new
    subtree with the same key, are a spine of the new tree. *)
Lemma stale_spine_same C u u' n' :
  tkey u = tkey u' -> stale n' u' ->
  stale_spine C u' (cspine C u ++ [storageNode.mk (tkey u') n']).
Proof.
  intros E Hn'. induction C as [|f C IH]; [split; [reflexivity | exact Hn']|].
  cbn [cspine app]. simpl.
  split; [reflexivity|]. split; [|exact IH].
  apply (stale_fill f (plug C u) (plug C u')); [apply tkey_plug_same, E|].
  apply stale_tnode.
Qed.

(** Retargeting the link of a spine node from [old] to [new], as [Put]
    and [deleteLast] do on the parent of the subtree they replace. *)
Definition patch (x : storageNode) (old new : BitSet) : storageNode :=
  if bitset.EqualPtr (node.left (storageNode.node x)) (Some old)
  then storageNode.mk (storageNode.key x)
         (node.set_left (Some new) (storageNode.node x))
  else storageNode.mk (storageNode.key x)
         (node.set_right (Some new) (storageNode.node x)).

Lemma patch_stale h g U U' :
  wf h (fill g U) ->
  let x := patch (storageNode.mk (fkey g) (tnode (fill g U))) (tkey U) (tkey U') in
  storageNode.key x = fkey g /\ stale (storageNode.node x) (fill g U').
Proof.
  intros Hw. unfold patch. destruct g as [k r|k l]; simpl in *.
  - rewrite bitset_Equal_refl. simpl. split; [reflexivity|].
    split; [|split]; reflexivity.
  - destruct Hw as (_ & Hl & Hr & _ & _).
    rewrite bitset_Equal_neq; cycle 1.
    { intros E. rewrite E in Hl. exact (ext_disjoint k false _ Hl Hr). }
    simpl. split; [reflexivity|]. split; [|split]; reflexivity.
Qed.

(** The old spine with its last frame node patched, followed by a node
    for the new subtree, is a spine of the new tree. *)
Lemma stale_spine_patch h K g U U' n' :
  wf h (plug (K ++ [g]) U) -> stale n' U' ->
  stale_spine (K ++ [g]) U'
    (cspine K (fill g U) ++
     [patch (storageNode.mk (fkey g) (tnode (fill g U))) (tkey U) (tkey U');
      storageNode.mk (tkey U') n']).
Proof.
  intros Hw Hn'. induction K as [|f K IH].
  - simpl in Hw. destruct (patch_stale h g U U' Hw) as [Hk Hs].
    cbn [app cspine]. simpl. split; [exact Hk|]. split; [exact Hs|].
    split; [reflexivity | exact Hn'].
  - pose proof (wf_plug_cons h f (K ++ [g]) U Hw) as (_ & _ & _ & HwK & _).
    specialize (IH HwK). cbn [app cspine]. simpl. split; [reflexivity|].
    split; [|exact IH].
    replace (plug K (fill g U)) with (plug (K ++ [g]) U)
      by (rewrite plug_app; reflexivity).
    apply (stale_fill f (plug (K ++ [g]) U) (plug (K ++ [g]) U')); [|apply stale_tnode].
    destruct K as [|f0 K]; simpl; [destruct g | destruct f0]; reflexivity.
Qed.

(** A spine that ends at an inner node extends by a node for one of its
    children. *)
Lemma stale_spine_snoc C f W ns x y :
  stale_spine C (fill f W) (ns ++ [x]) ->
  storageNode.key y = tkey W -> stale (storageNode.node y) W ->
  stale_spine (C ++ [f]) W (ns ++ [x; y]).
Proof.
  revert ns. induction C as [|g C IH]; intros ns Hst Hk Hy.
  - destruct ns as [|a [|b ns]]; simpl in Hst; try contradiction.
    destruct Hst as [Hx Hsx]. simpl. split; [|split; [exact Hsx|split; assumption]].
    rewrite Hx. destruct f; reflexivity.
  - destruct ns as [|a ns].
    + simpl in Hst. destruct Hst as (_ & _ & Hst). destruct C; contradiction.
    + cbn [app] in *. simpl in Hst. destruct Hst as (Ha & Hsa & Hst). simpl.
      split; [exact Ha|]. split; [|apply IH; assumption].
      rewrite plug_app. exact Hsa.
Qed.

End Contexts.

(** ** The three updates of the stored tree *)

Section TreeUpdates.

Variable Pedersen : Felt -> Felt -> Felt.
Variable Hash : Node -> BitSet -> Felt.
Variable h : Z.
Hypothesis Hh : 0 <= h.

Local Abbreviation tnode := (tnode Pedersen Hash).
Local Abbreviation store_of := (store_of Pedersen Hash).

Lemma frame_keys_short C u :
  wf h (plug C u) -> Forall (fun f => bitset.length (fkey f) < h) C.
Proof.
  induction C as [|f C IH]; intros Hw; [constructor|].
  constructor.
  - destruct f; simpl in *; eapply wf_Bin_length; eassumption.
  - apply wf_plug_cons in Hw as (_ & _ & _ & Hw & _). apply IH, Hw.
Qed.

Lemma full_key_not_frame C u p :
  wf h (plug C u) -> bitset.length p = h -> p ∉ map fkey C.
Proof.
  intros Hw Hp Hin. apply list_elem_of_fmap in Hin as (f & -> & Hf).
  pose proof (frame_keys_short C u Hw) as Hshort.
  rewrite Forall_forall in Hshort. specialize (Hshort f Hf). lia.
Qed.

Lemma store_of_leaf_ne k v p : p <> k -> store_of (Leaf k v) !! p = None.
Proof. intros Hne. simpl. apply lookup_singleton_ne. congruence. Qed.

(** Lookups in a node with a leaf on the side [fside f]. *)
Lemma store_of_fill_leaf f nk v p :
  wf h (fill f (Leaf nk v)) -> p <> fkey f -> p <> nk ->
  store_of (fill f (Leaf nk v)) !! p = store_of (fsib f) !! p.
Proof.
  intros Hw Hk Hnk. pose proof Hw as Hw0.
  destruct f as [k r|k l]; simpl in Hk, Hw; cbn [fill fsib];
    rewrite (store_of_route Pedersen Hash h) by assumption;
    destruct Hw as (_ & Hl & Hr & Hwl & Hwr).
  - destruct (key_prefixb (ext k false) p) eqn:E; [|reflexivity].
    rewrite store_of_leaf_ne by exact Hnk.
    destruct (store_of r !! p) as [n|] eqn:Er; [|reflexivity].
    exfalso. apply key_prefixb_spec in E. apply (ext_disjoint k false p E).
    eapply key_prefix_trans; [exact Hr|].
    eapply store_of_under; eassumption.
  - destruct (key_prefixb (ext k false) p) eqn:E; [reflexivity|].
    rewrite store_of_leaf_ne by exact Hnk.
    destruct (store_of l !! p) as [n|] eqn:El; [|reflexivity].
    exfalso. apply key_prefixb_false in E. apply E.
    eapply key_prefix_trans; [exact Hl|].
    eapply store_of_under; eassumption.
Qed.

Lemma store_of_sibling_None f nk v p :
  wf h (fill f (Leaf nk v)) -> p = fkey f \/ p = nk ->
  store_of (fsib f) !! p = None.
Proof.
  intros Hw Hp.
  destruct (store_of (fsib f) !! p) as [n|] eqn:E; [|reflexivity]. exfalso.
  pose proof (wf_plug_cons h f [] (Leaf nk v) Hw) as (_ & Hside & Hsib & _ & Hws).
  pose proof (store_of_under _ _ h _ p n Hws E) as Hu.
  assert (Hsp : key_prefix (ext (fkey f) (negb (fside f))) p)
    by (eapply key_prefix_trans; eassumption).
  destruct Hp as [->| ->].
  - apply key_prefix_ext_length in Hsp. lia.
  - simpl in Hside. exact (ext_disjoint _ _ _ Hside Hsp).
Qed.

(** Replacing the value of a leaf. *)
Lemma replace_wf C nk v0 v :
  wf h (plug C (Leaf nk v0)) -> wf h (plug C (Leaf nk v)).
Proof.
  intros Hw. apply (wf_plug_swap h C (Leaf nk v0)); [exact Hw| |].
  - exact (wf_plug_hole h C _ Hw).
  - exact (wf_on_path h C _ Hw).
Qed.

Lemma replace_agree C nk v0 v p :
  wf h (plug C (Leaf nk v0)) -> p ∉ map fkey C -> p <> nk ->
  store_of (plug C (Leaf nk v0)) !! p = store_of (plug C (Leaf nk v)) !! p.
Proof.
  intros Hw Hnot Hne.
  apply (store_of_plug_congr Pedersen Hash h); try assumption.
  - apply (replace_wf C nk v0 v Hw).
  - rewrite !store_of_leaf_ne by exact Hne. reflexivity.
Qed.

Lemma plug_leaf_lookup C nk v :
  wf h (plug C (Leaf nk v)) ->
  store_of (plug C (Leaf nk v)) !! nk = Some (node.mk v None None).
Proof.
  intros Hw. rewrite (store_of_plug_in Pedersen Hash h C _ nk Hw).
  - simpl. apply lookup_singleton_eq.
  - exact (wf_on_path h C _ Hw).
Qed.

(** Inserting a leaf next to the subtree [u], under their common prefix. *)
Definition new_frame (cp nk : BitSet) (u : tree) : frame :=
  if bit_at nk (bitset.length cp) then FrR cp u else FrL cp u.

Lemma insert_wf_local cp nk v u :
  wf h u -> canon nk -> bitset.length nk = h ->
  canon cp -> key_prefix cp nk -> key_prefix cp (tkey u) ->
  bitset.length cp < bitset.length (tkey u) ->
  bit_at nk (bitset.length cp) <> bit_at (tkey u) (bitset.length cp) ->
  wf h (fill (new_frame cp nk u) (Leaf nk v)).
Proof.
  intros Hwu Hnk Hlen Hcp Hpn Hpu Hlt Hdiff.
  destruct (wf_tkey h u Hh Hwu) as [_ Hule].
  pose proof (key_prefix_step cp nk Hpn ltac:(lia)) as Hsn.
  pose proof (key_prefix_step cp (tkey u) Hpu Hlt) as Hsu.
  unfold new_frame. destruct (bit_at nk (bitset.length cp)) eqn:Eb; simpl.
  - destruct (bit_at (tkey u) (bitset.length cp)); [congruence|].
    split; [exact Hcp|]. split; [exact Hsu|]. split; [exact Hsn|].
    split; [exact Hwu|]. split; assumption.
  - destruct (bit_at (tkey u) (bitset.length cp)); [|congruence].
    split; [exact Hcp|]. split; [exact Hsn|]. split; [exact Hsu|].
    split; [split; assumption | exact Hwu].
Qed.

Lemma new_frame_facts cp nk u :
  fkey (new_frame cp nk u) = cp /\ fsib (new_frame cp nk u) = u /\
  fside (new_frame cp nk u) = bit_at nk (bitset.length cp).
Proof. unfold new_frame. destruct (bit_at nk (bitset.length cp)); simpl; auto. Qed.

Lemma insert_agree_local cp nk v u p :
  wf h (fill (new_frame cp nk u) (Leaf nk v)) -> p <> cp -> p <> nk ->
  store_of u !! p = store_of (fill (new_frame cp nk u) (Leaf nk v)) !! p.
Proof.
  intros Hw Hcp Hnk. destruct (new_frame_facts cp nk u) as (Ek & Es & _).
  rewrite (store_of_fill_leaf _ nk v p Hw) by congruence.
  rewrite Es. reflexivity.
Qed.

(** Deleting a leaf: its parent goes, its sibling takes the place. *)
Lemma delete_agree_local f nk v p :
  wf h (fill f (Leaf nk v)) ->
  delete (fkey f) (delete nk (store_of (fill f (Leaf nk v)))) !! p =
  store_of (fsib f) !! p.
Proof.
  intros Hw. destruct (decide (p = fkey f)) as [->|Hk].
  { rewrite lookup_delete_eq. symmetry.
    apply (store_of_sibling_None f nk v); [exact Hw | left; reflexivity]. }
  rewrite lookup_delete_ne by congruence.
  destruct (decide (p = nk)) as [->|Hnk].
  { rewrite lookup_delete_eq. symmetry.
    apply (store_of_sibling_None f nk v); [exact Hw | right; reflexivity]. }
  rewrite lookup_delete_ne by congruence.
  apply store_of_fill_leaf; assumption.
Qed.

Lemma delete_wf K f nk v :
  wf h (plug K (fill f (Leaf nk v))) -> wf h (plug K (fsib f)).
Proof.
  intros Hw. pose proof (wf_plug_hole h K _ Hw) as Hwf.
  pose proof (wf_plug_cons h f [] (Leaf nk v) Hwf) as (_ & _ & Hsib & _ & Hws).
  apply (wf_plug_swap h K (fill f (Leaf nk v))); [exact Hw | exact Hws |].
  apply (on_path_weaken K (fkey f)).
  - pose proof (wf_on_path h K _ Hw) as Hp. destruct f; exact Hp.
  - eapply key_prefix_of_ext. exact Hsib.
Qed.

Lemma delete_agree K f nk v p :
  wf h (plug K (fill f (Leaf nk v))) -> p ∉ map fkey K ->
  delete (fkey f) (delete nk (store_of (plug K (fill f (Leaf nk v))))) !! p =
  store_of (plug K (fsib f)) !! p.
Proof.
  intros Hw Hnot. pose proof (wf_plug_hole h K _ Hw) as Hwf.
  pose proof (delete_wf K f nk v Hw) as Hw'.
  pose proof (wf_plug_cons h f [] (Leaf nk v) Hwf) as (_ & Hside & Hsib & _ & Hws).
  simpl in Hside.
  assert (HpathK : on_path K (fkey f)).
  { pose proof (wf_on_path h K _ Hw) as Hp. destruct f; exact Hp. }
  destruct (decide (p = fkey f)) as [->|Hk].
  { rewrite lookup_delete_eq. symmetry.
    rewrite (store_of_plug_in Pedersen Hash h K _ _ Hw' HpathK).
    apply (store_of_sibling_None f nk v); [exact Hwf | left; reflexivity]. }
  rewrite lookup_delete_ne by congruence.
  destruct (decide (p = nk)) as [->|Hnk].
  { rewrite lookup_delete_eq. symmetry.
    rewrite (store_of_plug_in Pedersen Hash h K _ nk Hw').
    - apply (store_of_sibling_None f nk v); [exact Hwf | right; reflexivity].
    - apply (on_path_weaken K (fkey f)); [exact HpathK|].
      eapply key_prefix_of_ext. exact Hside. }
  rewrite lookup_delete_ne by congruence.
  apply (store_of_plug_congr Pedersen Hash h); try assumption.
  apply store_of_fill_leaf; assumption.
Qed.

End TreeUpdates.

(** ** [Put] on a stored tree, case by case *)

Section PutCases.

Variable Pedersen : Felt -> Felt -> Felt.
Variable Hash : Node -> BitSet -> Felt.
Variable h : Z.
Hypothesis Hh : 0 <= h.
Hypothesis Hmod : h < U64.modulus - 1.

Local Abbreviation tnode := (tnode Pedersen Hash).
Local Abbreviation store_of := (store_of Pedersen Hash).
Local Abbreviation spine := (spine Pedersen Hash).
Local Abbreviation cspine := (cspine Pedersen Hash).

Lemma IsZero_false v : v <> 0 -> IsZero v = false.
Proof. intros Hv. unfold IsZero. apply Z.eqb_neq. exact Hv. Qed.

Lemma not_in_skeys C u p :
  p ∉ skeys C u -> (p ∉ map fkey C) /\ p <> tkey u.
Proof.
  unfold skeys. intros Hnot. apply not_elem_of_app in Hnot as [H1 H2].
  split; [exact H1|]. intros ->. apply H2, list_elem_of_singleton. reflexivity.
Qed.

Lemma run_PutOn_replace C nk v0 v hh r l :
  wf h (plug C (Leaf nk v0)) -> v <> 0 ->
  exists evs,
    PutOn Pedersen Hash nk v (spine C (Leaf nk v0))
      (mkT hh r (store_of (plug C (Leaf nk v0))) l) =
    (Ok tt, mkT hh r (store_of (plug C (Leaf nk v))) (l ++ evs)).
Proof.
  intros Hw Hv. unfold PutOn. rewrite spine_cspine, rev_unit.
  cbn [tkey storageNode.key]. rewrite bitset_Equal_refl, (IsZero_false v Hv).
  rewrite rev_involutive.
  apply (propagate_rebuild Pedersen Hash h C (Leaf nk v)).
  - apply (replace_wf h C nk v0 v Hw).
  - apply (stale_spine_same Pedersen Hash C (Leaf nk v0) (Leaf nk v));
      [reflexivity | split; [|split]; reflexivity].
  - intros p Hp. apply not_in_skeys in Hp as [Hp1 Hp2].
    apply (replace_agree Pedersen Hash h); assumption.
Qed.

Lemma run_PutOn_noop C u nk (t : Trie memstore.t) :
  tkey u <> nk ->
  PutOn Pedersen Hash nk 0 (spine C u) t = (Ok tt, t).
Proof.
  intros Hne. unfold PutOn. rewrite spine_cspine, rev_unit.
  cbn [storageNode.key]. rewrite bitset_Equal_neq by congruence. reflexivity.
Qed.

Lemma run_PutOn_insert C u nk v hh l :
  wf h (plug C u) -> canon nk -> bitset.length nk = h -> on_path C nk ->
  ~ key_prefix (tkey u) nk -> v <> 0 ->
  exists evs T',
    PutOn Pedersen Hash nk v (spine C u)
      (mkT hh (Some (tkey (plug C u))) (store_of (plug C u)) l) =
    (Ok tt, mkT hh (Some (tkey T')) (store_of T') (l ++ evs)) /\
    wf h T' /\
    (forall p, bitset.length p = h -> p <> nk ->
       store_of T' !! p = store_of (plug C u) !! p) /\
    store_of T' !! nk = Some (node.mk v None None).
Proof.
  intros Hw Hnk Hlen Hpath Hstop Hv.
  pose proof (wf_plug_hole h C u Hw) as Hwu.
  destruct (wf_tkey h u Hh Hwu) as [Hcu Hule].
  destruct (FindCommonKey_common nk (tkey u) Hnk Hcu ltac:(lia) ltac:(lia))
    as (Hccp & Hpn & Hpu & Hdiff).
  set (cp := fst (FindCommonKey nk (tkey u))) in *.
  assert (Hlt : bitset.length cp < bitset.length (tkey u)).
  { destruct Hpu as [Hle E]. destruct (Z.eq_dec (bitset.length cp) (bitset.length (tkey u)));
      [|lia].
    exfalso. apply Hstop.
    rewrite <- (key_prefix_same_length cp (tkey u) (conj Hle E)) by assumption.
    exact Hpn. }
  specialize (Hdiff Hlt).
  set (fnew := new_frame cp nk u).
  destruct (new_frame_facts cp nk u) as (Ek & Es & Eside). fold fnew in Ek, Es, Eside.
  pose proof (insert_wf_local h Hh cp nk v u Hwu Hnk Hlen Hccp Hpn Hpu Hlt Hdiff)
    as Hwl. fold fnew in Hwl.
  set (T' := plug (C ++ [fnew]) (Leaf nk v)).
  assert (HT' : T' = plug C (fill fnew (Leaf nk v))) by (unfold T'; apply plug_app).
  assert (HwT' : wf h T').
  { rewrite HT'. apply (wf_plug_swap h C u); [exact Hw | exact Hwl |].
    replace (tkey (fill fnew (Leaf nk v))) with cp by (destruct fnew; simpl in *; congruence).
    pose proof (wf_on_path h C u Hw) as Hpu'.
    unfold on_path in *. rewrite Forall_forall in *. intros f Hf.
    apply (common_prefix_greatest cp nk (tkey u)); auto. }
  assert (Hagree : forall p, p ∉ map fkey C -> p <> cp -> p <> nk ->
            store_of (plug C u) !! p = store_of T' !! p).
  { intros p Hp1 Hp2 Hp3. rewrite HT'.
    apply (store_of_plug_congr Pedersen Hash h); try assumption.
    - rewrite <- HT'. exact HwT'.
    - apply (insert_agree_local Pedersen Hash h); assumption. }
  pose (newParent :=
          if bitset.Test nk (U64.sub (U64.sub (bitset.Len nk) (bitset.Len cp)) 1)
          then node.mk 0 (Some (tkey u)) (Some nk)
          else node.mk 0 (Some nk) (Some (tkey u))).
  assert (Hnew : stale Pedersen Hash newParent (fill fnew (Leaf nk v))).
  { unfold newParent. rewrite Test_branch by (destruct Hccp; lia).
    unfold fnew, new_frame. destruct (bit_at nk (bitset.length cp)); simpl;
      (split; [|split]); reflexivity. }
  assert (Hleafst : stale Pedersen Hash (node.mk v None None) (Leaf nk v))
    by (split; [|split]; reflexivity).
  assert (Hrun : exists evs,
            PutOn Pedersen Hash nk v (spine C u)
              (mkT hh (Some (tkey (plug C u))) (store_of (plug C u)) l) =
            (Ok tt, mkT hh (Some (tkey T')) (store_of T') (l ++ evs))).
  { unfold PutOn. rewrite spine_cspine, rev_unit. cbn [storageNode.key].
    rewrite bitset_Equal_neq; cycle 1.
    { intros E. apply Hstop. rewrite <- E. apply key_prefix_refl. }
    rewrite (IsZero_false v Hv). fold cp. fold newParent.
    assert (Hskeys : forall p, p ∉ skeys (C ++ [fnew]) (Leaf nk v) ->
              (p ∉ map fkey C) /\ p <> cp /\ p <> nk).
    { intros p Hp. apply not_in_skeys in Hp as [Hp1 Hp2].
      rewrite map_app in Hp1. apply not_elem_of_app in Hp1 as [Hp1 Hp3].
      split; [exact Hp1|]. split; [|exact Hp2].
      intros ->. apply Hp3. simpl. rewrite Ek. apply list_elem_of_singleton. reflexivity. }
    destruct C as [|g K _] using rev_ind.
    - simpl.
      destruct (propagate_rebuild Pedersen Hash h [fnew] (Leaf nk v)
                  [storageNode.mk cp newParent; storageNode.mk nk (node.mk v None None)]
                  hh (Some (tkey u)) (store_of u) l) as (evs & E).
      + exact HwT'.
      + simpl. split; [symmetry; exact Ek|]. split; [exact Hnew|].
        split; [reflexivity | exact Hleafst].
      + intros p Hp. destruct (Hskeys p Hp) as (Hp1 & Hp2 & Hp3).
        apply (Hagree p Hp1 Hp2 Hp3).
      + exists evs. erewrite run_bind_Ok by exact E.
        unfold setRootKey, trie.set_rootKey, mkT. simpl.
        unfold T'. simpl.
        replace (tkey (fill fnew (Leaf nk v))) with cp
          by (rewrite <- Ek; destruct fnew; reflexivity).
        reflexivity.
    - rewrite (cspine_app Pedersen Hash K [g] u).
      change (cspine [g] u) with [storageNode.mk (fkey g) (tnode (plug [g] u))].
      rewrite rev_unit, rev_involutive.
      pose proof (stale_spine_patch Pedersen Hash h K g u (fill fnew (Leaf nk v))
                    newParent Hw Hnew) as Hst.
      replace (tkey (fill fnew (Leaf nk v))) with cp in Hst
        by (destruct fnew; simpl in *; congruence).
      set (A := cspine K (fill g u)) in *.
      set (P := patch (storageNode.mk (fkey g) (tnode (fill g u))) (tkey u) cp) in *.
      assert (Hst' : stale_spine Pedersen Hash (K ++ [g]) (fill fnew (Leaf nk v))
                       ((A ++ [P]) ++ [storageNode.mk cp newParent]))
        by (rewrite <- app_assoc; exact Hst).
      pose proof (stale_spine_snoc Pedersen Hash (K ++ [g]) fnew (Leaf nk v)
                    (A ++ [P]) (storageNode.mk cp newParent)
                    (storageNode.mk nk (node.mk v None None))
                    Hst' eq_refl Hleafst) as Hst2.
      replace ((A ++ [P]) ++
               [storageNode.mk cp newParent; storageNode.mk nk (node.mk v None None)])
        with (A ++ [P; storageNode.mk cp newParent;
                    storageNode.mk nk (node.mk v None None)]) in Hst2
        by (rewrite <- app_assoc; reflexivity).
      destruct (propagate_rebuild Pedersen Hash h ((K ++ [g]) ++ [fnew]) (Leaf nk v)
                  _ hh (Some (tkey (plug (K ++ [g]) u)))
                  (store_of (plug (K ++ [g]) u)) l HwT' Hst2) as (evs & E).
      + intros p Hp. destruct (Hskeys p Hp) as (Hp1 & Hp2 & Hp3).
        apply (Hagree p Hp1 Hp2 Hp3).
      + exists evs. refine (eq_trans _ (eq_trans E _)); [reflexivity|].
        fold T'. do 3 f_equal. unfold T'.
        destruct K as [|f0 K]; simpl; [destruct g | destruct f0]; reflexivity. }
  destruct Hrun as (evs & Hrun). exists evs, T'.
  split; [exact Hrun|]. split; [exact HwT'|]. split.
  - intros p Hp Hne. symmetry. apply Hagree; [|intros ->; destruct Hccp; lia|exact Hne].
    eapply full_key_not_frame; eassumption.
  - apply (plug_leaf_lookup Pedersen Hash h). exact HwT'.
Qed.

End PutCases.

Section DeleteCase.

Variable Pedersen : Felt -> Felt -> Felt.
Variable Hash : Node -> BitSet -> Felt.
Variable h : Z.
Hypothesis Hh : 0 <= h.

Local Abbreviation tnode := (tnode Pedersen Hash).
Local Abbreviation store_of := (store_of Pedersen Hash).
Local Abbreviation spine := (spine Pedersen Hash).
Local Abbreviation cspine := (cspine Pedersen Hash).

(** The child of the parent that is not the deleted leaf. *)
Lemma sibling_key f nk v :
  wf h (fill f (Leaf nk v)) ->
  (if bitset.EqualPtr (node.left (tnode (fill f (Leaf nk v)))) (Some nk)
   then node.right (tnode (fill f (Leaf nk v)))
   else node.left (tnode (fill f (Leaf nk v)))) = Some (tkey (fsib f)).
Proof.
  intros Hw. destruct f as [k r|k l]; simpl in *.
  - rewrite bitset_Equal_refl. reflexivity.
  - destruct Hw as (_ & Hl & Hr & _ & _).
    rewrite bitset_Equal_neq; [reflexivity|].
    intros E. rewrite E in Hl. exact (ext_disjoint k false _ Hl Hr).
Qed.

Lemma tkey_fill f u : tkey (fill f u) = fkey f.
Proof. destruct f; reflexivity. Qed.

Lemma tkey_plug_snoc K g u u' : tkey (plug (K ++ [g]) u) = tkey (plug (K ++ [g]) u').
Proof. destruct K as [|f0 K]; simpl; [destruct g | destruct f0]; reflexivity. Qed.

(** What a zero write on the leaf at the end of the path [C] leaves: the
    empty trie, or the tree with the leaf's sibling in place of its
    parent. *)
Lemma run_PutOn_delete C nk v0 hh l :
  wf h (plug C (Leaf nk v0)) ->
  exists evs t',
    PutOn Pedersen Hash nk 0 (spine C (Leaf nk v0))
      (mkT hh (Some (tkey (plug C (Leaf nk v0))))
           (store_of (plug C (Leaf nk v0))) l) = (Ok tt, t') /\
    ((C = [] /\ t' = mkT hh None ∅ (l ++ evs)) \/
     exists T',
       t' = mkT hh (Some (tkey T')) (store_of T') (l ++ evs) /\ wf h T' /\
       (forall p, bitset.length p = h -> p <> nk ->
          store_of T' !! p = store_of (plug C (Leaf nk v0)) !! p) /\
       store_of T' !! nk = None).
Proof.
  intros Hw. unfold PutOn. rewrite spine_cspine, rev_unit.
  cbn [tkey storageNode.key]. rewrite bitset_Equal_refl.
  change (IsZero 0) with true. cbv iota. rewrite rev_involutive.
  unfold deleteLast. rewrite rev_unit. cbn [storageNode.key].
  destruct C as [|f K _] using rev_ind.
  - (* the leaf is the root *)
    simpl. eexists _, _. split.
    + erewrite run_bind_Ok by apply run_storageDelete. reflexivity.
    + left. split; [reflexivity|].
      unfold trie.set_rootKey, mkT. simpl. rewrite delete_singleton_eq. reflexivity.
  - rewrite plug_app in *. cbn [plug] in *.
    set (U := fill f (Leaf nk v0)) in *.
    pose proof (wf_plug_hole h K U Hw) as HwU.
    pose proof (wf_plug_cons h f [] (Leaf nk v0) HwU) as (_ & Hside & Hsib & _ & Hws).
    simpl in Hside.
    pose proof (delete_wf h K f nk v0 Hw) as HwT'.
    set (mpre := delete (fkey f) (delete nk (store_of (plug K U)))).
    assert (Hagree : forall p, p ∉ map fkey K ->
              mpre !! p = store_of (plug K (fsib f)) !! p)
      by (intros p Hp; apply (delete_agree Pedersen Hash h); assumption).
    assert (HpathK : on_path K (fkey f)).
    { pose proof (wf_on_path h K U Hw) as Hp. unfold U in Hp.
      rewrite tkey_fill in Hp. exact Hp. }
    assert (Hfacts :
      (forall p, bitset.length p = h -> p <> nk ->
         store_of (plug K (fsib f)) !! p = store_of (plug K U) !! p) /\
      store_of (plug K (fsib f)) !! nk = None).
    { split.
      - intros p Hlen Hne.
        rewrite <- Hagree by (eapply full_key_not_frame; eassumption).
        unfold mpre. rewrite !lookup_delete_ne; [reflexivity|congruence|].
        intros E. rewrite <- E in Hlen.
        apply key_prefix_ext_length in Hsib.
        destruct (wf_tkey h _ Hh Hws) as [_ Hle]. lia.
      - rewrite <- Hagree.
        + unfold mpre. destruct (decide (fkey f = nk)) as [E|Hne].
          * rewrite E. apply lookup_delete_eq.
          * rewrite lookup_delete_ne by exact Hne. apply lookup_delete_eq.
        + apply on_path_not_frame. apply (on_path_weaken K (fkey f)); [exact HpathK|].
          eapply key_prefix_of_ext. exact Hside. }
    rewrite (cspine_app Pedersen Hash K [f] (Leaf nk v0)).
    change (cspine [f] (Leaf nk v0)) with [storageNode.mk (fkey f) (tnode U)].
    change (plug [f] (Leaf nk v0)) with U.
    rewrite rev_unit. cbn [storageNode.key storageNode.node].
    erewrite run_bind_Ok by apply run_storageDelete.
    erewrite run_bind_Ok by apply run_storageDelete.
    fold mpre. pose proof (sibling_key f nk v0 HwU) as Hsk. fold U in Hsk.
    rewrite !Hsk.
    destruct K as [|g K' _] using rev_ind.
    + (* the parent is the root *)
      simpl. exists [memstore.EvDelete nk; memstore.EvDelete (fkey f)].
      eexists. split; [reflexivity|]. right.
      exists (fsib f). split; [|split; [exact Hws | exact Hfacts]].
      unfold setRootKey, trie.set_rootKey, mkT. simpl.
      rewrite <- app_assoc. do 3 f_equal.
      apply map_eq. intros p. apply (Hagree p). apply not_elem_of_nil.
    + rewrite (cspine_app Pedersen Hash K' [g] U).
      change (cspine [g] U) with [storageNode.mk (fkey g) (tnode (plug [g] U))].
      rewrite rev_unit, rev_involutive. cbn [storageNode.key storageNode.node].
      assert (Hget : mpre !! tkey (fsib f) = Some (tnode (fsib f))).
      { rewrite Hagree.
        - rewrite (store_of_plug_in Pedersen Hash h _ _ _ HwT').
          + apply store_of_root.
          + exact (wf_on_path h _ _ HwT').
        - apply on_path_not_frame. exact (wf_on_path h _ _ HwT'). }
      erewrite run_bind_Ok; cycle 1.
      { rewrite run_storageGet, Hget. reflexivity. }
      pose proof (stale_spine_patch Pedersen Hash h K' g U (fsib f)
                    (tnode (fsib f)) Hw (stale_tnode Pedersen Hash (fsib f))) as Hst.
      unfold U in Hst at 3. rewrite tkey_fill in Hst.
      destruct (propagate_rebuild Pedersen Hash h (K' ++ [g]) (fsib f) _ hh
                  (Some (tkey (plug (K' ++ [g]) U))) mpre
                  (((l ++ [memstore.EvDelete nk]) ++ [memstore.EvDelete (fkey f)])
                   ++ [memstore.EvGet (tkey (fsib f))]) HwT' Hst) as (evs & E).
      { intros p Hp. apply not_in_skeys in Hp as [Hp _]. apply Hagree, Hp. }
      exists ([memstore.EvDelete nk; memstore.EvDelete (fkey f);
               memstore.EvGet (tkey (fsib f))] ++ evs).
      eexists. split.
      * refine (eq_trans _ E). reflexivity.
      * right. exists (plug (K' ++ [g]) (fsib f)).
        split; [|split; [exact HwT' | exact Hfacts]].
        rewrite (tkey_plug_snoc K' g U (fsib f)).
        rewrite <- !app_assoc. reflexivity.
Qed.

End DeleteCase.

(** ** The invariant of a trie built by [Put] *)

Section TrieInvariant.

Variable Pedersen : Felt -> Felt -> Felt.
Variable Hash : Node -> BitSet -> Felt.

Local Abbreviation tnode := (tnode Pedersen Hash).
Local Abbreviation store_of := (store_of Pedersen Hash).

(** The trie is empty with an empty store, or its store is exactly the
    store of a well-formed tree whose root key is [rootKey]. *)
Definition TrieInv (h : Z) (t : Trie memstore.t) : Prop :=
  trie.height t = h /\
  ((trie.rootKey t = None /\ memstore.mem (trie.storage t) = ∅) \/
   exists T, wf h T /\ trie.rootKey t = Some (tkey T) /\
             memstore.mem (trie.storage t) = store_of T).

Lemma TrieInv_fresh h : TrieInv h (NewTrie memstore.empty h None).
Proof. split; [reflexivity|]. left. split; reflexivity. Qed.

Lemma canon_full_key h k : 0 <= h -> 0 <= k < 2 ^ h -> canon (bitset.mk h k).
Proof. intros Hh Hk. split; simpl; assumption. Qed.

Lemma IsZero_true v : IsZero v = true <-> v = 0.
Proof. unfold IsZero. apply Z.eqb_eq. Qed.

(** One [Put] on a trie that satisfies the invariant: it returns nil,
    keeps the invariant, sets the leaf at the key (or removes it on a zero
    write) and leaves every other leaf alone; a zero write on a key with no
    leaf changes nothing and only reads. *)
Lemma Put_step h fuel key value (t : Trie memstore.t) :
  0 <= h -> h < U64.modulus - 1 -> TrieInv h t ->
  0 <= key < 2 ^ h -> h < Z.of_nat fuel ->
  exists t',
    Put Pedersen Hash fuel key value t = (Ok tt, t') /\
    TrieInv h t' /\
    memstore.mem (trie.storage t') !! bitset.mk h key =
      (if IsZero value then None else Some (node.mk value None None)) /\
    (forall p, bitset.length p = h -> p <> bitset.mk h key ->
       memstore.mem (trie.storage t') !! p = memstore.mem (trie.storage t) !! p) /\
    (value = 0 -> memstore.mem (trie.storage t) !! bitset.mk h key = None ->
       trie.rootKey t' = trie.rootKey t /\
       memstore.mem (trie.storage t') = memstore.mem (trie.storage t) /\
       exists evs,
         memstore.log (trie.storage t') = memstore.log (trie.storage t) ++ evs /\
         forallb memstore.is_read evs = true).
Proof.
  intros Hh Hmod [Hheight Hinv] Hkey Hfuel.
  rewrite (mkT_eta t) in *. destruct t as [hh r [m l]]. simpl in Hheight, Hinv |- *.
  subst hh. fold (mkT h r m l).
  set (nk := bitset.mk h key).
  assert (Hnk : canon nk) by (apply canon_full_key; assumption).
  assert (Hlen : bitset.length nk = h) by reflexivity.
  destruct Hinv as [[-> ->]|(T & HwT & -> & ->)].
  - (* the empty trie *)
    rewrite Put_fuel_empty by reflexivity.
    destruct (Z.eq_dec value 0) as [->|Hv].
    + exists (mkT h None ∅ l). split; [reflexivity|].
      split; [split; [reflexivity | left; split; reflexivity]|].
      split; [apply lookup_empty|]. split; [reflexivity|].
      intros _ _. split; [reflexivity|]. split; [reflexivity|].
      exists []. simpl. rewrite app_nil_r. split; reflexivity.
    + rewrite run_Put_empty by exact Hv. fold nk. eexists. split; [reflexivity|].
      rewrite (IsZero_false value Hv). simpl.
      split; [|split; [apply lookup_insert_eq|split]].
      * split; [reflexivity|]. right. exists (Leaf nk value).
        split; [split; assumption|]. split; [reflexivity|].
        simpl. apply insert_empty.
      * intros p _ Hne. rewrite lookup_insert_ne by congruence. reflexivity.
      * intros Hv0. contradiction.
  - (* a stored tree *)
    rewrite (Put_nonempty Pedersen Hash fuel key value _ (tkey T)) by reflexivity.
    change (FeltToBitSet _ key) with nk.
    destruct (wf_tkey h T Hh HwT) as [[HT0 _] _].
    destruct (run_nodesFromRootLoop Pedersen Hash h T Hh Hmod HwT fuel nk []
                h (Some (tkey T)) (store_of T) l Hnk Hlen
                (holds_store_of Pedersen Hash T) ltac:(lia)) as (evs1 & E1).
    rewrite app_nil_l in E1.
    pose proof (reads_only_nodesFromRootLoop fuel nk (Some (tkey T)) []
                  (mkT h (Some (tkey T)) (store_of T) l)) as (e1 & Elog & Hreads).
    rewrite E1 in Elog. simpl in Elog. apply app_inv_head in Elog. subst e1.
    erewrite run_bind_Ok by exact E1.
    pose proof (descend_plug nk T) as Hplug.
    pose proof (descend_exts nk T) as Hpath.
    pose proof (descend_stop h nk T Hh HwT Hlen) as Hstop. simpl in Hstop.
    destruct (descend nk T) as [C u]. cbn [fst snd] in *. subst T.
    pose proof (wf_plug_hole h C u HwT) as Hwu.
    destruct (Z.eq_dec value 0) as [->|Hv].
    + change (IsZero 0) with true. cbv iota.
      destruct (decide (tkey u = nk)) as [Eu|Hne].
      * (* zero write on an existing leaf *)
        destruct u as [k v0|k lt rt]; simpl in Eu.
        2:{ pose proof (wf_Bin_length h k lt rt Hh Hwu). subst k. simpl in *. lia. }
        subst k.
        destruct (run_PutOn_delete Pedersen Hash h Hh C nk v0 h (l ++ evs1) HwT)
          as (evs & t' & E & Hcases).
        exists t'. split; [exact E|].
        destruct Hcases as [[-> ->]|(T' & -> & HwT' & Hother & Hnone)]; simpl.
        -- split; [split; [reflexivity | left; split; reflexivity]|].
           split; [apply lookup_empty|]. split.
           ++ intros p _ Hp. rewrite lookup_empty. symmetry.
              apply lookup_singleton_ne. congruence.
           ++ intros _ Habs. rewrite lookup_singleton_eq in Habs. discriminate.
        -- split; [split; [reflexivity | right; exists T'; auto]|].
           split; [exact Hnone|]. split; [exact Hother|].
           intros _ Habs. rewrite (plug_leaf_lookup Pedersen Hash h C nk v0 HwT) in Habs.
           discriminate.
      * (* zero write on a key with no leaf *)
        rewrite (run_PutOn_noop Pedersen Hash C u nk _ Hne).
        eexists. split; [reflexivity|]. simpl.
        assert (Hnone : store_of (plug C u) !! nk = None).
        { rewrite (store_of_plug_in Pedersen Hash h C u nk HwT Hpath).
          destruct (store_of u !! nk) as [n|] eqn:En; [|reflexivity]. exfalso.
          destruct Hstop as [|Hstop]; [contradiction|].
          apply Hstop. eapply store_of_under; eassumption. }
        split; [split; [reflexivity | right; exists (plug C u); auto]|].
        split; [exact Hnone|]. split; [reflexivity|].
        intros _ _. split; [reflexivity|]. split; [reflexivity|].
        exists evs1. split; [reflexivity | exact Hreads].
    + rewrite (IsZero_false value Hv).
      destruct (decide (tkey u = nk)) as [Eu|Hne].
      * (* overwriting a leaf *)
        destruct u as [k v0|k lt rt]; simpl in Eu.
        2:{ pose proof (wf_Bin_length h k lt rt Hh Hwu). subst k. simpl in *. lia. }
        subst k.
        destruct (run_PutOn_replace Pedersen Hash h C nk v0 value h
                    (Some (tkey (plug C (Leaf nk v0)))) (l ++ evs1) HwT Hv)
          as (evs & E).
        eexists. split; [exact E|]. simpl.
        pose proof (replace_wf h C nk v0 value HwT) as HwT'.
        split; [|split; [|split]].
        -- split; [reflexivity|]. right. exists (plug C (Leaf nk value)).
           split; [exact HwT'|]. split; [|reflexivity].
           simpl. f_equal. apply tkey_plug_same. reflexivity.
        -- apply (plug_leaf_lookup Pedersen Hash h). exact HwT'.
        -- intros p Hp Hpne. symmetry.
           apply (replace_agree Pedersen Hash h); try assumption.
           exact (full_key_not_frame h Hh C _ p HwT Hp).
        -- intros Hv0. contradiction.
      * (* a new leaf *)
        destruct Hstop as [|Hstop]; [contradiction|].
        destruct (run_PutOn_insert Pedersen Hash h Hh Hmod C u nk value h
                    (l ++ evs1) HwT Hnk Hlen Hpath Hstop Hv)
          as (evs & T' & E & HwT' & Hother & Hleaf).
        eexists. split; [exact E|]. simpl.
        split; [split; [reflexivity | right; exists T'; auto]|].
        split; [exact Hleaf|]. split; [exact Hother|].
        intros Hv0. contradiction.
Qed.

End TrieInvariant.

(** ** The stored tree is determined by its leaves *)

Section Canonical.

Variable Pedersen : Felt -> Felt -> Felt.
Variable Hash : Node -> BitSet -> Felt.
Variable h : Z.
Hypothesis Hh : 0 <= h.

Local Abbreviation tnode := (tnode Pedersen Hash).
Local Abbreviation store_of := (store_of Pedersen Hash).

(** A leaf node stored at a full-length key. *)
Definition is_leaf_of (T : tree) (p : BitSet) : Prop :=
  bitset.length p = h /\ canon p /\ exists v, store_of T !! p = Some (node.mk v None None).

(** Two trees with the same leaves. *)
Definition same_leaves (T1 T2 : tree) : Prop :=
  forall p, bitset.length p = h -> canon p -> store_of T1 !! p = store_of T2 !! p.

Lemma has_leaf T : wf h T -> exists p, is_leaf_of T p.
Proof.
  induction T as [k v|k l IHl r IHr]; intros Hw.
  - destruct Hw as [Hlen Hc]. exists k. split; [exact Hlen|]. split; [exact Hc|].
    exists v. simpl. apply lookup_singleton_eq.
  - pose proof Hw as (_ & _ & _ & Hwl & _).
    destruct (IHl Hwl) as (p & Hlen & Hc & v & Hp).
    exists p. split; [exact Hlen|]. split; [exact Hc|]. exists v.
    destruct (holds_Bin Pedersen Hash h (store_of (Bin k l r)) k l r Hw
                (holds_store_of Pedersen Hash _)) as [Hl _].
    apply Hl, Hp.
Qed.

Lemma leaf_under T p : wf h T -> is_leaf_of T p -> key_prefix (tkey T) p.
Proof. intros Hw (_ & _ & v & Hp). eapply store_of_under; eassumption. Qed.

Lemma leaf_of_left k l r p :
  wf h (Bin k l r) -> is_leaf_of l p ->
  is_leaf_of (Bin k l r) p /\ key_prefix (ext k false) p.
Proof.
  intros Hw (Hlen & Hc & v & Hp).
  destruct (holds_Bin Pedersen Hash h (store_of (Bin k l r)) k l r Hw
              (holds_store_of Pedersen Hash _)) as [Hl _].
  destruct Hw as (_ & Hpl & _ & Hwl & _).
  split.
  - split; [exact Hlen|]. split; [exact Hc|]. exists v. apply Hl, Hp.
  - eapply key_prefix_trans; [exact Hpl|]. eapply store_of_under; eassumption.
Qed.

Lemma leaf_of_right k l r p :
  wf h (Bin k l r) -> is_leaf_of r p ->
  is_leaf_of (Bin k l r) p /\ key_prefix (ext k true) p.
Proof.
  intros Hw (Hlen & Hc & v & Hp).
  destruct (holds_Bin Pedersen Hash h (store_of (Bin k l r)) k l r Hw
              (holds_store_of Pedersen Hash _)) as [_ Hr].
  destruct Hw as (_ & _ & Hpr & _ & Hwr).
  split.
  - split; [exact Hlen|]. split; [exact Hc|]. exists v. apply Hr, Hp.
  - eapply key_prefix_trans; [exact Hpr|]. eapply store_of_under; eassumption.
Qed.

Lemma same_leaves_leaf T1 T2 p :
  same_leaves T1 T2 -> is_leaf_of T1 p -> is_leaf_of T2 p.
Proof.
  intros Hs (Hlen & Hc & v & Hp). split; [exact Hlen|]. split; [exact Hc|].
  exists v. rewrite <- (Hs p Hlen Hc). exact Hp.
Qed.

(** A key with leaves on both sides below it is no longer than the key of
    a node above both. *)
Lemma branch_key_le k a b k' :
  key_prefix (ext k false) a -> key_prefix (ext k true) b ->
  key_prefix k' a -> key_prefix k' b ->
  bitset.length k' <= bitset.length k.
Proof.
  intros Ha Hb Ha' Hb'.
  destruct (Z.le_gt_cases (bitset.length k') (bitset.length k)) as [|Hgt];
    [assumption|].
  exfalso. apply (ext_disjoint k false k').
  - eapply key_prefix_comparable; [exact Ha | exact Ha' | simpl; lia].
  - eapply key_prefix_comparable; [exact Hb | exact Hb' | simpl; lia].
Qed.

Lemma same_leaves_children k l1 r1 l2 r2 :
  wf h (Bin k l1 r1) -> wf h (Bin k l2 r2) ->
  same_leaves (Bin k l1 r1) (Bin k l2 r2) ->
  same_leaves l1 l2 /\ same_leaves r1 r2.
Proof.
  intros Hw1 Hw2 Hs.
  pose proof (wf_Bin_length h k l1 r1 Hh Hw1) as Hk.
  assert (Hroute : forall p, bitset.length p = h -> canon p ->
            (if key_prefixb (ext k false) p then store_of l1 !! p else store_of r1 !! p) =
            (if key_prefixb (ext k false) p then store_of l2 !! p else store_of r2 !! p)).
  { intros p Hlen Hc. specialize (Hs p Hlen Hc).
    rewrite !(store_of_route Pedersen Hash h) in Hs;
      try assumption; intros ->; lia. }
  destruct Hw1 as (_ & Hl1 & Hr1 & Hwl1 & Hwr1).
  destruct Hw2 as (_ & Hl2 & Hr2 & Hwl2 & Hwr2).
  assert (Hnone : forall (c : tree) (b : bool) p,
            wf h c -> key_prefix (ext k b) (tkey c) ->
            ~ key_prefix (ext k b) p -> store_of c !! p = None).
  { intros c b p Hwc Hc Hp. destruct (store_of c !! p) as [n|] eqn:E; [|reflexivity].
    exfalso. apply Hp. eapply key_prefix_trans; [exact Hc|].
    eapply store_of_under; eassumption. }
  split; intros p Hlen Hc; specialize (Hroute p Hlen Hc);
    destruct (key_prefixb (ext k false) p) eqn:E.
  - exact Hroute.
  - apply key_prefixb_false in E.
    rewrite (Hnone l1 false p), (Hnone l2 false p); auto.
  - apply key_prefixb_spec in E.
    assert (Hp : ~ key_prefix (ext k true) p)
      by (intros Hp; exact (ext_disjoint k false p E Hp)).
    rewrite (Hnone r1 true p), (Hnone r2 true p); auto.
  - exact Hroute.
Qed.

(** Two well-formed trees with the same leaves are the same tree. *)
Lemma same_leaves_eq T1 : forall T2,
  wf h T1 -> wf h T2 -> same_leaves T1 T2 -> T1 = T2.
Proof.
  induction T1 as [k1 v1|k1 l1 IHl r1 IHr]; intros T2 Hw1 Hw2 Hs.
  - destruct Hw1 as [Hlen1 Hc1].
    pose proof (Hs k1 Hlen1 Hc1) as Hk. simpl in Hk. rewrite lookup_singleton_eq in Hk.
    destruct T2 as [k2 v2|k2 l2 r2].
    + simpl in Hk. symmetry in Hk.
      apply lookup_singleton_Some in Hk as [-> [= ->]]. reflexivity.
    + exfalso. pose proof Hw2 as (_ & _ & _ & Hwl2 & Hwr2).
      destruct (has_leaf l2 Hwl2) as (a & Ha). destruct (has_leaf r2 Hwr2) as (b & Hb).
      destruct (leaf_of_left k2 l2 r2 a Hw2 Ha) as [Ha2 Hpa].
      destruct (leaf_of_right k2 l2 r2 b Hw2 Hb) as [Hb2 Hpb].
      assert (Hsym : same_leaves (Bin k2 l2 r2) (Leaf k1 v1))
        by (intros p Hl Hc; symmetry; apply Hs; assumption).
      destruct (same_leaves_leaf _ _ a Hsym Ha2) as (_ & _ & va & Hva).
      destruct (same_leaves_leaf _ _ b Hsym Hb2) as (_ & _ & vb & Hvb).
      simpl in Hva, Hvb.
      apply lookup_singleton_Some in Hva as [<- _].
      apply lookup_singleton_Some in Hvb as [<- _].
      exact (ext_disjoint k2 false k1 Hpa Hpb).
  - pose proof Hw1 as (_ & _ & _ & Hwl1 & Hwr1).
    destruct (has_leaf l1 Hwl1) as (a & Ha). destruct (has_leaf r1 Hwr1) as (b & Hb).
    destruct (leaf_of_left k1 l1 r1 a Hw1 Ha) as [Ha1 Hpa].
    destruct (leaf_of_right k1 l1 r1 b Hw1 Hb) as [Hb1 Hpb].
    pose proof (same_leaves_leaf _ _ a Hs Ha1) as Ha2.
    pose proof (same_leaves_leaf _ _ b Hs Hb1) as Hb2.
    destruct T2 as [k2 v2|k2 l2 r2].
    + exfalso. destruct Ha2 as (_ & _ & va & Hva). destruct Hb2 as (_ & _ & vb & Hvb).
      simpl in Hva, Hvb.
      apply lookup_singleton_Some in Hva as [<- _].
      apply lookup_singleton_Some in Hvb as [<- _].
      exact (ext_disjoint k1 false k2 Hpa Hpb).
    + pose proof Hw2 as (_ & _ & _ & Hwl2 & Hwr2).
      destruct (has_leaf l2 Hwl2) as (a' & Ha'). destruct (has_leaf r2 Hwr2) as (b' & Hb').
      destruct (leaf_of_left k2 l2 r2 a' Hw2 Ha') as [Ha2' Hpa'].
      destruct (leaf_of_right k2 l2 r2 b' Hw2 Hb') as [Hb2' Hpb'].
      assert (Hsym : same_leaves (Bin k2 l2 r2) (Bin k1 l1 r1))
        by (intros p Hl Hc; symmetry; apply Hs; assumption).
      pose proof (same_leaves_leaf _ _ a' Hsym Ha2') as Ha1'.
      pose proof (same_leaves_leaf _ _ b' Hsym Hb2') as Hb1'.
      assert (Hle21 : bitset.length k2 <= bitset.length k1).
      { apply (branch_key_le k1 a b k2 Hpa Hpb).
        - apply (leaf_under (Bin k2 l2 r2) a Hw2 Ha2).
        - apply (leaf_under (Bin k2 l2 r2) b Hw2 Hb2). }
      assert (Hle12 : bitset.length k1 <= bitset.length k2).
      { apply (branch_key_le k2 a' b' k1 Hpa' Hpb').
        - apply (leaf_under (Bin k1 l1 r1) a' Hw1 Ha1').
        - apply (leaf_under (Bin k1 l1 r1) b' Hw1 Hb1'). }
      assert (Ek : k1 = k2).
      { apply key_prefix_same_length; [|lia].
        eapply key_prefix_comparable; [| |exact Hle12].
        - eapply key_prefix_of_ext. exact Hpa.
        - apply (leaf_under (Bin k2 l2 r2) a Hw2 Ha2). }
      subst k2.
      destruct (same_leaves_children k1 l1 r1 l2 r2 Hw1 Hw2 Hs) as [Hsl Hsr].
      rewrite (IHl l2 Hwl1 Hwl2 Hsl), (IHr r2 Hwr1 Hwr2 Hsr). reflexivity.
Qed.

End Canonical.

(** ** Sequences of operations on a fresh trie *)

(** The value of the last write to [k] in a run of writes, if any. *)
Fixpoint last_write (ops : list (Felt * Felt)) (k : Felt) : option Felt :=
  match ops with
  | [] => None
  | (k', v) :: ops' =>
      match last_write ops' k with
      | Some v' => Some v'
      | None => if k' =? k then Some v else None
      end
  end.

(** What [Get] is to return after a run of writes: the last value written
    to the key when it is non-zero, the store's not-found error otherwise. *)
Definition expected_Get (ops : list (Felt * Felt)) (k : Felt) : result Felt :=
  match last_write ops k with
  | Some v => if IsZero v then Err ErrKeyNotFound else Ok v
  | None => Err ErrKeyNotFound
  end.

(** The keys of the writes fit the height of the trie. *)
Definition keys_fit (h : Z) (ops : list (Felt * Felt)) : Prop :=
  Forall (fun op => 0 <= fst op < 2 ^ h) ops.

(** A caller's operation: a write or a read. *)
Inductive op : Type :=
| OpPut (key value : Felt)
| OpGet (key : Felt).

Definition op_fits (h : Z) (o : op) : Prop :=
  match o with
  | OpPut key _ => 0 <= key < 2 ^ h
  | OpGet _ => True
  end.

(** The trie after an operation, whatever it returned. *)
Definition runOp (Pedersen : Felt -> Felt -> Felt) (Hash : Node -> BitSet -> Felt)
    (fuel : nat) (t : Trie memstore.t) (o : op) : Trie memstore.t :=
  match o with
  | OpPut key value => snd (Put Pedersen Hash fuel key value t)
  | OpGet key => snd (Get key t)
  end.

Definition runOps (Pedersen : Felt -> Felt -> Felt) (Hash : Node -> BitSet -> Felt)
    (fuel : nat) (ops : list op) (t : Trie memstore.t) : Trie memstore.t :=
  fold_left (runOp Pedersen Hash fuel) ops t.

(** The keys of the store that the links lead to from [rootKey]. *)
Inductive reachable (t : Trie memstore.t) : BitSet -> Prop :=
| reach_root r : trie.rootKey t = Some r -> reachable t r
| reach_left p n c :
    reachable t p -> memstore.mem (trie.storage t) !! p = Some n ->
    node.left n = Some c -> reachable t c
| reach_right p n c :
    reachable t p -> memstore.mem (trie.storage t) !! p = Some n ->
    node.right n = Some c -> reachable t c.

Section Sequences.

Variable Pedersen : Felt -> Felt -> Felt.
Variable Hash : Node -> BitSet -> Felt.
Variable h : Z.
Hypothesis Hh : 0 <= h.
Hypothesis Hmod : h < U64.modulus - 1.
Variable fuel : nat.
Hypothesis Hfuel : h < Z.of_nat fuel.

Local Abbreviation store_of := (store_of Pedersen Hash).

(** The leaf stored for a value, none for zero. *)
Definition leaf_for (w : option Felt) : option Node :=
  match w with
  | Some v => if IsZero v then None else Some (node.mk v None None)
  | None => None
  end.

Lemma PutAll_spec ops : forall t,
  TrieInv Pedersen Hash h t -> keys_fit h ops ->
  exists t',
    PutAll Pedersen Hash fuel ops t = (Ok tt, t') /\
    TrieInv Pedersen Hash h t' /\
    forall x, 0 <= x < 2 ^ h ->
      memstore.mem (trie.storage t') !! bitset.mk h x =
      match last_write ops x with
      | Some v => leaf_for (Some v)
      | None => memstore.mem (trie.storage t) !! bitset.mk h x
      end.
Proof.
  induction ops as [|[k v] ops IH]; intros t Hinv Hfit.
  - exists t. split; [reflexivity|]. split; [exact Hinv|]. intros x _. reflexivity.
  - apply Forall_cons_1 in Hfit as [Hk Hfit]. simpl in Hk.
    destruct (Put_step Pedersen Hash h fuel k v t Hh Hmod Hinv Hk Hfuel)
      as (t1 & E1 & Hinv1 & Hleaf & Hother & _).
    destruct (IH t1 Hinv1 Hfit) as (t' & E' & Hinv' & Hlook).
    exists t'. split; [|split; [exact Hinv'|]].
    + cbn [PutAll]. erewrite run_bind_Ok by exact E1. exact E'.
    + intros x Hx. rewrite (Hlook x Hx). cbn [last_write].
      destruct (last_write ops x) as [v'|]; [reflexivity|].
      destruct (Z.eqb_spec k x) as [->|Hne].
      * rewrite Hleaf. reflexivity.
      * apply Hother; [reflexivity|]. intros [= E]. congruence.
Qed.

Lemma run_Get key (t : Trie memstore.t) :
  trie.height t = h ->
  fst (Get key t) =
  match memstore.mem (trie.storage t) !! bitset.mk h key with
  | Some n => Ok (node.value n)
  | None => Err ErrKeyNotFound
  end /\
  trie.height (snd (Get key t)) = trie.height t /\
  trie.rootKey (snd (Get key t)) = trie.rootKey t /\
  memstore.mem (trie.storage (snd (Get key t))) = memstore.mem (trie.storage t).
Proof.
  intros Hheight. destruct t as [hh r [m l]].
  simpl in Hheight. subst hh. unfold Get, bind, storageGet. simpl.
  unfold memstore.Get. simpl.
  change (FeltToBitSet _ key) with (bitset.mk h key).
  destruct (m !! bitset.mk h key); simpl; repeat split; reflexivity.
Qed.

Lemma store_of_balanced T p n : store_of T !! p = Some n -> node.balanced n.
Proof.
  revert p n. induction T as [k v|k l IHl r IHr]; intros p n Hp; simpl in Hp.
  - apply lookup_singleton_Some in Hp as [_ <-]. apply balanced_leaf.
  - apply lookup_insert_Some in Hp as [[_ <-]|[_ Hp]]; [apply balanced_both|].
    apply lookup_union_Some_raw in Hp as [Hp|[_ Hp]]; eauto.
Qed.

Lemma TrieInv_balanced t p n :
  TrieInv Pedersen Hash h t ->
  memstore.mem (trie.storage t) !! p = Some n -> node.balanced n.
Proof.
  intros [_ [[_ Hm]|(T & _ & _ & Hm)]] Hp; rewrite Hm in Hp.
  - rewrite lookup_empty in Hp. discriminate.
  - eapply store_of_balanced. exact Hp.
Qed.

Lemma runOps_inv ops : forall t,
  TrieInv Pedersen Hash h t -> Forall (op_fits h) ops ->
  TrieInv Pedersen Hash h (runOps Pedersen Hash fuel ops t).
Proof.
  induction ops as [|o ops IH]; intros t Hinv Hfit; [exact Hinv|].
  apply Forall_cons_1 in Hfit as [Ho Hfit]. cbn [runOps fold_left].
  apply IH; [|exact Hfit]. destruct o as [key value|key]; simpl in *.
  - destruct (Put_step Pedersen Hash h fuel key value t Hh Hmod Hinv Ho Hfuel)
      as (t1 & E1 & Hinv1 & _). rewrite E1. exact Hinv1.
  - destruct Hinv as [Hheight Hinv].
    destruct (run_Get key t Hheight) as (_ & Eh & Er & Em).
    split; [congruence|]. rewrite Er, Em. exact Hinv.
Qed.

(** [Root] reads [rootKey] and the node stored at it. *)
Lemma run_Root (t : Trie memstore.t) :
  fst (Root Hash t) =
  match trie.rootKey t with
  | None => Ok 0
  | Some rk =>
      match memstore.mem (trie.storage t) !! rk with
      | Some n => Ok (Hash n (Path rk None))
      | None => Err ErrKeyNotFound
      end
  end.
Proof.
  destruct t as [hh r [m l]]. unfold Root.
  cbn [trie.rootKey trie.storage memstore.mem]. destruct r as [rk|]; [|reflexivity].
  unfold bind, storageGet. simpl. unfold memstore.Get. simpl.
  destruct (m !! rk); reflexivity.
Qed.

(** Two tries that satisfy the invariant and hold the same leaves are the
    same trie, up to the log of their stores. *)
Lemma TrieInv_same_leaves t1 t2 :
  TrieInv Pedersen Hash h t1 -> TrieInv Pedersen Hash h t2 ->
  (forall x, 0 <= x < 2 ^ h ->
     memstore.mem (trie.storage t1) !! bitset.mk h x =
     memstore.mem (trie.storage t2) !! bitset.mk h x) ->
  trie.rootKey t1 = trie.rootKey t2 /\
  memstore.mem (trie.storage t1) = memstore.mem (trie.storage t2).
Proof.
  intros [_ H1] [_ H2] Hsame.
  assert (Hfull : forall p, bitset.length p = h -> canon p ->
            memstore.mem (trie.storage t1) !! p = memstore.mem (trie.storage t2) !! p).
  { intros [lp sp] Hl [_ Hs]. simpl in *. subst lp. apply Hsame. exact Hs. }
  assert (Hleaf : forall T, wf h T -> exists p, bitset.length p = h /\ canon p /\
            store_of T !! p <> None).
  { intros T Hw. destruct (has_leaf Pedersen Hash h T Hw) as (p & Hl & Hc & v & Hp).
    exists p. split; [exact Hl|]. split; [exact Hc|]. congruence. }
  destruct H1 as [[Hr1 Hm1]|(T1 & Hw1 & Hr1 & Hm1)],
           H2 as [[Hr2 Hm2]|(T2 & Hw2 & Hr2 & Hm2)].
  - split; congruence.
  - exfalso. destruct (Hleaf T2 Hw2) as (p & Hl & Hc & Hp).
    apply Hp. rewrite <- Hm2, <- (Hfull p Hl Hc), Hm1. apply lookup_empty.
  - exfalso. destruct (Hleaf T1 Hw1) as (p & Hl & Hc & Hp).
    apply Hp. rewrite <- Hm1, (Hfull p Hl Hc), Hm2. apply lookup_empty.
  - assert (E : T1 = T2).
    { apply (same_leaves_eq Pedersen Hash h Hh); try assumption.
      intros p Hl Hc. rewrite <- Hm1, <- Hm2. apply Hfull; assumption. }
    subst T2. split; congruence.
Qed.

End Sequences.

(** ** Writes with distinct keys *)

Lemma last_write_In ops x v : last_write ops x = Some v -> In (x, v) ops.
Proof.
  induction ops as [|[k' v'] ops IH]; simpl; [discriminate|].
  destruct (last_write ops x) as [w|].
  - intros [= ->]. right. apply IH. reflexivity.
  - destruct (Z.eqb_spec k' x) as [->|]; [|discriminate].
    intros [= ->]. left. reflexivity.
Qed.

Lemma last_write_None ops x : last_write ops x = None -> ~ In x (map fst ops).
Proof.
  induction ops as [|[k' v'] ops IH]; simpl; [tauto|].
  destruct (last_write ops x) as [w|]; [discriminate|].
  destruct (Z.eqb_spec k' x) as [|Hne]; [discriminate|].
  intros _ [E|Hin]; [contradiction | exact (IH eq_refl Hin)].
Qed.

Lemma distinct_keys_value (ops : list (Felt * Felt)) x v v' :
  NoDup (map fst ops) -> In (x, v) ops -> In (x, v') ops -> v = v'.
Proof.
  induction ops as [|[k w] ops IH]; simpl; [tauto|].
  intros Hnd. apply NoDup_cons in Hnd as [Hk Hnd].
  intros [[= -> ->]|H1] [[= E]|H2].
  - congruence.
  - exfalso. apply Hk. apply list_elem_of_In.
    change x with (fst (x, v')). apply in_map, H2.
  - subst. exfalso. apply Hk. apply list_elem_of_In.
    change x with (fst (x, v)). apply in_map, H1.
  - apply IH; assumption.
Qed.

Lemma last_write_permutation ops1 ops2 x :
  NoDup (map fst ops1) -> Permutation ops1 ops2 ->
  last_write ops1 x = last_write ops2 x.
Proof.
  intros Hnd Hperm.
  destruct (last_write ops1 x) as [v1|] eqn:E1, (last_write ops2 x) as [v2|] eqn:E2;
    try reflexivity.
  - f_equal. apply (distinct_keys_value ops1 x); [exact Hnd| |].
    + apply last_write_In, E1.
    + apply (Permutation_in _ (Permutation_sym Hperm)), last_write_In, E2.
  - exfalso. apply (last_write_None ops2 x E2).
    change x with (fst (x, v1)). apply in_map.
    apply (Permutation_in _ Hperm), last_write_In, E1.
  - exfalso. apply (last_write_None ops1 x E1).
    change x with (fst (x, v2)). apply in_map.
    apply (Permutation_in _ (Permutation_sym Hperm)), last_write_In, E2.
Qed.

(** ** The trie theorems *)

(** C1: after any run of [Put]s on a fresh trie, each of which returns
    nil, [Get k] returns the last value written to [k] when that value is
    not zero, and the store's not-found error when [k] was never written or
    its last write was zero. *)
Theorem Get_returns_last_write (Pedersen : Felt -> Felt -> Felt)
    (Hash : Node -> BitSet -> Felt) (h : Z) (fuel : nat)
    (ops : list (Felt * Felt)) (k : Felt) :
  height_ok h -> h < Z.of_nat fuel -> keys_fit h ops -> 0 <= k < 2 ^ h ->
  let r := PutAll Pedersen Hash fuel ops (NewTrie memstore.empty h None) in
  fst r = Ok tt /\ fst (Get k (snd r)) = expected_Get ops k.
Proof.
  intros Hok Hfuel Hfit Hk r. subst r.
  destruct (height_ok_uint h Hok) as [Hh Hmod].
  destruct (PutAll_spec Pedersen Hash h Hh Hmod fuel Hfuel ops _
              (TrieInv_fresh Pedersen Hash h) Hfit) as (t' & E & [Hheight Hinv] & Hlook).
  rewrite E. cbn [fst snd]. split; [reflexivity|].
  destruct (run_Get h k t' Hheight) as (-> & _).
  rewrite (Hlook k Hk). unfold expected_Get.
  destruct (last_write ops k) as [v|]; simpl.
  - destruct (IsZero v); reflexivity.
  - rewrite lookup_empty. reflexivity.
Qed.

Lemma Get_returns_last_write_witness :
  let ops := [(5, 7); (4, 9); (5, 0); (1, 3); (4, 8)] in
  let r := PutAll examplePedersen exampleHash 4 ops (NewTrie memstore.empty 3 None) in
  (expected_Get ops 4 = Ok 8 /\ expected_Get ops 5 = Err ErrKeyNotFound) /\
  (fst r = Ok tt /\ fst (Get 4 (snd r)) = expected_Get ops 4) /\
  (fst r = Ok tt /\ fst (Get 5 (snd r)) = expected_Get ops 5).
Proof.
  intros ops r. split; [split; reflexivity|].
  assert (Hok : height_ok 3) by (unfold height_ok; lia).
  assert (Hfit : keys_fit 3 ops)
    by (unfold ops; repeat constructor; simpl; lia).
  split.
  - apply (Get_returns_last_write examplePedersen exampleHash 3 4 ops 4 Hok);
      [simpl; lia | exact Hfit | lia].
  - apply (Get_returns_last_write examplePedersen exampleHash 3 4 ops 5 Hok);
      [simpl; lia | exact Hfit | lia].
Defined.

(** C3: after any run of [Put] and [Get] operations on a fresh trie,
    every node of the store that is reachable from [rootKey] has both child
    keys or neither. *)
Theorem reachable_nodes_balanced (Pedersen : Felt -> Felt -> Felt)
    (Hash : Node -> BitSet -> Felt) (h : Z) (fuel : nat) (ops : list op) :
  height_ok h -> h < Z.of_nat fuel -> Forall (op_fits h) ops ->
  let t := runOps Pedersen Hash fuel ops (NewTrie memstore.empty h None) in
  forall p n,
    reachable t p -> memstore.mem (trie.storage t) !! p = Some n ->
    node.balanced n.
Proof.
  intros Hok Hfuel Hfit t p n _ Hp.
  destruct (height_ok_uint h Hok) as [Hh Hmod].
  apply (TrieInv_balanced Pedersen Hash h t p n); [|exact Hp].
  apply (runOps_inv Pedersen Hash h Hh Hmod fuel Hfuel);
    [apply TrieInv_fresh | exact Hfit].
Qed.

Lemma reachable_nodes_balanced_witness :
  let ops := [OpPut 5 7; OpPut 4 9; OpGet 4; OpPut 1 3; OpPut 4 0; OpGet 4] in
  let t := runOps examplePedersen exampleHash 4 ops (NewTrie memstore.empty 3 None) in
  let root := bitset.mk 0 0 in
  reachable t root /\
  exists n, memstore.mem (trie.storage t) !! root = Some n /\
            node.left n = Some (bitset.mk 3 1) /\ node.right n = Some (bitset.mk 3 5) /\
            node.balanced n.
Proof.
  intros ops t root.
  assert (Hr : reachable t root) by (apply reach_root; vm_compute; reflexivity).
  split; [exact Hr|].
  assert (Hn : exists n, memstore.mem (trie.storage t) !! root = Some n /\
                 node.left n = Some (bitset.mk 3 1) /\
                 node.right n = Some (bitset.mk 3 5)).
  { eexists. split; [vm_compute; reflexivity|]. split; reflexivity. }
  destruct Hn as (n & Hn & Hl & Hrn). exists n.
  split; [exact Hn|]. split; [exact Hl|]. split; [exact Hrn|].
  apply (reachable_nodes_balanced examplePedersen exampleHash 3 4 ops) with (p := root).
  - unfold height_ok. lia.
  - simpl. lia.
  - unfold ops. repeat constructor; simpl; lia.
  - exact Hr.
  - exact Hn.
Defined.

(** C7: on a trie built by [Put]s, [Put k 0] on the empty trie, or on a
    key with no leaf, is a no-op: it returns nil, only reads the store,
    leaves the store content and [rootKey] as they were, and [Root] returns
    what it returned before. *)
Theorem Put_zero_noop (Pedersen : Felt -> Felt -> Felt)
    (Hash : Node -> BitSet -> Felt) (h : Z) (fuel : nat)
    (ops : list (Felt * Felt)) (k : Felt) :
  height_ok h -> h < Z.of_nat fuel -> keys_fit h ops -> 0 <= k < 2 ^ h ->
  let t := snd (PutAll Pedersen Hash fuel ops (NewTrie memstore.empty h None)) in
  trie.rootKey t = None \/
  memstore.mem (trie.storage t) !! FeltToBitSet t k = None ->
  let r := Put Pedersen Hash fuel k 0 t in
  fst r = Ok tt /\
  trie.rootKey (snd r) = trie.rootKey t /\
  memstore.mem (trie.storage (snd r)) = memstore.mem (trie.storage t) /\
  (exists evs,
     memstore.log (trie.storage (snd r)) = memstore.log (trie.storage t) ++ evs /\
     forallb memstore.is_read evs = true) /\
  fst (Root Hash (snd r)) = fst (Root Hash t).
Proof.
  intros Hok Hfuel Hfit Hk t Hnone r.
  destruct (height_ok_uint h Hok) as [Hh Hmod].
  destruct (PutAll_spec Pedersen Hash h Hh Hmod fuel Hfuel ops _
              (TrieInv_fresh Pedersen Hash h) Hfit) as (t' & E & Hinv & _).
  assert (Et : t = t') by (unfold t; rewrite E; reflexivity).
  clearbody t. subst t'.
  destruct (Put_step Pedersen Hash h fuel k 0 t Hh Hmod Hinv Hk Hfuel)
    as (t1 & E1 & _ & _ & _ & Hnoop).
  assert (Hleaf : memstore.mem (trie.storage t) !! bitset.mk h k = None).
  { destruct Hinv as [Hheight Hinv]. destruct Hnone as [Hr|Hl].
    - destruct Hinv as [[_ Hm]|(T & _ & Hr' & _)]; [|congruence].
      rewrite Hm. apply lookup_empty.
    - unfold FeltToBitSet, bitset.FromWithLength in Hl. rewrite Hheight in Hl. exact Hl. }
  destruct (Hnoop eq_refl Hleaf) as (Hr & Hm & Hlog).
  subst r. rewrite E1. cbn [fst snd].
  split; [reflexivity|]. split; [exact Hr|]. split; [exact Hm|]. split; [exact Hlog|].
  rewrite !run_Root, Hr, Hm. reflexivity.
Qed.

Lemma Put_zero_noop_witness :
  let t := snd (PutAll examplePedersen exampleHash 4 [(5, 7); (4, 9)]
                  (NewTrie memstore.empty 3 None)) in
  let r := Put examplePedersen exampleHash 4 1 0 t in
  memstore.mem (trie.storage t) !! FeltToBitSet t 1 = None /\
  trie.rootKey t = Some (bitset.mk 2 2) /\
  fst r = Ok tt /\
  trie.rootKey (snd r) = trie.rootKey t /\
  memstore.mem (trie.storage (snd r)) = memstore.mem (trie.storage t) /\
  (exists evs,
     memstore.log (trie.storage (snd r)) = memstore.log (trie.storage t) ++ evs /\
     forallb memstore.is_read evs = true) /\
  fst (Root exampleHash (snd r)) = fst (Root exampleHash t).
Proof.
  intros t r.
  assert (Hnone : memstore.mem (trie.storage t) !! FeltToBitSet t 1 = None)
    by (vm_compute; reflexivity).
  split; [exact Hnone|]. split; [vm_compute; reflexivity|].
  apply (Put_zero_noop examplePedersen exampleHash 3 4 [(5, 7); (4, 9)] 1).
  - unfold height_ok. lia.
  - simpl. lia.
  - repeat constructor; simpl; lia.
  - lia.
  - right. exact Hnone.
Defined.

(** C8: two runs of [Put]s on a fresh trie that write the same
    (key, value) pairs, with distinct keys, in two orders both succeed and
    end with the same [Root] value. *)
Theorem Root_permutation_invariant (Pedersen : Felt -> Felt -> Felt)
    (Hash : Node -> BitSet -> Felt) (h : Z) (fuel : nat)
    (ops1 ops2 : list (Felt * Felt)) :
  height_ok h -> h < Z.of_nat fuel -> keys_fit h ops1 ->
  Forall (fun op => snd op <> 0) ops1 ->
  NoDup (map fst ops1) -> Permutation ops1 ops2 ->
  let r1 := PutAll Pedersen Hash fuel ops1 (NewTrie memstore.empty h None) in
  let r2 := PutAll Pedersen Hash fuel ops2 (NewTrie memstore.empty h None) in
  fst r1 = Ok tt /\ fst r2 = Ok tt /\
  exists c, fst (Root Hash (snd r1)) = Ok c /\ fst (Root Hash (snd r2)) = Ok c.
Proof.
  intros Hok Hfuel Hfit1 _ Hnd Hperm r1 r2. subst r1 r2.
  destruct (height_ok_uint h Hok) as [Hh Hmod].
  assert (Hfit2 : keys_fit h ops2).
  { unfold keys_fit in *. rewrite Forall_forall in *. intros o Ho.
    apply Hfit1. apply list_elem_of_In. apply list_elem_of_In in Ho.
    exact (Permutation_in _ (Permutation_sym Hperm) Ho). }
  destruct (PutAll_spec Pedersen Hash h Hh Hmod fuel Hfuel ops1 _
              (TrieInv_fresh Pedersen Hash h) Hfit1) as (t1 & E1 & Hinv1 & Hlook1).
  destruct (PutAll_spec Pedersen Hash h Hh Hmod fuel Hfuel ops2 _
              (TrieInv_fresh Pedersen Hash h) Hfit2) as (t2 & E2 & Hinv2 & Hlook2).
  rewrite E1, E2. cbn [fst snd]. split; [reflexivity|]. split; [reflexivity|].
  destruct (TrieInv_same_leaves Pedersen Hash h Hh t1 t2 Hinv1 Hinv2) as [Hr Hm].
  { intros x Hx. rewrite (Hlook1 x Hx), (Hlook2 x Hx).
    rewrite (last_write_permutation ops1 ops2 x Hnd Hperm). reflexivity. }
  rewrite !run_Root, Hr, Hm.
  destruct Hinv2 as [_ [[Hr2 _]|(T & _ & Hr2 & Hm2)]]; rewrite Hr2.
  - exists 0. split; reflexivity.
  - rewrite Hm2, store_of_root. eexists. split; reflexivity.
Qed.

Lemma Root_permutation_invariant_witness :
  let ops1 := [(5, 7); (4, 9); (1, 3)] in
  let ops2 := [(1, 3); (5, 7); (4, 9)] in
  let r1 := PutAll examplePedersen exampleHash 4 ops1 (NewTrie memstore.empty 3 None) in
  let r2 := PutAll examplePedersen exampleHash 4 ops2 (NewTrie memstore.empty 3 None) in
  fst r1 = Ok tt /\ fst r2 = Ok tt /\
  exists c, fst (Root exampleHash (snd r1)) = Ok c /\
            fst (Root exampleHash (snd r2)) = Ok c.
Proof.
  intros ops1 ops2.
  apply (Root_permutation_invariant examplePedersen exampleHash 3 4 ops1 ops2).
  - unfold height_ok. lia.
  - simpl. lia.
  - unfold ops1. repeat constructor; simpl; lia.
  - unfold ops1. repeat constructor; simpl; lia.
  - unfold ops1. simpl.
    repeat (apply NoDup_cons; split;
            [rewrite list_elem_of_In; simpl; lia|]).
    apply NoDup_nil. exact I.
  - unfold ops1, ops2.
    apply (Permutation_cons_app [(1, 3)] [(4, 9)] (5, 7)).
    apply (Permutation_cons_app [(1, 3)] [] (4, 9)).
    apply Permutation_refl.
Defined.

(** * The shape of the store *)

Section StoreShape.

Variable Pedersen : Felt -> Felt -> Felt.
Variable Hash : Node -> BitSet -> Felt.
Variable h : Z.
Hypothesis Hh : 0 <= h.

Local Abbreviation tnode := (tnode Pedersen Hash).
Local Abbreviation store_of := (store_of Pedersen Hash).
Local Abbreviation holds := (holds Pedersen Hash).

Lemma holds_trans m t u : holds m t -> holds (store_of t) u -> holds m u.
Proof. intros Hm Hu p n Hp. apply Hm, Hu, Hp. Qed.

(** Every node of a tree's store is the node of one of its subtrees. *)
Lemma store_of_node T p n :
  wf h T -> store_of T !! p = Some n ->
  exists u, wf h u /\ tkey u = p /\ n = tnode u /\ holds (store_of T) u.
Proof.
  induction T as [k v|k l IHl r IHr]; intros Hw Hp.
  - simpl in Hp. apply lookup_singleton_Some in Hp as [<- <-].
    exists (Leaf k v). split; [exact Hw|]. split; [reflexivity|].
    split; [reflexivity|]. intros q m Hq. exact Hq.
  - assert (Hself : holds (store_of (Bin k l r)) (Bin k l r))
      by (intros q m Hq; exact Hq).
    destruct (holds_Bin Pedersen Hash h _ k l r Hw Hself) as [Hl Hr].
    pose proof Hw as (_ & _ & _ & Hwl & Hwr).
    simpl in Hp. apply lookup_insert_Some in Hp as [[<- <-]|[Hne Hp]].
    + exists (Bin k l r). split; [exact Hw|]. split; [reflexivity|].
      split; [reflexivity|]. exact Hself.
    + apply lookup_union_Some_raw in Hp as [Hp|[_ Hp]].
      * destruct (IHl Hwl Hp) as (u & Hwu & Hk & Hn & Hu).
        exists u. split; [exact Hwu|]. split; [exact Hk|]. split; [exact Hn|].
        exact (holds_trans _ l u Hl Hu).
      * destruct (IHr Hwr Hp) as (u & Hwu & Hk & Hn & Hu).
        exists u. split; [exact Hwu|]. split; [exact Hk|]. split; [exact Hn|].
        exact (holds_trans _ r u Hr Hu).
Qed.

(** The same, for a trie that satisfies the invariant. *)
Lemma TrieInv_node (t : Trie memstore.t) p n :
  TrieInv Pedersen Hash h t ->
  memstore.mem (trie.storage t) !! p = Some n ->
  exists u, wf h u /\ tkey u = p /\ n = tnode u /\
            holds (memstore.mem (trie.storage t)) u.
Proof.
  intros [_ [[_ Hm]|(T & Hw & _ & Hm)]] Hp; rewrite Hm in Hp |- *.
  - rewrite lookup_empty in Hp. discriminate.
  - exact (store_of_node T p n Hw Hp).
Qed.

(** The keys of a subtree that the store holds are reached from its root. *)
Lemma reachable_subtree (t : Trie memstore.t) u :
  wf h u -> holds (memstore.mem (trie.storage t)) u -> reachable t (tkey u) ->
  forall p n, store_of u !! p = Some n -> reachable t p.
Proof.
  induction u as [k v|k l IHl r IHr]; intros Hw Hm Hreach p n Hp.
  - simpl in Hp. apply lookup_singleton_Some in Hp as [<- _]. exact Hreach.
  - destruct (holds_Bin Pedersen Hash h _ k l r Hw Hm) as [Hl Hr].
    pose proof (holds_root Pedersen Hash _ _ Hm) as Hk. cbn [tkey] in Hk, Hreach.
    pose proof Hw as (_ & _ & _ & Hwl & Hwr).
    simpl in Hp. apply lookup_insert_Some in Hp as [[<- _]|[_ Hp]]; [exact Hreach|].
    apply lookup_union_Some_raw in Hp as [Hp|[_ Hp]].
    + apply (IHl Hwl Hl) with (n := n); [|exact Hp].
      exact (reach_left t k _ (tkey l) Hreach Hk eq_refl).
    + apply (IHr Hwr Hr) with (n := n); [|exact Hp].
      exact (reach_right t k _ (tkey r) Hreach Hk eq_refl).
Qed.

End StoreShape.

(** A key that extends another one: what [FindCommonKey] returns. *)
Lemma FindCommonKey_prefix p k :
  canon p -> canon k -> key_prefix k p ->
  bitset.length p < U64.modulus - 1 ->
  FindCommonKey p k = (k, true).
Proof.
  intros Hp Hk Hpre Hm.
  pose proof Hpre as [Hle _]. pose proof Hk as [Hk0 _].
  pose proof (FindCommonKey_subset p k Hp Hk Hle Hm) as Hflag.
  apply key_prefixb_spec in Hpre. rewrite Hpre in Hflag.
  rewrite FindCommonKey_value in Hflag |- * by (unfold bitset.Len; lia).
  cbn [snd] in Hflag. rewrite Hflag. apply Z.eqb_eq in Hflag.
  rewrite Hflag, Z.sub_diag, Z.shiftr_0_r. unfold bitset.Len.
  destruct k; reflexivity.
Qed.

(** The tries that a run of operations builds from a fresh trie satisfy
    the invariant. *)
Lemma runOps_fresh_inv (Pedersen : Felt -> Felt -> Felt)
    (Hash : Node -> BitSet -> Felt) (h : Z) (fuel : nat) (ops : list op) :
  height_ok h -> h < Z.of_nat fuel -> Forall (op_fits h) ops ->
  TrieInv Pedersen Hash h
    (runOps Pedersen Hash fuel ops (NewTrie memstore.empty h None)).
Proof.
  intros Hok Hfuel Hfit. destruct (height_ok_uint h Hok) as [Hh Hmod].
  apply (runOps_inv Pedersen Hash h Hh Hmod fuel Hfuel);
    [apply TrieInv_fresh | exact Hfit].
Qed.

(** A run of writes and reads used in the examples: a trie of height 3
    that ends with the leaves 1, 5 and 6. *)
Definition exampleOps : list op :=
  [OpPut 5 7; OpPut 4 9; OpGet 4; OpPut 1 3; OpPut 6 2; OpPut 4 0; OpGet 4].

Abbreviation exampleTrie :=
  (runOps examplePedersen exampleHash 4 exampleOps (NewTrie memstore.empty 3 None)).

Abbreviation exampleMem := (memstore.mem (trie.storage exampleTrie)).

(** The side conditions of the examples: the height, the fuel and the
    range of the keys. *)
Ltac example_side :=
  first [ unfold height_ok; lia
        | unfold exampleOps; repeat constructor; simpl; lia
        | simpl; lia ].

(** ** What the store holds after any run of operations *)

(** X1: after any run of [Put] and [Get] operations on a fresh trie, every
    stored node that has children holds the commitment of its children: both
    children are in the store, and the node's value is the Pedersen hash of
    the two children's hashes, each taken under the child's path relative to
    the node. *)
Theorem stored_value_commits_children (Pedersen : Felt -> Felt -> Felt)
    (Hash : Node -> BitSet -> Felt) (h : Z) (fuel : nat) (ops : list op) :
  height_ok h -> h < Z.of_nat fuel -> Forall (op_fits h) ops ->
  let t := runOps Pedersen Hash fuel ops (NewTrie memstore.empty h None) in
  forall p n l r,
    memstore.mem (trie.storage t) !! p = Some n ->
    node.left n = Some l -> node.right n = Some r ->
    exists nl nr,
      memstore.mem (trie.storage t) !! l = Some nl /\
      memstore.mem (trie.storage t) !! r = Some nr /\
      node.value n =
        Pedersen (Hash nl (Path l (Some p))) (Hash nr (Path r (Some p))).
Proof.
  intros Hok Hfuel Hfit t p n l r Hp Hl Hr.
  pose proof (runOps_fresh_inv Pedersen Hash h fuel ops Hok Hfuel Hfit) as Hinv.
  fold t in Hinv.
  destruct (TrieInv_node Pedersen Hash h t p n Hinv Hp) as (u & Hwu & Hk & Hn & Hu).
  destruct u as [k v|k lt rt]; subst n; simpl in Hl, Hr; [discriminate|].
  injection Hl as <-. injection Hr as <-. simpl in Hk. subst k.
  destruct (holds_Bin Pedersen Hash h _ _ lt rt Hwu Hu) as [Hlt Hrt].
  exists (tnode Pedersen Hash lt), (tnode Pedersen Hash rt).
  split; [exact (holds_root Pedersen Hash _ lt Hlt)|].
  split; [exact (holds_root Pedersen Hash _ rt Hrt)|]. reflexivity.
Qed.

Lemma stored_value_commits_children_witness :
  exists n nl nr,
    exampleMem !! bitset.mk 1 1 = Some n /\
    node.left n = Some (bitset.mk 3 5) /\ node.right n = Some (bitset.mk 3 6) /\
    exampleMem !! bitset.mk 3 5 = Some nl /\ exampleMem !! bitset.mk 3 6 = Some nr /\
    node.value n =
      examplePedersen (exampleHash nl (Path (bitset.mk 3 5) (Some (bitset.mk 1 1))))
                      (exampleHash nr (Path (bitset.mk 3 6) (Some (bitset.mk 1 1)))).
Proof.
  pose proof (stored_value_commits_children examplePedersen exampleHash 3 4 exampleOps
                ltac:(example_side) ltac:(example_side) ltac:(example_side)) as Hthm.
  cbv zeta in Hthm.
  assert (Hn : exists n, exampleMem !! bitset.mk 1 1 = Some n /\
                 node.left n = Some (bitset.mk 3 5) /\
                 node.right n = Some (bitset.mk 3 6)).
  { eexists. split; [vm_compute; reflexivity|]. split; reflexivity. }
  destruct Hn as (n & Hn & Hl & Hr).
  destruct (Hthm (bitset.mk 1 1) n (bitset.mk 3 5) (bitset.mk 3 6) Hn Hl Hr)
    as (nl & nr & Hnl & Hnr & Hv).
  exists n, nl, nr.
  split; [exact Hn|]. split; [exact Hl|]. split; [exact Hr|].
  split; [exact Hnl|]. split; [exact Hnr|]. exact Hv.
Defined.

(** X2: after any run of operations on a fresh trie, the child keys of a
    stored node extend the node's key: [FindCommonKey] of a child key and
    the node's key returns the node's key and [true], and the bit that the
    descent tests to choose a side is 0 in the left child's key and 1 in the
    right child's key. *)
Theorem child_keys_extend_parent (Pedersen : Felt -> Felt -> Felt)
    (Hash : Node -> BitSet -> Felt) (h : Z) (fuel : nat) (ops : list op) :
  height_ok h -> h < Z.of_nat fuel -> Forall (op_fits h) ops ->
  let t := runOps Pedersen Hash fuel ops (NewTrie memstore.empty h None) in
  forall p n c side,
    memstore.mem (trie.storage t) !! p = Some n ->
    (if side : bool then node.right n else node.left n) = Some c ->
    bitset.Len p < bitset.Len c /\
    FindCommonKey c p = (p, true) /\
    bitset.Test c (U64.sub (U64.sub (bitset.Len c) (bitset.Len p)) 1) = side.
Proof.
  intros Hok Hfuel Hfit t p n c side Hp Hc.
  destruct (height_ok_uint h Hok) as [Hh Hmod].
  pose proof (runOps_fresh_inv Pedersen Hash h fuel ops Hok Hfuel Hfit) as Hinv.
  fold t in Hinv.
  destruct (TrieInv_node Pedersen Hash h t p n Hinv Hp) as (u & Hwu & Hk & Hn & _).
  destruct u as [k v|k lt rt]; subst n;
    [destruct side; simpl in Hc; discriminate|].
  simpl in Hk. subst k. destruct Hwu as (Hcp & Hl & Hr & Hwl & Hwr).
  assert (Hside : exists u, wf h u /\ tkey u = c /\ key_prefix (ext p side) c).
  { destruct side; simpl in Hc; injection Hc as <-;
      [exists rt | exists lt]; (split; [assumption|]); split;
      try reflexivity; assumption. }
  destruct Hside as (u & Hwu & <- & Hext).
  destruct (wf_tkey h u Hh Hwu) as [Hcu Hlen].
  pose proof (key_prefix_ext_length _ _ _ Hext) as Hlt.
  pose proof Hcp as [Hp0 _].
  unfold bitset.Len. split; [exact Hlt|]. split.
  - apply FindCommonKey_prefix; [exact Hcu | exact Hcp | | lia].
    exact (key_prefix_of_ext _ _ _ Hext).
  - pose proof (Test_branch (tkey u) p) as Ht. unfold bitset.Len in Ht.
    rewrite Ht by (unfold U64.modulus in *; lia).
    exact (key_prefix_ext_bit _ _ _ Hext).
Qed.

Lemma child_keys_extend_parent_witness :
  exists n,
    exampleMem !! bitset.mk 1 1 = Some n /\ node.right n = Some (bitset.mk 3 6) /\
    bitset.Len (bitset.mk 1 1) < bitset.Len (bitset.mk 3 6) /\
    FindCommonKey (bitset.mk 3 6) (bitset.mk 1 1) = (bitset.mk 1 1, true) /\
    bitset.Test (bitset.mk 3 6)
      (U64.sub (U64.sub (bitset.Len (bitset.mk 3 6)) (bitset.Len (bitset.mk 1 1))) 1)
    = true.
Proof.
  pose proof (child_keys_extend_parent examplePedersen exampleHash 3 4 exampleOps
                ltac:(example_side) ltac:(example_side) ltac:(example_side)) as Hthm.
  cbv zeta in Hthm.
  assert (Hn : exists n, exampleMem !! bitset.mk 1 1 = Some n /\
                 node.right n = Some (bitset.mk 3 6)).
  { eexists. split; [vm_compute; reflexivity|]. reflexivity. }
  destruct Hn as (n & Hn & Hr). exists n.
  split; [exact Hn|]. split; [exact Hr|].
  exact (Hthm (bitset.mk 1 1) n (bitset.mk 3 6) true Hn Hr).
Defined.

(** X3: after any run of operations on a fresh trie, the store holds no
    orphan: every stored node is reached from [rootKey] by following child
    links. *)
Theorem stored_nodes_reachable (Pedersen : Felt -> Felt -> Felt)
    (Hash : Node -> BitSet -> Felt) (h : Z) (fuel : nat) (ops : list op) :
  height_ok h -> h < Z.of_nat fuel -> Forall (op_fits h) ops ->
  let t := runOps Pedersen Hash fuel ops (NewTrie memstore.empty h None) in
  forall p n, memstore.mem (trie.storage t) !! p = Some n -> reachable t p.
Proof.
  intros Hok Hfuel Hfit t p n Hp.
  pose proof (runOps_fresh_inv Pedersen Hash h fuel ops Hok Hfuel Hfit) as Hinv.
  fold t in Hinv.
  destruct Hinv as [_ [[_ Hm]|(T & Hw & Hr & Hm)]].
  - rewrite Hm, lookup_empty in Hp. discriminate.
  - apply (reachable_subtree Pedersen Hash h t T Hw) with (n := n).
    + rewrite Hm. intros q m Hq. exact Hq.
    + apply reach_root. exact Hr.
    + rewrite <- Hm. exact Hp.
Qed.

Lemma stored_nodes_reachable_witness :
  exists n, exampleMem !! bitset.mk 3 6 = Some n /\
            reachable exampleTrie (bitset.mk 3 6).
Proof.
  pose proof (stored_nodes_reachable examplePedersen exampleHash 3 4 exampleOps
                ltac:(example_side) ltac:(example_side) ltac:(example_side)) as Hthm.
  cbv zeta in Hthm.
  assert (Hn : exists n, exampleMem !! bitset.mk 3 6 = Some n).
  { eexists. vm_compute. reflexivity. }
  destruct Hn as (n & Hn). exists n. split; [exact Hn|].
  exact (Hthm (bitset.mk 3 6) n Hn).
Defined.

(** X4: after any run of operations on a fresh trie, every stored key has
    no bit at or above its length; a node without children sits at a key of
    length exactly [height], and a node with children at a shorter key. *)
Theorem stored_keys_depth (Pedersen : Felt -> Felt -> Felt)
    (Hash : Node -> BitSet -> Felt) (h : Z) (fuel : nat) (ops : list op) :
  height_ok h -> h < Z.of_nat fuel -> Forall (op_fits h) ops ->
  let t := runOps Pedersen Hash fuel ops (NewTrie memstore.empty h None) in
  forall p n,
    memstore.mem (trie.storage t) !! p = Some n ->
    0 <= bitset.set p < 2 ^ bitset.Len p /\
    match node.left n with
    | Some _ => 0 <= bitset.Len p < trie.height t
    | None => bitset.Len p = trie.height t
    end.
Proof.
  intros Hok Hfuel Hfit t p n Hp.
  destruct (height_ok_uint h Hok) as [Hh Hmod].
  pose proof (runOps_fresh_inv Pedersen Hash h fuel ops Hok Hfuel Hfit) as Hinv.
  fold t in Hinv.
  destruct (TrieInv_node Pedersen Hash h t p n Hinv Hp) as (u & Hwu & Hk & Hn & _).
  destruct Hinv as [-> _].
  destruct (wf_tkey _ u Hh Hwu) as [[Hlen Hset] _]. rewrite Hk in Hlen, Hset.
  unfold bitset.Len. split; [exact Hset|].
  destruct u as [k v|k lt rt]; subst n; simpl in *; subst k.
  - destruct Hwu as [Hl _]. exact Hl.
  - split; [exact Hlen|]. exact (wf_Bin_length _ p lt rt Hh Hwu).
Qed.

Lemma stored_keys_depth_witness :
  exists n, exampleMem !! bitset.mk 1 1 = Some n /\
            node.left n = Some (bitset.mk 3 5) /\
            0 <= bitset.Len (bitset.mk 1 1) < trie.height exampleTrie.
Proof.
  pose proof (stored_keys_depth examplePedersen exampleHash 3 4 exampleOps
                ltac:(example_side) ltac:(example_side) ltac:(example_side)) as Hthm.
  cbv zeta in Hthm.
  assert (Hn : exists n, exampleMem !! bitset.mk 1 1 = Some n /\
                 node.left n = Some (bitset.mk 3 5)).
  { eexists. split; [vm_compute; reflexivity|]. reflexivity. }
  destruct Hn as (n & Hn & Hl). exists n.
  split; [exact Hn|]. split; [exact Hl|].
  pose proof (proj2 (Hthm (bitset.mk 1 1) n Hn)) as Hd.
  rewrite Hl in Hd. exact Hd.
Defined.

(** X5: after any run of operations on a fresh trie, [rootKey] is a prefix
    of every stored key: [FindCommonKey] of a stored key and [rootKey]
    returns [rootKey] and [true]. *)
Theorem rootKey_prefix_of_stored_keys (Pedersen : Felt -> Felt -> Felt)
    (Hash : Node -> BitSet -> Felt) (h : Z) (fuel : nat) (ops : list op) :
  height_ok h -> h < Z.of_nat fuel -> Forall (op_fits h) ops ->
  let t := runOps Pedersen Hash fuel ops (NewTrie memstore.empty h None) in
  forall rk p n,
    trie.rootKey t = Some rk ->
    memstore.mem (trie.storage t) !! p = Some n ->
    FindCommonKey p rk = (rk, true).
Proof.
  intros Hok Hfuel Hfit t rk p n Hrk Hp.
  destruct (height_ok_uint h Hok) as [Hh Hmod].
  pose proof (runOps_fresh_inv Pedersen Hash h fuel ops Hok Hfuel Hfit) as Hinv.
  fold t in Hinv.
  destruct (TrieInv_node Pedersen Hash h t p n Hinv Hp) as (u & Hwu & Hk & _).
  destruct (wf_tkey _ u Hh Hwu) as [Hcp Hlen]. rewrite Hk in Hcp, Hlen.
  destruct Hinv as [_ [[Hr _]|(T & Hw & Hr & Hm)]]; [congruence|].
  rewrite Hr in Hrk. injection Hrk as <-.
  destruct (wf_tkey _ T Hh Hw) as [Hct _].
  apply FindCommonKey_prefix; [exact Hcp | exact Hct | | lia].
  rewrite Hm in Hp. exact (store_of_under Pedersen Hash h T p n Hw Hp).
Qed.

Lemma rootKey_prefix_of_stored_keys_witness :
  trie.rootKey exampleTrie = Some (bitset.mk 0 0) /\
  FindCommonKey (bitset.mk 3 6) (bitset.mk 0 0) = (bitset.mk 0 0, true).
Proof.
  pose proof (rootKey_prefix_of_stored_keys examplePedersen exampleHash 3 4 exampleOps
                ltac:(example_side) ltac:(example_side) ltac:(example_side)) as Hthm.
  cbv zeta in Hthm.
  assert (Hr : trie.rootKey exampleTrie = Some (bitset.mk 0 0))
    by (vm_compute; reflexivity).
  assert (Hn : exists n, exampleMem !! bitset.mk 3 6 = Some n).
  { eexists. vm_compute. reflexivity. }
  destruct Hn as (n & Hn). split; [exact Hr|].
  exact (Hthm (bitset.mk 0 0) (bitset.mk 3 6) n Hr Hn).
Defined.

(** ** How writes compose *)

(** The non-zero value that a run of writes leaves at a key, if any. *)
Definition current_value (ops : list (Felt * Felt)) (k : Felt) : option Felt :=
  match last_write ops k with
  | Some v => if IsZero v then None else Some v
  | None => None
  end.

Lemma leaf_for_current ops x :
  leaf_for (last_write ops x) =
  option_map (fun v => node.mk v None None) (current_value ops x).
Proof.
  unfold leaf_for, current_value.
  destruct (last_write ops x) as [v|]; [|reflexivity].
  destruct (IsZero v); reflexivity.
Qed.

(** The leaves of a trie built by a run of writes on a fresh trie. *)
Lemma PutAll_fresh_leaves (Pedersen : Felt -> Felt -> Felt)
    (Hash : Node -> BitSet -> Felt) (h : Z) (fuel : nat)
    (ops : list (Felt * Felt)) :
  height_ok h -> h < Z.of_nat fuel -> keys_fit h ops ->
  exists t,
    PutAll Pedersen Hash fuel ops (NewTrie memstore.empty h None) = (Ok tt, t) /\
    TrieInv Pedersen Hash h t /\
    forall x, 0 <= x < 2 ^ h ->
      memstore.mem (trie.storage t) !! bitset.mk h x =
      option_map (fun v => node.mk v None None) (current_value ops x).
Proof.
  intros Hok Hfuel Hfit. destruct (height_ok_uint h Hok) as [Hh Hmod].
  destruct (PutAll_spec Pedersen Hash h Hh Hmod fuel Hfuel ops _
              (TrieInv_fresh Pedersen Hash h) Hfit) as (t & E & Hinv & Hlook).
  exists t. split; [exact E|]. split; [exact Hinv|].
  intros x Hx. rewrite (Hlook x Hx), <- leaf_for_current.
  destruct (last_write ops x); [reflexivity|]. simpl. apply lookup_empty.
Qed.

(** X6: the trie that a run of [Put]s builds from a fresh trie depends only
    on the non-zero value each key ends with: two runs that leave the same
    values, whatever they overwrote or deleted on the way, both succeed and
    end with the same [rootKey], the same store content and the same
    [Root]. *)
Theorem final_trie_depends_on_current_values (Pedersen : Felt -> Felt -> Felt)
    (Hash : Node -> BitSet -> Felt) (h : Z) (fuel : nat)
    (ops1 ops2 : list (Felt * Felt)) :
  height_ok h -> h < Z.of_nat fuel -> keys_fit h ops1 -> keys_fit h ops2 ->
  (forall x, 0 <= x < 2 ^ h -> current_value ops1 x = current_value ops2 x) ->
  let r1 := PutAll Pedersen Hash fuel ops1 (NewTrie memstore.empty h None) in
  let r2 := PutAll Pedersen Hash fuel ops2 (NewTrie memstore.empty h None) in
  fst r1 = Ok tt /\ fst r2 = Ok tt /\
  trie.rootKey (snd r1) = trie.rootKey (snd r2) /\
  memstore.mem (trie.storage (snd r1)) = memstore.mem (trie.storage (snd r2)) /\
  fst (Root Hash (snd r1)) = fst (Root Hash (snd r2)).
Proof.
  intros Hok Hfuel Hfit1 Hfit2 Hsame r1 r2. subst r1 r2.
  destruct (height_ok_uint h Hok) as [Hh _].
  destruct (PutAll_fresh_leaves Pedersen Hash h fuel ops1 Hok Hfuel Hfit1)
    as (t1 & E1 & Hinv1 & Hl1).
  destruct (PutAll_fresh_leaves Pedersen Hash h fuel ops2 Hok Hfuel Hfit2)
    as (t2 & E2 & Hinv2 & Hl2).
  rewrite E1, E2. cbn [fst snd].
  destruct (TrieInv_same_leaves Pedersen Hash h Hh t1 t2 Hinv1 Hinv2) as [Hr Hm].
  { intros x Hx. rewrite (Hl1 x Hx), (Hl2 x Hx), (Hsame x Hx). reflexivity. }
  split; [reflexivity|]. split; [reflexivity|].
  split; [exact Hr|]. split; [exact Hm|].
  rewrite !run_Root, Hr, Hm. reflexivity.
Qed.

Lemma final_trie_depends_on_current_values_witness :
  let ops1 := [(5, 7); (4, 9); (5, 0); (1, 3); (4, 8); (2, 0)] in
  let ops2 := [(4, 8); (1, 3)] in
  let r1 := PutAll examplePedersen exampleHash 4 ops1 (NewTrie memstore.empty 3 None) in
  let r2 := PutAll examplePedersen exampleHash 4 ops2 (NewTrie memstore.empty 3 None) in
  fst r1 = Ok tt /\ fst r2 = Ok tt /\
  trie.rootKey (snd r1) = trie.rootKey (snd r2) /\
  memstore.mem (trie.storage (snd r1)) = memstore.mem (trie.storage (snd r2)) /\
  fst (Root exampleHash (snd r1)) = fst (Root exampleHash (snd r2)).
Proof.
  intros ops1 ops2.
  apply (final_trie_depends_on_current_values examplePedersen exampleHash 3 4 ops1 ops2).
  - unfold height_ok. lia.
  - simpl. lia.
  - unfold ops1. repeat constructor; simpl; lia.
  - unfold ops2. repeat constructor; simpl; lia.
  - intros x Hx.
    assert (Hcases : x = 0 \/ x = 1 \/ x = 2 \/ x = 3 \/ x = 4 \/ x = 5 \/
                     x = 6 \/ x = 7) by lia.
    destruct Hcases as [->|[->|[->|[->|[->|[->|[->| ->]]]]]]]; reflexivity.
Defined.

(** X7: on a trie built by any run of operations, writing a value to a key
    that has no leaf and then writing zero to that key restores the trie:
    both calls return nil, and [rootKey], the store content and [Root] are
    what they were before the two calls. *)
Theorem Put_then_delete_restores (Pedersen : Felt -> Felt -> Felt)
    (Hash : Node -> BitSet -> Felt) (h : Z) (fuel : nat) (ops : list op)
    (k v : Felt) :
  height_ok h -> h < Z.of_nat fuel -> Forall (op_fits h) ops ->
  0 <= k < 2 ^ h ->
  let t := runOps Pedersen Hash fuel ops (NewTrie memstore.empty h None) in
  memstore.mem (trie.storage t) !! FeltToBitSet t k = None ->
  let r1 := Put Pedersen Hash fuel k v t in
  let r2 := Put Pedersen Hash fuel k 0 (snd r1) in
  fst r1 = Ok tt /\ fst r2 = Ok tt /\
  trie.rootKey (snd r2) = trie.rootKey t /\
  memstore.mem (trie.storage (snd r2)) = memstore.mem (trie.storage t) /\
  fst (Root Hash (snd r2)) = fst (Root Hash t).
Proof.
  intros Hok Hfuel Hfit Hk t Hnone r1 r2. subst r1 r2.
  destruct (height_ok_uint h Hok) as [Hh Hmod].
  pose proof (runOps_fresh_inv Pedersen Hash h fuel ops Hok Hfuel Hfit) as Hinv.
  fold t in Hinv. clearbody t.
  assert (Hleaf : memstore.mem (trie.storage t) !! bitset.mk h k = None).
  { destruct Hinv as [Hheight _]. unfold FeltToBitSet, bitset.FromWithLength in Hnone.
    rewrite Hheight in Hnone. exact Hnone. }
  destruct (Put_step Pedersen Hash h fuel k v t Hh Hmod Hinv Hk Hfuel)
    as (t1 & E1 & Hinv1 & _ & Hother1 & _).
  destruct (Put_step Pedersen Hash h fuel k 0 t1 Hh Hmod Hinv1 Hk Hfuel)
    as (t2 & E2 & Hinv2 & Hleaf2 & Hother2 & _).
  rewrite E1. cbn [fst snd]. rewrite E2. cbn [fst snd].
  destruct (TrieInv_same_leaves Pedersen Hash h Hh t2 t Hinv2 Hinv) as [Hr Hm].
  { intros x Hx. destruct (Z.eq_dec x k) as [->|Hne].
    - rewrite Hleaf2, Hleaf. reflexivity.
    - rewrite Hother2, Hother1; try reflexivity; intros [= E]; contradiction. }
  split; [reflexivity|]. split; [reflexivity|].
  split; [exact Hr|]. split; [exact Hm|].
  rewrite !run_Root, Hr, Hm. reflexivity.
Qed.

Lemma Put_then_delete_restores_witness :
  let t := exampleTrie in
  memstore.mem (trie.storage t) !! FeltToBitSet t 7 = None /\
  (let r1 := Put examplePedersen exampleHash 4 7 11 t in
   let r2 := Put examplePedersen exampleHash 4 7 0 (snd r1) in
   fst r1 = Ok tt /\ fst r2 = Ok tt /\
   trie.rootKey (snd r2) = trie.rootKey t /\
   memstore.mem (trie.storage (snd r2)) = memstore.mem (trie.storage t) /\
   fst (Root exampleHash (snd r2)) = fst (Root exampleHash t)).
Proof.
  cbv zeta.
  pose proof (Put_then_delete_restores examplePedersen exampleHash 3 4 exampleOps 7 11
                ltac:(example_side) ltac:(example_side) ltac:(example_side)
                ltac:(lia)) as Hthm.
  cbv zeta in Hthm.
  assert (Hnone : exampleMem !! FeltToBitSet exampleTrie 7 = None)
    by (vm_compute; reflexivity).
  split; [exact Hnone | exact (Hthm Hnone)].
Defined.

(** ** The descent *)

(** Each entry of the list is a child of the entry before it. *)
Fixpoint descending (nodes : list storageNode) : bool :=
  match nodes with
  | a :: (b :: _) as rest =>
      (bitset.EqualPtr (node.left (storageNode.node a)) (Some (storageNode.key b)) ||
       bitset.EqualPtr (node.right (storageNode.node a)) (Some (storageNode.key b)))
      && descending rest
  | _ => true
  end.

Section DescentShape.

Variable Pedersen : Felt -> Felt -> Felt.
Variable Hash : Node -> BitSet -> Felt.

Local Abbreviation tnode := (tnode Pedersen Hash).
Local Abbreviation spine := (spine Pedersen Hash).
Local Abbreviation holds := (holds Pedersen Hash).

Lemma spine_head C u :
  exists rest,
    spine C u = storageNode.mk (tkey (plug C u)) (tnode (plug C u)) :: rest.
Proof.
  destruct C as [|f C]; simpl; eexists; [reflexivity|].
  f_equal. f_equal. destruct f; reflexivity.
Qed.

Lemma spine_descending C u : descending (spine C u) = true.
Proof.
  induction C as [|f C IH]; [reflexivity|].
  change (spine (f :: C) u)
    with (storageNode.mk (fkey f) (tnode (plug (f :: C) u)) :: spine C u).
  destruct (spine_head C u) as (rest & E). rewrite E in IH |- *.
  assert (Hstep : forall a b l,
            descending (a :: b :: l) =
            (bitset.EqualPtr (node.left (storageNode.node a)) (Some (storageNode.key b)) ||
             bitset.EqualPtr (node.right (storageNode.node a)) (Some (storageNode.key b)))
            && descending (b :: l)) by reflexivity.
  rewrite Hstep, IH, andb_true_r. cbn [storageNode.node storageNode.key].
  destruct f as [k r|k l]; simpl; rewrite bitset_Equal_refl;
    [reflexivity | apply orb_true_r].
Qed.

Lemma spine_stored h m C u :
  wf h (plug C u) -> holds m (plug C u) ->
  Forall (fun x => m !! storageNode.key x = Some (storageNode.node x)) (spine C u).
Proof.
  induction C as [|f C IH]; intros Hw Hm.
  - constructor; [|constructor]. exact (holds_root Pedersen Hash m u Hm).
  - change (spine (f :: C) u)
      with (storageNode.mk (fkey f) (tnode (plug (f :: C) u)) :: spine C u).
    destruct (holds_plug_cons Pedersen Hash h m f C u Hw Hm) as [HmC _].
    pose proof (wf_plug_cons h f C u Hw) as (_ & _ & _ & HwC & _).
    constructor; [|exact (IH HwC HmC)].
    cbn [storageNode.key storageNode.node]. rewrite <- (tkey_plug_cons f C u).
    exact (holds_root Pedersen Hash m _ Hm).
Qed.

Lemma spine_last C u : last (spine C u) = Some (storageNode.mk (tkey u) (tnode u)).
Proof.
  induction C as [|f C IH]; [reflexivity|].
  change (spine (f :: C) u)
    with (storageNode.mk (fkey f) (tnode (plug (f :: C) u)) :: spine C u).
  rewrite last_cons, IH. reflexivity.
Qed.

Lemma spine_length C u : length (spine C u) = S (length C).
Proof. induction C as [|f C IH]; simpl; [reflexivity | rewrite IH; reflexivity]. Qed.

(** The keys get longer by at least one bit at every frame of a path. *)
Lemma path_depth h C u :
  wf h (plug C u) ->
  Z.of_nat (length C) + bitset.length (tkey (plug C u)) <= bitset.length (tkey u).
Proof.
  induction C as [|f C IH]; intros Hw; [simpl; lia|].
  pose proof (wf_plug_cons h f C u Hw) as (_ & Hside & _ & HwC & _).
  specialize (IH HwC). apply key_prefix_ext_length in Hside.
  rewrite tkey_plug_cons. cbn [length]. lia.
Qed.

End DescentShape.

(** X8: on a non-empty trie built by any run of operations, [nodesFromRoot]
    returns a list that begins with the node at [rootKey]; every entry is a
    stored node with its key, every entry after the first is a child of the
    entry before it, there are at most [height + 1] entries, and when a leaf
    is stored at the key the list ends with that leaf.  The call only reads
    the store. *)
Theorem nodesFromRoot_descends (Pedersen : Felt -> Felt -> Felt)
    (Hash : Node -> BitSet -> Felt) (h : Z) (fuel : nat) (ops : list op)
    (key : Felt) :
  height_ok h -> h < Z.of_nat fuel -> Forall (op_fits h) ops ->
  0 <= key < 2 ^ h ->
  let t := runOps Pedersen Hash fuel ops (NewTrie memstore.empty h None) in
  forall rk, trie.rootKey t = Some rk ->
  exists nodes t',
    nodesFromRoot fuel (FeltToBitSet t key) t = (Ok nodes, t') /\
    trie.rootKey t' = trie.rootKey t /\
    memstore.mem (trie.storage t') = memstore.mem (trie.storage t) /\
    (exists evs,
       memstore.log (trie.storage t') = memstore.log (trie.storage t) ++ evs /\
       forallb memstore.is_read evs = true) /\
    (exists n rest, nodes = storageNode.mk rk n :: rest) /\
    Forall (fun x => memstore.mem (trie.storage t) !! storageNode.key x =
                     Some (storageNode.node x)) nodes /\
    descending nodes = true /\
    Z.of_nat (length nodes) <= trie.height t + 1 /\
    (forall n, memstore.mem (trie.storage t) !! FeltToBitSet t key = Some n ->
               last nodes = Some (storageNode.mk (FeltToBitSet t key) n)).
Proof.
  intros Hok Hfuel Hfit Hkey t rk Hrk.
  destruct (height_ok_uint h Hok) as [Hh Hmod].
  pose proof (runOps_fresh_inv Pedersen Hash h fuel ops Hok Hfuel Hfit) as Hinv.
  fold t in Hinv. clearbody t.
  destruct Hinv as [Hheight [[Hr _]|(T & HwT & Hr & Hm)]]; [congruence|].
  rewrite Hr in Hrk. injection Hrk as <-.
  set (nk := bitset.mk h key).
  assert (Enk : FeltToBitSet t key = nk)
    by (unfold FeltToBitSet, bitset.FromWithLength; rewrite Hheight; reflexivity).
  rewrite Enk.
  assert (Hnk : canon nk) by (apply canon_full_key; assumption).
  destruct (wf_tkey h T Hh HwT) as [[HT0 _] _].
  pose proof (reads_only_nodesFromRootLoop fuel nk (Some (tkey T)) [] t)
    as (evs & Elog & Hreads).
  unfold nodesFromRoot. rewrite Hr.
  rewrite (mkT_eta t) in Elog |- *. rewrite Hm, Hr, Hheight in Elog |- *.
  destruct (run_nodesFromRootLoop Pedersen Hash h T Hh Hmod HwT fuel nk []
              h (Some (tkey T)) (store_of Pedersen Hash T)
              (memstore.log (trie.storage t)) Hnk eq_refl
              (holds_store_of Pedersen Hash T) ltac:(lia)) as (evs1 & E1).
  rewrite app_nil_l in E1. rewrite E1 in Elog |- *. cbn in Elog.
  pose proof (descend_plug nk T) as Hplug.
  pose proof (descend_exts nk T) as Hpath.
  pose proof (descend_stop h nk T Hh HwT eq_refl) as Hstop. simpl in Hstop.
  destruct (descend nk T) as [C u]. cbn [fst snd] in *.
  eexists. eexists. split; [reflexivity|]. cbn.
  split; [reflexivity|]. split; [reflexivity|].
  split; [exists evs; split; assumption|].
  rewrite <- Hplug in HwT.
  split; [|split; [|split; [|split]]].
  - destruct (spine_head Pedersen Hash C u) as (rest & E).
    rewrite E, Hplug. eexists. eexists. reflexivity.
  - apply (spine_stored Pedersen Hash h); [exact HwT|].
    rewrite Hplug. apply holds_store_of.
  - apply spine_descending.
  - rewrite spine_length. pose proof (path_depth h C u HwT) as Hd.
    destruct (wf_tkey h u Hh (wf_plug_hole h C u HwT)) as [_ Hu].
    rewrite Hplug in Hd. lia.
  - intros n Hn. rewrite spine_last.
    rewrite <- Hplug, (store_of_plug_in Pedersen Hash h C u nk HwT Hpath) in Hn.
    pose proof (store_of_under Pedersen Hash h u nk n (wf_plug_hole h C u HwT) Hn)
      as Hunder.
    destruct Hstop as [Eu|Hstop]; [|contradiction].
    pose proof (store_of_root Pedersen Hash u) as Hroot.
    rewrite Eu in Hroot. rewrite Hroot in Hn. injection Hn as <-.
    rewrite Eu. reflexivity.
Qed.

Lemma nodesFromRoot_descends_witness :
  trie.rootKey exampleTrie = Some (bitset.mk 0 0) /\
  match fst (nodesFromRoot 4 (FeltToBitSet exampleTrie 6) exampleTrie) with
  | Ok nodes =>
      map storageNode.key nodes = [bitset.mk 0 0; bitset.mk 1 1; bitset.mk 3 6]
  | _ => False
  end /\
  exists nodes t',
    nodesFromRoot 4 (FeltToBitSet exampleTrie 6) exampleTrie = (Ok nodes, t') /\
    trie.rootKey t' = trie.rootKey exampleTrie /\
    memstore.mem (trie.storage t') = exampleMem /\
    (exists evs,
       memstore.log (trie.storage t') =
       memstore.log (trie.storage exampleTrie) ++ evs /\
       forallb memstore.is_read evs = true) /\
    (exists n rest, nodes = storageNode.mk (bitset.mk 0 0) n :: rest) /\
    Forall (fun x => exampleMem !! storageNode.key x = Some (storageNode.node x))
           nodes /\
    descending nodes = true /\
    Z.of_nat (length nodes) <= trie.height exampleTrie + 1 /\
    (forall n, exampleMem !! FeltToBitSet exampleTrie 6 = Some n ->
               last nodes = Some (storageNode.mk (FeltToBitSet exampleTrie 6) n)).
Proof.
  pose proof (nodesFromRoot_descends examplePedersen exampleHash 3 4 exampleOps 6
                ltac:(example_side) ltac:(example_side) ltac:(example_side)
                ltac:(lia)) as Hthm.
  cbv zeta in Hthm.
  assert (Hr : trie.rootKey exampleTrie = Some (bitset.mk 0 0))
    by (vm_compute; reflexivity).
  split; [exact Hr|]. split; [vm_compute; reflexivity|].
  exact (Hthm (bitset.mk 0 0) Hr).
Defined.

(** ** The first leaf *)

(** X9: a [Put] of a non-zero value on a fresh trie makes the new leaf the
    root: it returns nil, [rootKey] is the full key of the leaf, [Root]
    returns the hash of the leaf node under its whole key, as
    [TestState_Root] expects, and [Get] returns the value. *)
Theorem first_Put_makes_leaf_root (Pedersen : Felt -> Felt -> Felt)
    (Hash : Node -> BitSet -> Felt) (height : Z) (fuel : nat) (key value : Felt) :
  value <> 0 ->
  let t0 := NewTrie memstore.empty height None in
  let r := Put Pedersen Hash fuel key value t0 in
  fst r = Ok tt /\
  trie.rootKey (snd r) = Some (FeltToBitSet t0 key) /\
  fst (Root Hash (snd r)) =
    Ok (Hash (node.mk value None None) (Path (FeltToBitSet t0 key) None)) /\
  fst (Get key (snd r)) = Ok value.
Proof.
  intros Hv t0 r. subst r t0.
  change (NewTrie memstore.empty height None) with (mkT height None ∅ []).
  rewrite Put_fuel_empty by reflexivity.
  rewrite run_Put_empty by exact Hv. cbn [fst snd].
  split; [reflexivity|]. split; [reflexivity|]. split.
  - rewrite run_Root. cbn [trie.rootKey mkT trie.storage memstore.mem].
    rewrite lookup_insert_eq. reflexivity.
  - destruct (run_Get height key
                (mkT height (Some (bitset.mk height key))
                   (<[bitset.mk height key := node.mk value None None]> ∅)
                   ([] ++ [memstore.EvPut (bitset.mk height key)
                             (node.mk value None None)])) eq_refl) as [E _].
    rewrite E. cbn [trie.storage mkT memstore.mem].
    rewrite lookup_insert_eq. reflexivity.
Qed.

Lemma first_Put_makes_leaf_root_witness :
  let t0 := NewTrie memstore.empty 3 None in
  let r := Put examplePedersen exampleHash 4 5 7 t0 in
  fst r = Ok tt /\
  trie.rootKey (snd r) = Some (FeltToBitSet t0 5) /\
  fst (Root exampleHash (snd r)) =
    Ok (exampleHash (node.mk 7 None None) (Path (FeltToBitSet t0 5) None)) /\
  fst (Get 5 (snd r)) = Ok 7.
Proof.
  apply (first_Put_makes_leaf_root examplePedersen exampleHash 3 4 5 7). lia.
Defined.

(** ** Relative paths *)

(** X10: [Path] drops the parent key and the bit after it, and nothing
    else: when the parent key is a proper prefix of the key, the key is the
    parent key, then the bit that chooses the side, then [Path key
    parentKey]. *)
Theorem Path_rebuilds_key (key parentKey : BitSet) :
  canon key -> canon parentKey ->
  bitset.Len parentKey < bitset.Len key ->
  bitset.Len key < U64.modulus - 1 ->
  snd (FindCommonKey key parentKey) = true ->
  let path := Path key (Some parentKey) in
  let side :=
    bitset.Test key
      (U64.sub (U64.sub (bitset.Len key) (bitset.Len parentKey)) 1) in
  bitset.Len key = bitset.Len parentKey + 1 + bitset.Len path /\
  0 <= bitset.set path < 2 ^ bitset.Len path /\
  bitset.set key =
    (2 * bitset.set parentKey + Z.b2z side) * 2 ^ bitset.Len path + bitset.set path.
Proof.
  intros Hk Hp Hlt Hm Hsub path side. subst path side.
  unfold bitset.Len in *. pose proof Hp as [Hp0 _]. pose proof Hk as [_ Hkset].
  rewrite (FindCommonKey_subset key parentKey Hk Hp ltac:(lia) Hm) in Hsub.
  apply key_prefixb_spec in Hsub. destruct Hsub as [_ Hshift].
  rewrite Path_value by (unfold bitset.Len, U64.modulus in *; lia).
  pose proof (Test_branch key parentKey) as Ht. unfold bitset.Len in Ht.
  rewrite Ht by (unfold U64.modulus in *; lia).
  unfold bit_at, bitset.Len. cbn [bitset.length bitset.set].
  set (n := bitset.length key - bitset.length parentKey - 1) in *.
  assert (Hn : 0 <= n) by (unfold n; lia).
  assert (Hpow : 0 < 2 ^ n) by (apply Z.pow_pos_nonneg; lia).
  split; [unfold n; lia|]. split; [apply Z.mod_pos_bound; exact Hpow|].
  replace (bitset.length key - bitset.length parentKey) with (n + 1) in Hshift
    by (unfold n; lia).
  rewrite <- Hshift, <- shiftr_step by exact Hn.
  rewrite Z.shiftr_div_pow2 by exact Hn.
  rewrite Z.mul_comm. apply Z.div_mod. lia.
Qed.

Lemma Path_rebuilds_key_witness :
  let key := bitset.mk 4 11 in
  let parentKey := bitset.mk 2 2 in
  Path key (Some parentKey) = bitset.mk 1 1 /\
  bitset.Test key (U64.sub (U64.sub (bitset.Len key) (bitset.Len parentKey)) 1) = true /\
  (let path := Path key (Some parentKey) in
   let side :=
     bitset.Test key
       (U64.sub (U64.sub (bitset.Len key) (bitset.Len parentKey)) 1) in
   bitset.Len key = bitset.Len parentKey + 1 + bitset.Len path /\
   0 <= bitset.set path < 2 ^ bitset.Len path /\
   bitset.set key =
     (2 * bitset.set parentKey + Z.b2z side) * 2 ^ bitset.Len path + bitset.set path).
Proof.
  intros key parentKey. split; [reflexivity|]. split; [reflexivity|].
  apply (Path_rebuilds_key key parentKey).
  - unfold canon, key; simpl; lia.
  - unfold canon, parentKey; simpl; lia.
  - unfold bitset.Len; simpl; lia.
  - unfold bitset.Len, U64.modulus; simpl; lia.
  - reflexivity.
Defined.

(** ** Array hashing *)

Module crypto.

(** The errors of the package: the one [PedersenArray] makes, and those
    the hashing routine of the starkware package returns. *)
Inductive error : Type :=
| ErrTooFewElems
| ErrHash (code : Z).

Section Hashing.

(** [Pedersen] hands its two arguments to the hashing routine, which may
    fail. *)
Variable Pedersen : Felt -> Felt -> error + Felt.

(** The loop of [PedersenArray]: [d] is hashed with each element in turn,
    and the first error ends the loop. *)
Fixpoint pedersenLoop (d : Felt) (elems : list Felt) : error + Felt :=
  match elems with
  | [] => inr d
  | e :: elems' =>
      match Pedersen d e with
      | inl err => inl err
      | inr d' => pedersenLoop d' elems'
      end
  end.

(** The length of a slice is below the prime of the field, so that
    [SetInterface] returns it unchanged and without an error. *)
Definition PedersenArray (elems : list Felt) : error + Felt :=
  if (length elems <? 3)%nat then inl ErrTooFewElems
  else
    match pedersenLoop 0 elems with
    | inl err => inl err
    | inr d => Pedersen d (Z.of_nat (length elems))
    end.

End Hashing.

End crypto.

(** X11: [PedersenArray] returns its error for fewer than three elements,
    whatever the hash does; for three elements or more, with a hash that
    does not fail, it returns the hash of the chain [f (... (f (f 0 e1) e2)
    ...) en] with the number of elements. *)
Theorem PedersenArray_chain (Pedersen : Felt -> Felt -> crypto.error + Felt)
    (f : Felt -> Felt -> Felt) (elems : list Felt) :
  ((length elems < 3)%nat ->
     crypto.PedersenArray Pedersen elems = inl crypto.ErrTooFewElems) /\
  ((3 <= length elems)%nat ->
     (forall a b, Pedersen a b = inr (f a b)) ->
     crypto.PedersenArray Pedersen elems =
     inr (f (fold_left f elems 0) (Z.of_nat (length elems)))).
Proof.
  unfold crypto.PedersenArray. split.
  - intros Hlen. apply Nat.ltb_lt in Hlen. rewrite Hlen. reflexivity.
  - intros Hlen Hf.
    destruct (Nat.ltb_spec (length elems) 3) as [|_]; [lia|].
    assert (E : forall l d, crypto.pedersenLoop Pedersen d l = inr (fold_left f l d)).
    { induction l as [|e l IH]; intros d; [reflexivity|].
      simpl. rewrite Hf. apply IH. }
    rewrite E. apply Hf.
Qed.

Lemma PedersenArray_chain_witness :
  let P := fun a b => inr (examplePedersen a b) in
  crypto.PedersenArray P [1; 2] = inl crypto.ErrTooFewElems /\
  crypto.PedersenArray P [1; 2; 3] =
  inr (examplePedersen
         (examplePedersen (examplePedersen (examplePedersen 0 1) 2) 3) 3).
Proof.
  intros P.
  pose proof (PedersenArray_chain P examplePedersen [1; 2]) as [Hshort _].
  pose proof (PedersenArray_chain P examplePedersen [1; 2; 3]) as [_ Hlong].
  split.
  - apply Hshort. simpl. lia.
  - apply Hlong; [simpl; lia|]. intros a b. reflexivity.
Defined.

(** ** The size of the store *)

(** A stored node without children. *)
Definition childless (kn : BitSet * Node) : Prop := node.left (snd kn) = None.

#[global] Instance childless_dec kn : Decision (childless kn).
Proof. unfold childless. apply _. Defined.

Fixpoint leaves (t : tree) : nat :=
  match t with
  | Leaf _ _ => 1
  | Bin _ l r => leaves l + leaves r
  end.

Section StoreSize.

Variable Pedersen : Felt -> Felt -> Felt.
Variable Hash : Node -> BitSet -> Felt.
Variable h : Z.
Hypothesis Hh : 0 <= h.

Local Abbreviation tnode := (tnode Pedersen Hash).
Local Abbreviation store_of := (store_of Pedersen Hash).

Lemma store_of_children_disjoint k l r :
  wf h (Bin k l r) -> store_of l ##ₘ store_of r.
Proof.
  intros (_ & Hl & Hr & Hwl & Hwr). apply map_disjoint_spec. intros p n1 n2 H1 H2.
  pose proof (store_of_under Pedersen Hash h l p n1 Hwl H1) as U1.
  pose proof (store_of_under Pedersen Hash h r p n2 Hwr H2) as U2.
  apply (ext_disjoint k false p); [exact (key_prefix_trans _ _ _ Hl U1)|].
  exact (key_prefix_trans _ _ _ Hr U2).
Qed.

Lemma store_of_children_fresh k l r :
  wf h (Bin k l r) -> (store_of l ∪ store_of r) !! k = None.
Proof.
  intros (_ & Hl & Hr & Hwl & Hwr). apply lookup_union_None. split.
  - destruct (store_of l !! k) as [n|] eqn:E; [|reflexivity]. exfalso.
    pose proof (store_of_under Pedersen Hash h l k n Hwl E) as U.
    pose proof (key_prefix_ext_length _ _ _ (key_prefix_trans _ _ _ Hl U)). lia.
  - destruct (store_of r !! k) as [n|] eqn:E; [|reflexivity]. exfalso.
    pose proof (store_of_under Pedersen Hash h r k n Hwr E) as U.
    pose proof (key_prefix_ext_length _ _ _ (key_prefix_trans _ _ _ Hr U)). lia.
Qed.

Lemma leaves_pos t : (0 < leaves t)%nat.
Proof. induction t; simpl; lia. Qed.

Lemma size_store_of t : wf h t -> (size (store_of t) + 1 = 2 * leaves t)%nat.
Proof.
  induction t as [k v|k l IHl r IHr]; intros Hw.
  - simpl. rewrite map_size_singleton. reflexivity.
  - pose proof (store_of_children_disjoint k l r Hw) as Hd.
    pose proof (store_of_children_fresh k l r Hw) as Hf.
    destruct Hw as (_ & _ & _ & Hwl & Hwr).
    specialize (IHl Hwl). specialize (IHr Hwr).
    change (store_of (Bin k l r))
      with (<[k := tnode (Bin k l r)]> (store_of l ∪ store_of r)).
    rewrite map_size_insert_None by exact Hf.
    rewrite map_size_disj_union by exact Hd. cbn [leaves]. lia.
Qed.

Lemma childless_store_of t :
  wf h t -> size (filter childless (store_of t)) = leaves t.
Proof.
  induction t as [k v|k l IHl r IHr]; intros Hw.
  - simpl. rewrite map_filter_singleton_True by reflexivity.
    apply map_size_singleton.
  - pose proof (store_of_children_disjoint k l r Hw) as Hd.
    pose proof (store_of_children_fresh k l r Hw) as Hf.
    destruct Hw as (_ & _ & _ & Hwl & Hwr).
    change (store_of (Bin k l r))
      with (<[k := tnode (Bin k l r)]> (store_of l ∪ store_of r)).
    rewrite map_filter_insert_not'.
    + rewrite map_filter_union by exact Hd.
      rewrite map_size_disj_union by (apply map_disjoint_filter; exact Hd).
      rewrite (IHl Hwl), (IHr Hwr). reflexivity.
    + unfold childless. simpl. discriminate.
    + intros y Hy. rewrite Hf in Hy. discriminate.
Qed.

End StoreSize.

(** X12: after any run of operations on a fresh trie, the store of a
    non-empty trie holds one node less than twice the number of its
    childless nodes, the leaves; the store of an empty trie holds no node. *)
Theorem store_size_is_twice_leaves (Pedersen : Felt -> Felt -> Felt)
    (Hash : Node -> BitSet -> Felt) (h : Z) (fuel : nat) (ops : list op) :
  height_ok h -> h < Z.of_nat fuel -> Forall (op_fits h) ops ->
  let t := runOps Pedersen Hash fuel ops (NewTrie memstore.empty h None) in
  let m := memstore.mem (trie.storage t) in
  match trie.rootKey t with
  | Some _ => (size m + 1 = 2 * size (filter childless m))%nat
  | None => size m = 0%nat
  end.
Proof.
  intros Hok Hfuel Hfit t m. subst m.
  pose proof (runOps_fresh_inv Pedersen Hash h fuel ops Hok Hfuel Hfit) as Hinv.
  fold t in Hinv. clearbody t.
  destruct Hinv as [_ [[-> ->]|(T & Hw & -> & ->)]].
  - apply map_size_empty.
  - rewrite (childless_store_of Pedersen Hash h T Hw).
    exact (size_store_of Pedersen Hash h T Hw).
Qed.

Lemma store_size_is_twice_leaves_witness :
  trie.rootKey exampleTrie = Some (bitset.mk 0 0) /\
  size exampleMem = 5%nat /\ size (filter childless exampleMem) = 3%nat /\
  (size exampleMem + 1 = 2 * size (filter childless exampleMem))%nat.
Proof.
  pose proof (store_size_is_twice_leaves examplePedersen exampleHash 3 4 exampleOps
                ltac:(example_side) ltac:(example_side) ltac:(example_side)) as Hthm.
  cbv zeta in Hthm.
  assert (Hr : trie.rootKey exampleTrie = Some (bitset.mk 0 0))
    by (vm_compute; reflexivity).
  split; [exact Hr|]. split; [vm_compute; reflexivity|].
  split; [vm_compute; reflexivity|].
  rewrite Hr in Hthm. exact Hthm.
Defined.

(** ** The root *)

(** X13: after any run of operations on a fresh trie, [Root] does not
    fail: when [rootKey] is nil the store is empty and [Root] returns zero,
    and otherwise the node at [rootKey] is in the store and [Root] returns
    its hash under the whole of [rootKey]. *)
Theorem Root_of_built_trie (Pedersen : Felt -> Felt -> Felt)
    (Hash : Node -> BitSet -> Felt) (h : Z) (fuel : nat) (ops : list op) :
  height_ok h -> h < Z.of_nat fuel -> Forall (op_fits h) ops ->
  let t := runOps Pedersen Hash fuel ops (NewTrie memstore.empty h None) in
  match trie.rootKey t with
  | None => memstore.mem (trie.storage t) = ∅ /\ fst (Root Hash t) = Ok 0
  | Some rk =>
      exists n, memstore.mem (trie.storage t) !! rk = Some n /\
                fst (Root Hash t) = Ok (Hash n (Path rk None))
  end.
Proof.
  intros Hok Hfuel Hfit t.
  pose proof (runOps_fresh_inv Pedersen Hash h fuel ops Hok Hfuel Hfit) as Hinv.
  fold t in Hinv. clearbody t. rewrite run_Root.
  destruct Hinv as [_ [[-> ->]|(T & Hw & -> & ->)]].
  - split; reflexivity.
  - exists (tnode Pedersen Hash T). rewrite store_of_root. split; reflexivity.
Qed.

Lemma Root_of_built_trie_witness :
  trie.rootKey exampleTrie = Some (bitset.mk 0 0) /\
  exists n, exampleMem !! bitset.mk 0 0 = Some n /\
            fst (Root exampleHash exampleTrie) =
            Ok (exampleHash n (Path (bitset.mk 0 0) None)).
Proof.
  pose proof (Root_of_built_trie examplePedersen exampleHash 3 4 exampleOps
                ltac:(example_side) ltac:(example_side) ltac:(example_side)) as Hthm.
  cbv zeta in Hthm.
  assert (Hr : trie.rootKey exampleTrie = Some (bitset.mk 0 0))
    by (vm_compute; reflexivity).
  split; [exact Hr|]. rewrite Hr in Hthm. exact Hthm.
Defined.

(** ** No panic *)








